(** * tinyraytracer: the ray tracer of [tinyraytracer.cpp], embedded and verified

    The program computes on C++ [float] and [double].  The embedding takes
    the arithmetic as an interface ([Arith]) and is instantiated twice:
    - [IEEE]: binary32 and binary64 with round-to-nearest-even, built on the
      standard library's [SpecFloat]; this is the arithmetic the compiled
      program runs on, and every definition evaluates on it;
    - [Exact]: real numbers, the arithmetic in which the geometry of the
      program is usually stated.
    Integers ([int], [size_t]) are [Z] with conversions written out. *)

From Stdlib Require Import ZArith List Bool Lia Reals Lra Psatz.
From Stdlib Require Import Floats.SpecFloat.
From stdpp Require Import base list.

Open Scope Z_scope.

(** ** The arithmetic interface *)

Class Arith := {
  flt : Type;                          (* C++ float *)
  dbl : Type;                          (* C++ double *)
  fadd : flt -> flt -> flt;
  fsub : flt -> flt -> flt;
  fmul : flt -> flt -> flt;
  fdiv : flt -> flt -> flt;
  fneg : flt -> flt;
  fabs : flt -> flt;
  fsqrt : flt -> flt;                  (* sqrtf / std::sqrt on float *)
  fltb : flt -> flt -> bool;           (* a < b *)
  feqb : flt -> flt -> bool;           (* a == b *)
  f_of_int : Z -> flt;                 (* int -> float *)
  int_of_f : flt -> Z;                 (* float -> int, truncating *)
  flt_max : flt;                       (* std::numeric_limits<float>::max() *)
  powf : flt -> flt -> flt;            (* libm *)
  dadd : dbl -> dbl -> dbl;
  dsub : dbl -> dbl -> dbl;
  dmul : dbl -> dbl -> dbl;
  ddiv : dbl -> dbl -> dbl;
  dneg : dbl -> dbl;
  dltb : dbl -> dbl -> bool;
  d_of_int : Z -> dbl;                 (* int or size_t -> double *)
  int_of_d : dbl -> Z;                 (* double -> int, truncating *)
  d_lit : Z -> nat -> dbl;             (* decimal literal m / 10^k *)
  dtan : dbl -> dbl;                   (* libm *)
  d_of_f : flt -> dbl;                 (* float -> double, exact *)
  f_of_d : dbl -> flt                  (* double -> float, rounding *)
}.

Declare Scope flt_scope.
Delimit Scope flt_scope with fl.
Declare Scope dbl_scope.
Delimit Scope dbl_scope with db.
Infix "+" := fadd : flt_scope.
Infix "-" := fsub : flt_scope.
Infix "*" := fmul : flt_scope.
Infix "/" := fdiv : flt_scope.
Notation "- a" := (fneg a) : flt_scope.
Infix "<?" := fltb : flt_scope.
Infix "+" := dadd : dbl_scope.
Infix "-" := dsub : dbl_scope.
Infix "*" := dmul : dbl_scope.
Infix "/" := ddiv : dbl_scope.
Notation "- a" := (dneg a) : dbl_scope.
Infix "<?" := dltb : dbl_scope.

(** ** Outcomes of a call

    What a call of a [void] or value-returning C++ function can end in. *)
Inductive outcome (T : Type) : Type :=
| Done (t : T)        (* the call returns *)
| Undefined           (* undefined behaviour: division by zero, index out of
                         bounds, conversion of a float out of range *)
| Throws              (* std::vector refuses the requested size *)
| Exhausted.          (* the call stack would grow beyond the fuel *)
Arguments Done {T} t.
Arguments Undefined {T}.
Arguments Throws {T}.
Arguments Exhausted {T}.

Definition obind {T U : Type} (m : outcome T) (k : T -> outcome U) : outcome U :=
  match m with
  | Done t => k t
  | Undefined => Undefined
  | Throws => Throws
  | Exhausted => Exhausted
  end.

Notation "'do' x <- m ; k" := (obind m (fun x => k))
  (at level 10, x pattern, m at level 100, k at level 200).

(** [for (v = lo; ...; v++)] run for [n] iterations over a state. *)
Fixpoint for_range {St : Type} (lo : Z) (n : nat)
  (body : Z -> St -> outcome St) (s : St) : outcome St :=
  match n with
  | O => Done s
  | S n => do s' <- body lo s; for_range (lo + 1) n body s'
  end.

(** [a / b] and [a % b] on int. *)
Definition int_div (a b : Z) : outcome Z :=
  if b =? 0 then Undefined else Done (Z.quot a b).

Definition int_rem (a b : Z) : outcome Z :=
  if b =? 0 then Undefined else Done (Z.rem a b).

Section Program.
Context {A : Arith}.

(** [a > b] is [b < a]; [a != b] is the negation of [a == b]. *)
Definition fgtb (a b : flt) : bool := (b <? a)%fl.
Definition fneb (a b : flt) : bool := negb (feqb a b).
Definition dgtb (a b : dbl) : bool := (b <? a)%db.

(** std::min and std::max, as the standard defines them. *)
Definition fmin (a b : flt) : flt := if (b <? a)%fl then b else a.
Definition fmax (a b : flt) : flt := if (a <? b)%fl then b else a.

(** ** Vectors ([geometry.h]) *)

(** Modelled from the spec: [geometry.h] (Vec3f, Vec4f and their operators)
    is not among the sources.  The spec gives fixed-size float tuples with
    add, subtract, scale, dot product ([*] between two vectors), negation,
    Euclidean norm, normalize without a zero-length guard, indexed access,
    and a default value that is black. *)
Record Vec3f := mkVec3f { vx : flt; vy : flt; vz : flt }.

Record Vec4f := mkVec4f { v0 : flt; v1 : flt; v2 : flt; v3 : flt }.

Definition Vec3f_default : Vec3f :=
  mkVec3f (f_of_int 0) (f_of_int 0) (f_of_int 0).

Definition vadd (a b : Vec3f) : Vec3f :=
  mkVec3f (vx a + vx b)%fl (vy a + vy b)%fl (vz a + vz b)%fl.

Definition vsub (a b : Vec3f) : Vec3f :=
  mkVec3f (vx a - vx b)%fl (vy a - vy b)%fl (vz a - vz b)%fl.

Definition vneg (a : Vec3f) : Vec3f :=
  mkVec3f (- vx a)%fl (- vy a)%fl (- vz a)%fl.

(** vector * float *)
Definition vscale (a : Vec3f) (k : flt) : Vec3f :=
  mkVec3f (vx a * k)%fl (vy a * k)%fl (vz a * k)%fl.

(** vector * double: each product is formed in double and stored as float *)
Definition vscale_d (a : Vec3f) (k : dbl) : Vec3f :=
  mkVec3f (f_of_d (d_of_f (vx a) * k)%db)
          (f_of_d (d_of_f (vy a) * k)%db)
          (f_of_d (d_of_f (vz a) * k)%db).

(** vector * vector is the dot product *)
Definition vdot (a b : Vec3f) : flt :=
  (vx a * vx b + vy a * vy b + vz a * vz b)%fl.

Definition norm (a : Vec3f) : flt := fsqrt (vdot a a).

Definition normalize (a : Vec3f) : Vec3f :=
  vscale a (f_of_int 1 / norm a)%fl.

(** [v[i]] for i = 0, 1, 2 *)
Definition vnth (a : Vec3f) (i : Z) : flt :=
  if i <=? 0 then vx a else if i =? 1 then vy a else vz a.

(** ** Scene model *)

Record Light := mkLight { position : Vec3f; intensity : flt }.

Record MMaterial := mkMaterial {
  refractive_index : flt;
  albedo : Vec4f;
  diffuse_color : Vec3f;
  specular_exponent : flt
}.

(** MMaterial() *)
Definition MMaterial_default : MMaterial :=
  mkMaterial (f_of_int 1)
             (mkVec4f (f_of_int 1) (f_of_int 0) (f_of_int 0) (f_of_int 0))
             Vec3f_default (f_of_int 0).

Definition set_diffuse_color (m : MMaterial) (c : Vec3f) : MMaterial :=
  mkMaterial (refractive_index m) (albedo m) c (specular_exponent m).

Record Sphere := mkSphere { center : Vec3f; radius : flt; material : MMaterial }.

(** ** Sphere::ray_intersect

    The result is the returned bool and the value of the output parameter
    [t0], which the caller passes in as [t0_in] and which is left untouched
    when the function returns at the first test. *)
Definition ray_intersect (s : Sphere) (orig dir : Vec3f) (t0_in : flt)
  : bool * flt :=
  let L := vsub (center s) orig in
  let tca := vdot L dir in
  let d2 := (vdot L L - tca * tca)%fl in
  let radius2 := (radius s * radius s)%fl in
  if fgtb d2 radius2 then (false, t0_in) else
  let thc := fsqrt (radius2 - d2)%fl in
  let t0 := (tca - thc)%fl in
  let t1 := (tca + thc)%fl in
  let t0 := if (t0 <? f_of_int 0)%fl then t1 else t0 in
  if (t0 <? f_of_int 0)%fl then (false, t0) else (true, t0).

(** ** reflect and refract *)

Definition reflect (I N : Vec3f) : Vec3f :=
  vsub I (vscale (vscale N (f_of_int 2)) (vdot I N)).

(** The value of [k] that [refract] tests, with the swap of the indices and
    of the normal already applied. *)
Definition refract_terms (I N : Vec3f) (refractive_index : flt)
  : flt * flt * Vec3f * flt :=
  let cosi := (- fmax (f_of_int (-1)) (fmin (f_of_int 1) (vdot I N)))%fl in
  let etai := f_of_int 1 in
  let etat := refractive_index in
  let n := N in
  let '(cosi, etai, etat, n) :=
    if (cosi <? f_of_int 0)%fl then ((- cosi)%fl, etat, etai, vneg N)
    else (cosi, etai, etat, n) in
  let eta := (etai / etat)%fl in
  let k := (f_of_int 1 - eta * eta * (f_of_int 1 - cosi * cosi))%fl in
  (cosi, eta, n, k).

Definition refract (I N : Vec3f) (refractive_index : flt) : Vec3f :=
  let '(cosi, eta, n, k) := refract_terms I N refractive_index in
  if (k <? f_of_int 0)%fl
  then mkVec3f (f_of_int 0) (f_of_int 0) (f_of_int 0)
  else vadd (vscale I eta) (vscale n (eta * cosi - fsqrt k)%fl).

(** ** scene_intersect *)

(** The three output parameters [hit], [N], [material]. *)
Record Outputs := mkOutputs { o_hit : Vec3f; o_N : Vec3f; o_material : MMaterial }.

(** Vec3f(), Vec3f(), MMaterial(): what cast_ray passes in. *)
Definition Outputs_default : Outputs :=
  mkOutputs Vec3f_default Vec3f_default MMaterial_default.

(** What the loop over the spheres assigns to the output parameters
    when sphere [s] is recorded at distance [dist_i]. *)
Definition sphere_outputs (orig dir : Vec3f) (s : Sphere) (dist_i : flt)
  : Outputs :=
  let hit := vadd orig (vscale dir dist_i) in
  mkOutputs hit (normalize (vsub hit (center s))) (material s).

(** One iteration of the loop over the spheres; the state is
    [spheres_dist] and the output parameters.  [dist_i] is uninitialised
    in the source and only read after ray_intersect has written it. *)
Definition sphere_step (orig dir : Vec3f) (st : flt * Outputs) (s : Sphere)
  : flt * Outputs :=
  let '(spheres_dist, out) := st in
  let '(found, dist_i) := ray_intersect s orig dir (f_of_int 0) in
  if found && (dist_i <? spheres_dist)%fl
  then (dist_i, sphere_outputs orig dir s dist_i)
  else st.

Definition spheres_loop (orig dir : Vec3f) (spheres : list Sphere)
  (out : Outputs) : flt * Outputs :=
  fold_left (sphere_step orig dir) spheres (flt_max, out).

(** The parity test of the checkerboard: the two conversions to int
    truncate; the sum stays far from the int range because of the bounds
    on [hit] tested just before. *)
Definition checker_odd (hit : Vec3f) : bool :=
  negb (Z.land (int_of_d (d_lit 5 1 * d_of_f (vx hit) + d_of_int 1000)%db
                + int_of_d (d_lit 5 1 * d_of_f (vz hit))%db) 1 =? 0).

Definition tile_white : Vec3f :=
  mkVec3f (f_of_int 1) (f_of_int 1) (f_of_int 1).

Definition tile_orange : Vec3f :=
  mkVec3f (f_of_int 1) (f_of_d (d_lit 7 1)) (f_of_d (d_lit 3 1)).

(** The two assignments to [material.diffuse_color]. *)
Definition checker_color (hit : Vec3f) : Vec3f :=
  vscale_d (if checker_odd hit then tile_white else tile_orange) (d_lit 3 1).

(** The test that lets the plane win. *)
Definition plane_wins (pt : Vec3f) (d spheres_dist : flt) : bool :=
  fgtb d (f_of_int 0) && (fabs (vx pt) <? f_of_int 10)%fl
  && (vz pt <? f_of_int (-10))%fl && fgtb (vz pt) (f_of_int (-30))
  && (d <? spheres_dist)%fl.

Definition plane_step (orig dir : Vec3f) (spheres_dist : flt) (out : Outputs)
  : flt * Outputs :=
  let checkerboard_dist := flt_max in
  if dgtb (d_of_f (fabs (vy dir))) (d_lit 1 3) then
    let d := (- (vy orig + f_of_int 4) / vy dir)%fl in
    let pt := vadd orig (vscale dir d) in
    if plane_wins pt d spheres_dist then
      (d, mkOutputs pt (mkVec3f (f_of_int 0) (f_of_int 1) (f_of_int 0))
                    (set_diffuse_color (o_material out) (checker_color pt)))
    else (checkerboard_dist, out)
  else (checkerboard_dist, out).

Definition scene_intersect (orig dir : Vec3f) (spheres : list Sphere)
  (out : Outputs) : bool * Outputs :=
  let '(spheres_dist, out) := spheres_loop orig dir spheres out in
  let '(checkerboard_dist, out) := plane_step orig dir spheres_dist out in
  ((fmin spheres_dist checkerboard_dist <? f_of_int 1000)%fl, out).

(** ** cast_ray *)

(** [size_t] is 64 bits wide; an [int] compared with or added to a
    [size_t] is converted to it first. *)
Definition to_size_t (z : Z) : Z := z mod 2 ^ 64.

Definition background : Vec3f :=
  mkVec3f (f_of_d (d_lit 2 1)) (f_of_d (d_lit 7 1)) (f_of_d (d_lit 8 1)).

(** [dir * N < 0 ? point - N * 1e-3 : point + N * 1e-3] *)
Definition offset_orig (dir N point : Vec3f) : Vec3f :=
  if (vdot dir N <? f_of_int 0)%fl
  then vsub point (vscale_d N (d_lit 1 3))
  else vadd point (vscale_d N (d_lit 1 3)).

(** The test before [continue] in the loop over the lights. *)
Definition occluded (spheres : list Sphere) (shadow_orig light_dir : Vec3f)
  (light_distance : flt) : bool :=
  let '(found, out) := scene_intersect shadow_orig light_dir spheres Outputs_default in
  found && (norm (vsub (o_hit out) shadow_orig) <? light_distance)%fl.

(** One iteration of the loop over the lights; the state is
    [diffuse_light_intensity] and [specular_light_intensity]. *)
Definition light_step (spheres : list Sphere) (dir point N : Vec3f)
  (mat : MMaterial) (acc : flt * flt) (l : Light) : flt * flt :=
  let '(diffuse_light_intensity, specular_light_intensity) := acc in
  let light_dir := normalize (vsub (position l) point) in
  let light_distance := norm (vsub (position l) point) in
  let shadow_orig := offset_orig light_dir N point in
  if occluded spheres shadow_orig light_dir light_distance then acc
  else
    ((diffuse_light_intensity
      + intensity l * fmax (f_of_int 0) (vdot light_dir N))%fl,
     (specular_light_intensity
      + powf (fmax (f_of_int 0) (vdot (vneg (reflect (vneg light_dir) N)) dir))
             (specular_exponent mat) * intensity l)%fl).

Definition lights_loop (spheres : list Sphere) (lights : list Light)
  (dir point N : Vec3f) (mat : MMaterial) : flt * flt :=
  fold_left (light_step spheres dir point N mat) lights (f_of_int 0, f_of_int 0).

(** The returned combination. *)
Definition shade (mat : MMaterial) (diffuse_light_intensity specular_light_intensity : flt)
  (reflect_color refract_color : Vec3f) : Vec3f :=
  vadd (vadd (vadd
    (vscale (vscale (diffuse_color mat) diffuse_light_intensity) (v0 (albedo mat)))
    (vscale (vscale (mkVec3f (f_of_d (d_lit 1 0)) (f_of_d (d_lit 1 0)) (f_of_d (d_lit 1 0)))
                    specular_light_intensity) (v1 (albedo mat))))
    (vscale reflect_color (v2 (albedo mat))))
    (vscale refract_color (v3 (albedo mat))).

(** The recursion of cast_ray is bounded by [fuel] (the depth of the C++
    call stack); [None] is a stack that would grow beyond it.  Next to the
    colour the function counts the calls of cast_ray made below it. *)
Fixpoint cast_ray (fuel : nat) (orig dir : Vec3f) (spheres : list Sphere)
  (lights : list Light) (depth maxDepth : Z) : option (Vec3f * nat) :=
  match fuel with
  | O => None
  | S fuel =>
    if to_size_t maxDepth <? depth then Some (background, O) else
    let '(found, out) := scene_intersect orig dir spheres Outputs_default in
    if negb found then Some (background, O) else
    let point := o_hit out in
    let N := o_N out in
    let mat := o_material out in
    let reflect_dir := normalize (reflect dir N) in
    let refract_dir := normalize (refract dir N (refractive_index mat)) in
    let reflect_orig := offset_orig reflect_dir N point in
    let refract_orig := offset_orig refract_dir N point in
    match cast_ray fuel reflect_orig reflect_dir spheres lights
                   (to_size_t (depth + 1)) maxDepth with
    | None => None
    | Some (reflect_color, calls1) =>
      match cast_ray fuel refract_orig refract_dir spheres lights
                     (to_size_t (depth + 1)) maxDepth with
      | None => None
      | Some (refract_color, calls2) =>
        let '(diffuse_light_intensity, specular_light_intensity) :=
          lights_loop spheres lights dir point N mat in
        Some (shade mat diffuse_light_intensity specular_light_intensity
                    reflect_color refract_color,
              (2 + calls1 + calls2)%nat)
      end
    end
  end.

(** ** render *)

Definition width : Z := 1024.
Definition height : Z := 768.

(** [const int fov = 3.14159265 / 2;] *)
Definition fov : Z := int_of_d (d_lit 314159265 8 / d_of_int 2)%db.

(** A draw command: the arguments of one call of DrawRectangle. *)
Record Color := mkColor { cr : Z; cg : Z; cb : Z; ca : Z }.

Record Rect := mkRect {
  posX : Z; posY : Z; rectWidth : Z; rectHeight : Z; color : Color
}.

(** [std::vector<Vec3f> v(n)] with [n] an int: the size is converted to
    size_t, and a size beyond max_size() is refused. *)
Definition vector_max_size : Z := (2 ^ 63 - 1) / 12.

Definition new_framebuffer (n : Z) : outcome (list Vec3f) :=
  if vector_max_size <? to_size_t n then Throws
  else Done (replicate (Z.to_nat (to_size_t n)) Vec3f_default).

(** [framebuffer[idx]] read and written; an int index is converted to
    size_t, and an index out of bounds is undefined behaviour. *)
Definition fb_read (fb : list Vec3f) (idx : Z) : outcome Vec3f :=
  match fb !! Z.to_nat (to_size_t idx) with
  | Some c => Done c
  | None => Undefined
  end.

Definition fb_write (fb : list Vec3f) (idx : Z) (c : Vec3f) : outcome (list Vec3f) :=
  if to_size_t idx <? Z.of_nat (length fb)
  then Done (<[Z.to_nat (to_size_t idx) := c]> fb)
  else Undefined.

(** The direction of the primary ray of pixel (i, j); [w] and [h] are
    [width / scale] and [height / scale]. *)
Definition pixel_x (i w h : Z) : flt :=
  f_of_d ((d_of_int 2 * (d_of_int i + d_lit 5 1) / d_of_int w - d_of_int 1)
          * dtan (d_of_int fov / d_lit 2 0) * d_of_int w / d_of_int h)%db.

Definition pixel_y (j h : Z) : flt :=
  f_of_d (- (d_of_int 2 * (d_of_int j + d_lit 5 1) / d_of_int h - d_of_int 1)
          * dtan (d_of_int fov / d_lit 2 0))%db.

Definition pixel_dir (i j w h : Z) : Vec3f :=
  normalize (mkVec3f (pixel_x i w h) (pixel_y j h) (f_of_int (-1))).

Definition camera : Vec3f := mkVec3f (f_of_int 0) (f_of_int 0) (f_of_int 0).

(** The shading result of pixel (i, j), with the count of its calls. *)
Definition pixel_color (fuel : nat) (spheres : list Sphere) (lights : list Light)
  (maxDepth w h i j : Z) : option (Vec3f * nat) :=
  cast_ray fuel camera (pixel_dir i j w h) spheres lights 0 maxDepth.

(** The body of the inner loop of the first pair of loops. *)
Definition render_pixel (fuel : nat) (spheres : list Sphere) (lights : list Light)
  (maxDepth w h j i : Z) (fb : list Vec3f) : outcome (list Vec3f) :=
  match pixel_color fuel spheres lights maxDepth w h i j with
  | None => Exhausted
  | Some (c, _) => fb_write fb (to_size_t (i + to_size_t (j * width))) c
  end.

(** The first pair of loops: [j] and [i] are size_t, the bounds are ints
    converted to size_t. *)
Definition fill_framebuffer (fuel : nat) (spheres : list Sphere) (lights : list Light)
  (scale maxDepth : Z) (fb : list Vec3f) : outcome (list Vec3f) :=
  do h <- int_div height scale;
  do w <- int_div width scale;
  for_range 0 (Z.to_nat (to_size_t h))
    (fun j fb =>
       for_range 0 (Z.to_nat (to_size_t w))
         (render_pixel fuel spheres lights maxDepth w h j) fb)
    fb.

(** The colour correction, applied to [currentColor] in place. *)
Definition color_correct (c : Vec3f) : Vec3f :=
  let max := fmax (vnth c 0) (fmax (vnth c 1) (vnth c 2)) in
  if fgtb max (f_of_int 1) then vscale_d c (d_lit 1 0 / d_of_f max)%db else c.

(** [(unsigned char)(255 * v)]: the product is truncated toward zero,
    and the conversion is undefined behaviour when the truncated value
    is not one of 0..255 (a negative or too large product, an infinity,
    a NaN). *)
Definition to_uchar (v : flt) : outcome Z :=
  let z := int_of_f (f_of_int 255 * v)%fl in
  if (0 <=? z) && (z <=? 255) then Done z else Undefined.

(** The Color that DrawRectangle is passed. *)
Definition to_Color (c : Vec3f) : outcome Color :=
  do r <- to_uchar (vnth c 0);
  do g <- to_uchar (vnth c 1);
  do b <- to_uchar (vnth c 2);
  Done (mkColor r g b 255).

(** The state of the loop over the columns: [startIdx], [currentColor] and
    the rectangles drawn so far (latest first). *)
Record RunState := mkRunState {
  rs_startIdx : Z; rs_currentColor : Vec3f; rs_drawn : list Rect
}.

Definition color_differs (a b : Vec3f) : bool :=
  fneb (vnth a 0) (vnth b 0) || fneb (vnth a 1) (vnth b 1)
  || fneb (vnth a 2) (vnth b 2).

(** The body of the loop over the columns. *)
Definition column_step (fb : list Vec3f) (scale oldStartIdx : Z)
  (col : Z) (st : RunState) : outcome RunState :=
  let idx := oldStartIdx + col in
  do w <- int_div width scale;
  let endRow := col =? w - 1 in
  do px <- fb_read fb idx;
  let startIdx := rs_startIdx st in
  let currentColor := rs_currentColor st in
  let colorChange := color_differs px currentColor in
  if endRow || colorChange then
    let currentColor := color_correct currentColor in
    do xm <- int_rem startIdx width;
    let x := xm * scale in
    do yd <- int_div startIdx width;
    let y := yd * scale in
    do wm <- int_rem startIdx w;
    let rectWidth := (col - wm) * scale in
    let rectHeight := scale in
    do color <- to_Color currentColor;
    let drawn := mkRect x y rectWidth rectHeight color :: rs_drawn st in
    if colorChange
    then Done (mkRunState idx px drawn)
    else Done (mkRunState startIdx currentColor drawn)
  else Done st.

(** The body of the loop over the rows; the state is the list of the
    rectangles drawn so far (latest first). *)
Definition row_step (fb : list Vec3f) (scale : Z) (row : Z) (drawn : list Rect)
  : outcome (list Rect) :=
  let startIdx := row * width in
  do currentColor <- fb_read fb startIdx;
  let oldStartIdx := startIdx in
  do w <- int_div width scale;
  do st <- for_range 0 (Z.to_nat (w + 1)) (column_step fb scale oldStartIdx)
             (mkRunState startIdx currentColor drawn);
  Done (rs_drawn st).

(** What the loop over the columns draws for a row of one colour: a
    rectangle at the last column, in the Color [k] of the colour
    corrected once, and one at the column after it, in the Color of the
    colour corrected twice. *)
Definition short_rect (scale row : Z) (k : Color) : Rect :=
  mkRect 0 (row * scale) ((Z.quot width scale - 1) * scale) scale k.

Definition full_rect (scale row : Z) (k : Color) : Rect :=
  mkRect 0 (row * scale) (Z.quot width scale * scale) scale k.

(** The second pair of loops: the rectangles in the order they are drawn. *)
Definition draw_rows (fb : list Vec3f) (scale : Z) : outcome (list Rect) :=
  do h <- int_div height scale;
  do drawn <- for_range 0 (Z.to_nat h) (row_step fb scale) [];
  Done (rev drawn).

Definition render (fuel : nat) (spheres : list Sphere) (lights : list Light)
  (scale maxDepth : Z) : outcome (list Rect) :=
  do n <- int_div (width * height) scale;
  do fb <- new_framebuffer n;
  do fb <- fill_framebuffer fuel spheres lights scale maxDepth fb;
  draw_rows fb scale.

End Program.

(** ** main

    Of main the embedding keeps what decides the arguments of render. *)

(** The key handling of main: what it does to [scale] and [maxDepth]
    each frame, given which of the four keys were pressed. *)
Definition update_params (left right down up : bool) (scale maxDepth : Z)
  : Z * Z :=
  (if (1 <? scale) && left then Z.quot scale 2
   else if (scale <? 16) && right then scale * 2 else scale,
   if (1 <? maxDepth) && down then maxDepth - 1
   else if (maxDepth <? 4) && up then maxDepth + 1 else maxDepth).

(** The parameters main can pass to render. *)
Definition valid_params (p : Z * Z) : Prop :=
  In (fst p) [1; 2; 4; 8; 16] /\ 1 <= snd p <= 4.

(** [angle = (angle + 4) % 360;], the first statement of each frame;
    [angle] is an int that starts at 0. *)
Definition next_angle (angle : Z) : Z := Z.rem (angle + 4) 360.

(** A rectangle of a frame drawn at [scale] that lies inside the window
    of [width] by [height] pixels and is [scale] high. *)
Definition inside_window (scale : Z) (r : Rect) : Prop :=
  0 <= posX r /\ 0 <= rectWidth r /\ posX r + rectWidth r <= width
  /\ 0 <= posY r /\ rectHeight r = scale /\ posY r + rectHeight r <= height.

(** Two pixels that the loop over the columns keeps in one run: the
    pixel is the colour the run started with, or compares equal to it. *)
Definition same_run {A : Arith} (px cur : Vec3f) : Prop :=
  px = cur \/ color_differs px cur = false.

(** The rectangle over the columns [a, b) of [row], in the Color [k]. *)
Definition run_rect (scale row a b : Z) (k : Color) : Rect :=
  mkRect (a * scale) (row * scale) ((b - a) * scale) scale k.

(** The framebuffer holds, at a pixel of the grid of [scale], a colour
    whose conversion to a Color is undefined behaviour after one or
    after two colour corrections. *)
Definition undefined_pixel {A : Arith} (fb : list Vec3f) (scale : Z) : Prop :=
  exists row col px,
    0 <= row < Z.quot height scale /\ 0 <= col < Z.quot width scale
    /\ fb !! Z.to_nat (row * width + col) = Some px
    /\ (to_Color (color_correct px) = Undefined
        \/ to_Color (color_correct (color_correct px)) = Undefined).

(** The same of the frame that render traces: the shading result of
    some pixel has no defined conversion. *)
Definition undefined_conversion {A : Arith} (fuel : nat) (spheres : list Sphere)
  (lights : list Light) (scale maxDepth : Z) : Prop :=
  exists row col px calls,
    0 <= row < Z.quot height scale /\ 0 <= col < Z.quot width scale
    /\ cast_ray fuel camera
                (pixel_dir col row (Z.quot width scale) (Z.quot height scale))
                spheres lights 0 maxDepth = Some (px, calls)
    /\ (to_Color (color_correct px) = Undefined
        \/ to_Color (color_correct (color_correct px)) = Undefined).

(** ** The IEEE-754 instance

    [float] is binary32 and [double] is binary64, both rounding to nearest
    with ties to even.  A value of either format is a [spec_float] in the
    canonical form of that format. *)
Module IEEE754.

Definition prec32 : Z := 24.
Definition emax32 : Z := 128.
Definition prec64 : Z := 53.
Definition emax64 : Z := 1024.

(** Rounds the value of [x] into the format ([prec], [emax]). *)
Definition SFround (prec emax : Z) (x : spec_float) : spec_float :=
  match x with
  | S754_finite s m e => binary_normalize prec emax (cond_Zopp s (Zpos m)) e s
  | _ => x
  end.

(** Truncation of a floating-point value toward zero. *)
Definition SFtrunc (x : spec_float) : option Z :=
  match x with
  | S754_zero _ => Some 0
  | S754_finite s m e =>
      Some (cond_Zopp s (if 0 <=? e then Zpos m * 2 ^ e
                         else Z.quot (Zpos m) (2 ^ (- e))))
  | _ => None
  end.

(** Conversion to int.  A value whose truncation is not an int, an
    infinity or a NaN is undefined behaviour in C++; the x86-64
    conversion instruction yields INT_MIN there. *)
Definition SFto_int (x : spec_float) : Z :=
  match SFtrunc x with
  | Some z => if (- 2 ^ 31 <=? z) && (z <? 2 ^ 31) then z else - 2 ^ 31
  | None => - 2 ^ 31
  end.

Definition SFof_int (prec emax : Z) (z : Z) : spec_float :=
  binary_normalize prec emax z 0 false.

(** The decimal literal m / 10^k, correctly rounded (m and 10^k are
    exact in binary64 for the literals of the program). *)
Definition SFdecimal (m : Z) (k : nat) : spec_float :=
  SFdiv prec64 emax64 (SFof_int prec64 emax64 m)
                      (SFof_int prec64 emax64 (10 ^ Z.of_nat k)).

Definition NaN : spec_float := S754_nan.

(** The round-down of a floating-point value (for the comparison with
    the truncation the program performs). *)
Definition SFfloor (x : spec_float) : Z :=
  match x with
  | S754_finite s m e =>
      if 0 <=? e then cond_Zopp s (Zpos m) * 2 ^ e
      else cond_Zopp s (Zpos m) / 2 ^ (- e)
  | _ => 0
  end.

(** The place of a value in the order of the comparison: the sign class,
    then the exponent, then the mantissa (canonical forms). A NaN has
    none. *)
Definition key (x : spec_float) : option (Z * Z * Z) :=
  match x with
  | S754_nan => None
  | S754_infinity true => Some (-2, 0, 0)
  | S754_finite true m e => Some (-1, - e, Zneg m)
  | S754_zero _ => Some (0, 0, 0)
  | S754_finite false m e => Some (1, e, Zpos m)
  | S754_infinity false => Some (2, 0, 0)
  end.

Definition lex_lt (a b : Z * Z * Z) : Prop :=
  let '(a1, a2, a3) := a in
  let '(b1, b2, b3) := b in
  a1 < b1 \/ (a1 = b1 /\ (a2 < b2 \/ (a2 = b2 /\ a3 < b3))).

End IEEE754.

(** The instance takes the two libm functions of the program as they
    are on the platform. *)
Definition IEEE (libm_powf : spec_float -> spec_float -> spec_float)
  (libm_tan : spec_float -> spec_float) : Arith := {|
  flt := spec_float;
  dbl := spec_float;
  fadd := SFadd IEEE754.prec32 IEEE754.emax32;
  fsub := SFsub IEEE754.prec32 IEEE754.emax32;
  fmul := SFmul IEEE754.prec32 IEEE754.emax32;
  fdiv := SFdiv IEEE754.prec32 IEEE754.emax32;
  fneg := SFopp;
  fabs := SFabs;
  fsqrt := SFsqrt IEEE754.prec32 IEEE754.emax32;
  fltb := SFltb;
  feqb := SFeqb;
  f_of_int := IEEE754.SFof_int IEEE754.prec32 IEEE754.emax32;
  int_of_f := IEEE754.SFto_int;
  flt_max := SFmax_float IEEE754.prec32 IEEE754.emax32;
  powf := libm_powf;
  dadd := SFadd IEEE754.prec64 IEEE754.emax64;
  dsub := SFsub IEEE754.prec64 IEEE754.emax64;
  dmul := SFmul IEEE754.prec64 IEEE754.emax64;
  ddiv := SFdiv IEEE754.prec64 IEEE754.emax64;
  dneg := SFopp;
  dltb := SFltb;
  d_of_int := IEEE754.SFof_int IEEE754.prec64 IEEE754.emax64;
  int_of_d := IEEE754.SFto_int;
  d_lit := IEEE754.SFdecimal;
  dtan := libm_tan;
  d_of_f := IEEE754.SFround IEEE754.prec64 IEEE754.emax64;
  f_of_d := IEEE754.SFround IEEE754.prec32 IEEE754.emax32
|}.

(** The vector of three NaNs. *)
Definition IEEE_NaN3 (libm_powf : spec_float -> spec_float -> spec_float)
  (libm_tan : spec_float -> spec_float) : @Vec3f (IEEE libm_powf libm_tan) :=
  @mkVec3f (IEEE libm_powf libm_tan) S754_nan S754_nan S754_nan.

(** The instance for closed examples whose evaluation reaches neither
    powf nor tan. *)
Definition IEEE_basic : Arith :=
  IEEE (fun _ _ => IEEE754.NaN) (fun _ => IEEE754.NaN).

(** ** The exact instance

    Both [float] and [double] are the real numbers: no rounding, no
    special values. *)
Module ExactR.

Definition Rltb (a b : R) : bool := if Rlt_dec a b then true else false.

Definition Reqb (a b : R) : bool := if Req_dec_T a b then true else false.

(** Truncation toward zero. *)
Definition Rtrunc (r : R) : Z :=
  if Rle_dec 0 r then Int_part r else (- Int_part (- r))%Z.

(** powf on a base that is never negative in the program. *)
Definition Rpowf (x y : R) : R :=
  if Req_dec_T y 0 then 1%R
  else if Rle_dec x 0 then 0%R else Rpower x y.

Definition Rdecimal (m : Z) (k : nat) : R := (IZR m / IZR (10 ^ Z.of_nat k))%R.

Definition FLT_MAX : R := IZR ((2 ^ 24 - 1) * 2 ^ 104).

End ExactR.

Definition Exact : Arith := {|
  flt := R;
  dbl := R;
  fadd := Rplus;
  fsub := Rminus;
  fmul := Rmult;
  fdiv := Rdiv;
  fneg := Ropp;
  fabs := Rabs;
  fsqrt := sqrt;
  fltb := ExactR.Rltb;
  feqb := ExactR.Reqb;
  f_of_int := IZR;
  int_of_f := ExactR.Rtrunc;
  flt_max := ExactR.FLT_MAX;
  powf := ExactR.Rpowf;
  dadd := Rplus;
  dsub := Rminus;
  dmul := Rmult;
  ddiv := Rdiv;
  dneg := Ropp;
  dltb := ExactR.Rltb;
  d_of_int := IZR;
  int_of_d := ExactR.Rtrunc;
  d_lit := ExactR.Rdecimal;
  dtan := tan;
  d_of_f := fun x => x;
  f_of_d := fun x => x
|}.

(** ** Three claims as they are worded

    For the comparison with what the program does. *)

(** The origin is outside the sphere: the radius is below the distance
    from the origin to the centre, as the program's binary32 computes
    it. *)
Definition outside_sphere (s : @Sphere IEEE_basic) (orig : @Vec3f IEEE_basic)
  : bool :=
  (radius s <? norm (vsub orig (center s)))%fl.

(** The claim as worded, on the program's binary32: from an origin
    outside the sphere, the ray whose direction is the unit vector
    toward the centre is hit at the distance |orig - center| - radius. *)
Definition aimed_at_centre_hits : Prop :=
  forall (s : @Sphere IEEE_basic) (orig : @Vec3f IEEE_basic)
         (t0_in : @flt IEEE_basic),
    outside_sphere s orig = true ->
    ray_intersect s orig (normalize (vsub (center s) orig)) t0_in
    = (true, (norm (vsub orig (center s)) - radius s)%fl).

(** The claim as worded, on the program's binary32: from an origin
    outside the sphere, the ray whose direction is the unit vector away
    from the centre is not hit. *)
Definition aimed_away_misses : Prop :=
  forall (s : @Sphere IEEE_basic) (orig : @Vec3f IEEE_basic)
         (t0_in : @flt IEEE_basic),
    outside_sphere s orig = true ->
    fst (ray_intersect s orig (normalize (vsub orig (center s))) t0_in) = false.

(** The tile colour as the claim words it: the parity of
    floor(0.5 x + 1000) + floor(0.5 z), even giving the light tile and odd
    the darker one, dimmed by 0.3. *)
Definition checker_color_claimed (hit : @Vec3f IEEE_basic) : @Vec3f IEEE_basic :=
  vscale_d
    (if Z.even (IEEE754.SFfloor (d_lit 5 1 * d_of_f (vx hit) + d_of_int 1000)%db
                + IEEE754.SFfloor (d_lit 5 1 * d_of_f (vz hit))%db)
     then tile_white else tile_orange)
    (d_lit 3 1).

(** The claim as worded: whatever the buffer holds before, after the
    loops the result of pixel (i, j) is at the row-major index of the
    downsampled grid, i + j * (width / scale). *)
Definition downsampled_row_major : Prop :=
  forall (A : Arith) (fuel : nat) (spheres : list Sphere) (lights : list Light)
         (scale maxDepth : Z) (fb0 fb : list Vec3f),
    1 <= scale ->
    length fb0 = Z.to_nat (Z.quot (width * height) scale) ->
    fill_framebuffer fuel spheres lights scale maxDepth fb0 = Done fb ->
    forall i j, 0 <= i < Z.quot width scale -> 0 <= j < Z.quot height scale ->
      exists c calls,
        cast_ray fuel camera
                 (pixel_dir i j (Z.quot width scale) (Z.quot height scale))
                 spheres lights 0 maxDepth = Some (c, calls)
        /\ fb !! Z.to_nat (i + j * Z.quot width scale) = Some c.

(** ** Laws of the comparison

    What the proofs below need of [<] on float: it is irreflexive and
    transitive.  Both hold in the two instances (in IEEE-754 a comparison
    with a NaN is false). *)
Class ArithLaws (A : Arith) : Prop := {
  fltb_irrefl : forall x : flt, (x <? x)%fl = false;
  fltb_trans : forall x y z : flt,
    (x <? y)%fl = true -> (y <? z)%fl = true -> (x <? z)%fl = true
}.

(** * Properties *)

(** ** The comparison of IEEE-754 values *)

Ltac key_intro :=
  eexists _, _; split; [reflexivity | split; [reflexivity | cbn; lia]].

Ltac key_elim :=
  let kx := fresh "kx" in let ky := fresh "ky" in
  let Hx := fresh "Hx" in let Hy := fresh "Hy" in let H := fresh "H" in
  intros (kx & ky & Hx & Hy & H); try discriminate;
  injection Hx as <-; injection Hy as <-; cbn in H; lia.

Lemma SFltb_key x y :
  SFltb x y = true <->
  exists kx ky, IEEE754.key x = Some kx /\ IEEE754.key y = Some ky
                /\ IEEE754.lex_lt kx ky.
Proof.
  unfold SFltb.
  destruct x as [sx|sx| |sx mx ex], y as [sy|sy| |sy my ey];
    try destruct sx; try destruct sy; cbn [SFcompare IEEE754.key];
    try change (Pos.compare_cont Eq mx my) with (Pos.compare mx my);
    try (destruct (Z.compare_spec ex ey);
         [destruct (Pos.compare_spec mx my) | | ]; cbn [CompOpp]);
    (split; [first [discriminate | intros _; key_intro]
            | first [reflexivity | key_elim]]).
Qed.

Lemma SFltb_irrefl x : SFltb x x = false.
Proof.
  destruct (SFltb x x) eqn:E; [|reflexivity].
  apply SFltb_key in E. destruct E as (kx & ky & Hx & Hy & H).
  rewrite Hx in Hy. injection Hy as <-.
  destruct kx as [[a b] c]. cbn in H. lia.
Qed.

Lemma SFltb_trans x y z :
  SFltb x y = true -> SFltb y z = true -> SFltb x z = true.
Proof.
  rewrite !SFltb_key.
  intros (kx & ky & Hx & Hy & H1) (ky' & kz & Hy' & Hz & H2).
  rewrite Hy in Hy'. injection Hy' as <-.
  exists kx, kz. split; [assumption|]. split; [assumption|].
  destruct kx as [[a1 a2] a3], ky as [[b1 b2] b3], kz as [[c1 c2] c3].
  cbn in *. lia.
Qed.

#[export] Instance IEEE_laws powf tan : ArithLaws (IEEE powf tan).
Proof.
  split; cbn.
  - apply SFltb_irrefl.
  - apply SFltb_trans.
Qed.

(** ** The comparison of real numbers *)

Lemma Rltb_true a b : ExactR.Rltb a b = true <-> (a < b)%R.
Proof.
  unfold ExactR.Rltb.
  destruct (Rlt_dec a b); split; intros; try assumption; try reflexivity;
    try discriminate; contradiction.
Qed.

Lemma Rltb_false a b : ExactR.Rltb a b = false <-> (b <= a)%R.
Proof.
  unfold ExactR.Rltb.
  destruct (Rlt_dec a b); split; intros; try reflexivity; try discriminate; lra.
Qed.

#[export] Instance Exact_laws : ArithLaws Exact.
Proof.
  split; cbn.
  - intros x. apply Rltb_false. lra.
  - intros x y z. rewrite !Rltb_true. lra.
Qed.

(** ** cast_ray: the base case *)

(** For a [maxDepth] that is a non-negative int the test of cast_ray is
    the comparison of the two numbers. *)
Lemma depth_test_nonneg (depth maxDepth : Z) :
  0 <= maxDepth < 2 ^ 31 ->
  (to_size_t maxDepth <? depth) = (maxDepth <? depth).
Proof.
  intros H. unfold to_size_t. rewrite Z.mod_small; [reflexivity|].
  split; [lia|]. apply Z.lt_trans with (2 ^ 31); [lia | reflexivity].
Qed.

(** C1. cast_ray returns exactly the background colour, having made no
    call of cast_ray, whenever its test [depth > maxDepth] holds (for a
    non-negative [maxDepth]: whenever depth is greater than maxDepth) or
    scene_intersect reports no hit.  One level of call stack is enough,
    whatever the origin, the direction, the spheres and the lights. *)
Theorem cast_ray_background {A : Arith} (fuel : nat) (orig dir : Vec3f)
  (spheres : list Sphere) (lights : list Light) (depth maxDepth : Z) :
  (to_size_t maxDepth <? depth) = true
  \/ (0 <= maxDepth < 2 ^ 31 /\ maxDepth < depth)
  \/ fst (scene_intersect orig dir spheres Outputs_default) = false ->
  cast_ray (S fuel) orig dir spheres lights depth maxDepth
  = Some (background, O).
Proof.
  intros H. cbn [cast_ray].
  destruct (to_size_t maxDepth <? depth) eqn:Hd; [reflexivity|].
  destruct H as [H | [[Hm Hlt] | H]].
  - discriminate H.
  - rewrite depth_test_nonneg in Hd by assumption. lia.
  - destruct (scene_intersect orig dir spheres Outputs_default) as [found out].
    cbn in H. subst found. reflexivity.
Qed.

Lemma cast_ray_background_witness :
  cast_ray (A := Exact) 1 camera camera [] [] 5 4 = Some (background, O)
  /\ cast_ray (A := IEEE_basic) 1 camera
       (mkVec3f (f_of_int 0) (f_of_int 0) (f_of_int (-1))) [] [] 0 4
     = Some (background, O).
Proof.
  split.
  - apply (cast_ray_background (A := Exact) 0 camera camera [] [] 5 4).
    right. left. lia.
  - apply (cast_ray_background (A := IEEE_basic) 0). right. right.
    vm_compute. reflexivity.
Defined.

(** ** Sphere::ray_intersect *)

(** The four ways through ray_intersect, in any arithmetic. *)
Lemma ray_intersect_cases {A : Arith} (s : Sphere) (orig dir : Vec3f) (t0_in : flt) :
  let L := vsub (center s) orig in
  let tca := vdot L dir in
  let d2 := (vdot L L - tca * tca)%fl in
  let radius2 := (radius s * radius s)%fl in
  let thc := fsqrt (radius2 - d2)%fl in
  (fgtb d2 radius2 = true -> ray_intersect s orig dir t0_in = (false, t0_in))
  /\ (fgtb d2 radius2 = false -> (tca - thc <? f_of_int 0)%fl = false ->
      ray_intersect s orig dir t0_in = (true, (tca - thc)%fl))
  /\ (fgtb d2 radius2 = false -> (tca - thc <? f_of_int 0)%fl = true ->
      (tca + thc <? f_of_int 0)%fl = false ->
      ray_intersect s orig dir t0_in = (true, (tca + thc)%fl))
  /\ (fgtb d2 radius2 = false -> (tca - thc <? f_of_int 0)%fl = true ->
      (tca + thc <? f_of_int 0)%fl = true ->
      ray_intersect s orig dir t0_in = (false, (tca + thc)%fl)).
Proof.
  intros L tca d2 radius2 thc. unfold ray_intersect.
  fold L. fold tca. fold d2. fold radius2. fold thc.
  repeat split.
  - intros ->. reflexivity.
  - intros -> H. rewrite H. rewrite H. reflexivity.
  - intros -> H1 H2. rewrite H1. rewrite H2. reflexivity.
  - intros -> H1 H2. rewrite H1. rewrite H2. reflexivity.
Qed.

Section ExactGeometry.
Local Existing Instance Exact.
Local Open Scope R_scope.

Lemma norm_sqr (v : Vec3f) : norm v * norm v = vdot v v.
Proof.
  unfold norm. cbn. apply sqrt_sqrt.
  destruct v as [a b c]; cbn. nra.
Qed.

Lemma norm_vsub_sym (a b : Vec3f) : norm (vsub a b) = norm (vsub b a).
Proof.
  unfold norm. cbn. f_equal.
  destruct a as [a1 a2 a3], b as [b1 b2 b3]; cbn. ring.
Qed.

Lemma vdot_normalize (v : Vec3f) : 0 < norm v -> vdot v (normalize v) = norm v.
Proof.
  intros Hn. pose proof (norm_sqr v) as Hs.
  destruct v as [a b c]. cbn in *.
  set (n := sqrt _) in *.
  replace (a * (a * (1 / n)) + b * (b * (1 / n)) + c * (c * (1 / n)))
    with ((a * a + b * b + c * c) / n) by (field; lra).
  rewrite <- Hs. field. lra.
Qed.

Lemma vdot_normalize_opposite (a b : Vec3f) :
  0 < norm (vsub a b) ->
  vdot (vsub b a) (normalize (vsub a b)) = - norm (vsub a b).
Proof.
  intros Hn. rewrite <- (vdot_normalize (vsub a b) Hn).
  destruct a as [a1 a2 a3], b as [b1 b2 b3]. cbn. ring.
Qed.

Lemma vdot_vsub_sym (a b : Vec3f) :
  vdot (vsub b a) (vsub b a) = vdot (vsub a b) (vsub a b).
Proof. destruct a as [a1 a2 a3], b as [b1 b2 b3]. cbn. ring. Qed.

(** In exact arithmetic: from an origin outside the sphere, a ray whose
    direction is the unit vector toward the centre hits at distance
    |origin - center| - radius, and a ray whose direction is the unit
    vector away from the centre does not hit.  In general: no hit when d2
    exceeds the squared radius; otherwise the distance is tca - thc, or
    tca + thc when tca - thc is negative, and no hit when both are
    negative. *)
Lemma ray_intersect_exact (s : Sphere) (orig dir : Vec3f) (t0_in : R) :
  let L := vsub (center s) orig in
  let tca := vdot L dir in
  let d2 := vdot L L - tca * tca in
  let thc := sqrt (radius s * radius s - d2) in
  (0 <= radius s < norm (vsub orig (center s)) ->
   dir = normalize (vsub (center s) orig) ->
   ray_intersect s orig dir t0_in
   = (true, norm (vsub orig (center s)) - radius s))
  /\ (0 <= radius s < norm (vsub orig (center s)) ->
      dir = normalize (vsub orig (center s)) ->
      fst (ray_intersect s orig dir t0_in) = false)
  /\ (radius s * radius s < d2 ->
      fst (ray_intersect s orig dir t0_in) = false)
  /\ (d2 <= radius s * radius s -> 0 <= tca - thc ->
      ray_intersect s orig dir t0_in = (true, tca - thc))
  /\ (d2 <= radius s * radius s -> tca - thc < 0 -> 0 <= tca + thc ->
      ray_intersect s orig dir t0_in = (true, tca + thc))
  /\ (d2 <= radius s * radius s -> tca - thc < 0 -> tca + thc < 0 ->
      fst (ray_intersect s orig dir t0_in) = false).
Proof.
  intros L tca d2 thc.
  destruct (ray_intersect_cases s orig dir t0_in) as (Hfar & Hnear & Hback & Hnone).
  fold L tca d2 thc in Hfar, Hnear, Hback, Hnone. cbn in Hfar, Hnear, Hback, Hnone.
  unfold fgtb in *. cbn in Hfar, Hnear, Hback, Hnone.
  fold L tca d2 thc in Hfar, Hnear, Hback, Hnone.
  assert (Hgen3 : radius s * radius s < d2 -> fst (ray_intersect s orig dir t0_in) = false).
  { intros H. rewrite Hfar; [reflexivity|]. apply Rltb_true. exact H. }
  assert (Hgen4 : d2 <= radius s * radius s -> 0 <= tca - thc ->
                  ray_intersect s orig dir t0_in = (true, tca - thc)).
  { intros H1 H2. apply Hnear; apply Rltb_false; assumption. }
  assert (Hgen5 : d2 <= radius s * radius s -> tca - thc < 0 -> 0 <= tca + thc ->
                  ray_intersect s orig dir t0_in = (true, tca + thc)).
  { intros H1 H2 H3. apply Hback; [apply Rltb_false|apply Rltb_true|apply Rltb_false]; assumption. }
  assert (Hgen6 : d2 <= radius s * radius s -> tca - thc < 0 -> tca + thc < 0 ->
                  fst (ray_intersect s orig dir t0_in) = false).
  { intros H1 H2 H3. rewrite Hnone; [reflexivity|apply Rltb_false|apply Rltb_true|apply Rltb_true]; assumption. }
  split; [|split; [|repeat split; assumption]].
  - (* toward the centre *)
    intros [Hr Hout] Hdir.
    rewrite norm_vsub_sym in Hout |- *. fold L in Hout |- *.
    assert (Htca : tca = norm L).
    { unfold tca. rewrite Hdir. apply vdot_normalize. lra. }
    assert (Hd2 : d2 = 0).
    { unfold d2. rewrite Htca, norm_sqr. lra. }
    assert (Hthc : thc = radius s).
    { unfold thc. rewrite Hd2, Rminus_0_r. apply sqrt_square. exact Hr. }
    rewrite Hgen4; [rewrite Htca, Hthc; reflexivity| |].
    + rewrite Hd2. nra.
    + rewrite Htca, Hthc. lra.
  - (* away from the centre *)
    intros [Hr Hout] Hdir.
    assert (Htca : tca = - norm (vsub orig (center s))).
    { unfold tca, L. rewrite Hdir. apply vdot_normalize_opposite. lra. }
    assert (Hd2 : d2 = 0).
    { unfold d2, L. rewrite Htca, vdot_vsub_sym, <- norm_sqr. lra. }
    assert (Hthc : thc = radius s).
    { unfold thc. rewrite Hd2, Rminus_0_r. apply sqrt_square. exact Hr. }
    apply Hgen6.
    + rewrite Hd2. nra.
    + rewrite Htca, Hthc. lra.
    + rewrite Htca, Hthc. lra.
Qed.

(** C2 (amended). In any arithmetic, the program's binary32 included,
    ray_intersect reports no hit when the computed d2 exceeds the
    computed squared radius; otherwise the distance is the near candidate
    tca - thc, or tca + thc when tca - thc is negative, and there is no
    hit when both are negative (the comparisons are those of float, on
    the values as computed).  In exact arithmetic, from an origin outside
    the sphere, the ray whose direction is the unit vector toward the
    centre is hit at the distance |origin - center| - radius, and the ray
    whose direction is the unit vector away from the centre is not hit;
    in binary32 the rounding of the direction, of tca and of d2 can turn
    either answer around. *)
Theorem ray_intersect_candidates :
  (forall (A : Arith) (s : @Sphere A) (orig dir : @Vec3f A) (t0_in : @flt A),
     let L := vsub (center s) orig in
     let tca := vdot L dir in
     let d2 := (vdot L L - tca * tca)%fl in
     let radius2 := (radius s * radius s)%fl in
     let thc := fsqrt (radius2 - d2)%fl in
     (fgtb d2 radius2 = true -> ray_intersect s orig dir t0_in = (false, t0_in))
     /\ (fgtb d2 radius2 = false -> (tca - thc <? f_of_int 0)%fl = false ->
         ray_intersect s orig dir t0_in = (true, (tca - thc)%fl))
     /\ (fgtb d2 radius2 = false -> (tca - thc <? f_of_int 0)%fl = true ->
         (tca + thc <? f_of_int 0)%fl = false ->
         ray_intersect s orig dir t0_in = (true, (tca + thc)%fl))
     /\ (fgtb d2 radius2 = false -> (tca - thc <? f_of_int 0)%fl = true ->
         (tca + thc <? f_of_int 0)%fl = true ->
         ray_intersect s orig dir t0_in = (false, (tca + thc)%fl)))
  /\ (forall (s : @Sphere Exact) (orig : @Vec3f Exact) (t0_in : R),
        0 <= radius s < norm (vsub orig (center s)) ->
        ray_intersect s orig (normalize (vsub (center s) orig)) t0_in
        = (true, norm (vsub orig (center s)) - radius s)
        /\ fst (ray_intersect s orig (normalize (vsub orig (center s))) t0_in)
           = false).
Proof.
  split.
  - intros A s orig dir t0_in. exact (ray_intersect_cases s orig dir t0_in).
  - intros s orig t0_in Hout. split.
    + exact (proj1 (ray_intersect_exact s orig _ t0_in) Hout eq_refl).
    + exact (proj1 (proj2 (ray_intersect_exact s orig _ t0_in)) Hout eq_refl).
Qed.

Lemma norm_axis_16 :
  norm (vsub (mkVec3f 0 0 0) (mkVec3f 0 0 (-16))) = 16.
Proof.
  unfold norm. cbn.
  replace ((0 - 0) * (0 - 0) + (0 - 0) * (0 - 0) + (0 - -16) * (0 - -16))
    with (16 * 16) by lra.
  apply sqrt_square. lra.
Qed.

Lemma ray_intersect_candidates_witness :
  let s := mkSphere (mkVec3f 0 0 (-16)) 2 MMaterial_default in
  let orig := mkVec3f 0 0 0 in
  ray_intersect s orig (normalize (vsub (center s) orig)) 0
  = (true, norm (vsub orig (center s)) - radius s)
  /\ fst (ray_intersect s orig (normalize (vsub orig (center s))) 0) = false.
Proof.
  intros s orig.
  refine (proj2 ray_intersect_candidates s orig 0 _).
  unfold s, orig. cbn [center radius]. rewrite norm_axis_16. lra.
Defined.

End ExactGeometry.

(** The same ray in binary32: sphere of radius 2 centred at (0,0,-16),
    seen from the origin along -z; the distance is 14. *)
Example ray_intersect_binary32_axis :
  let v := fun a b c : Z =>
    mkVec3f (A := IEEE_basic) (f_of_int a) (f_of_int b) (f_of_int c) in
  ray_intersect (mkSphere (v 0 0 (-16)) (f_of_int 2) MMaterial_default)
                (v 0 0 0) (v 0 0 (-1)) (f_of_int 0)
  = (true, f_of_int 14).
Proof. vm_compute. reflexivity. Qed.

(** In binary32, seen from the origin, the sphere of radius 1/4 centred
    at (946, -596, -493) is missed by the ray sent toward its centre: with
    the rounded direction tca * tca is computed as 1493180.75 where L * L
    is 1493181, so the computed d2 is 0.25, above the squared radius
    0.0625. *)
Example ray_intersect_binary32_far :
  let v := fun a b c : Z =>
    mkVec3f (A := IEEE_basic) (f_of_int a) (f_of_int b) (f_of_int c) in
  let s := mkSphere (v 946 (-596) (-493)) (f_of_int 1 / f_of_int 4)%fl
                    MMaterial_default in
  outside_sphere s (v 0 0 0) = true
  /\ ray_intersect s (v 0 0 0) (normalize (vsub (center s) (v 0 0 0)))
                   (f_of_int 0)
     = (false, f_of_int 0).
Proof. split; vm_compute; reflexivity. Qed.

(** In binary32, seen from the origin, the sphere centred at
    (9/8, 11/4, 61/8) of radius 8580962 / 2^20, which is below the
    distance to the centre (8580962.61 / 2^20, computed as
    8580963 / 2^20), is hit at distance 0 by the ray sent away from its
    centre: tca is computed as -8580962 / 2^20 and thc as 8580962 / 2^20,
    so tca + thc is 0, which is not negative. *)
Example ray_intersect_binary32_grazing :
  let q := fun a b : Z => (@f_of_int IEEE_basic a / f_of_int b)%fl in
  let s := mkSphere (mkVec3f (q 9 8) (q 11 4) (q 61 8)) (q 8580962 (2 ^ 20))
                    MMaterial_default in
  let orig := mkVec3f (A := IEEE_basic) (f_of_int 0) (f_of_int 0) (f_of_int 0) in
  outside_sphere s orig = true
  /\ ray_intersect s orig (normalize (vsub orig (center s))) (f_of_int 0)
     = (true, f_of_int 0).
Proof. split; vm_compute; reflexivity. Qed.

(** C2 as worded fails on the program's binary32: a ray sent toward the
    centre from outside can miss, and a ray sent away from the centre
    from outside can hit. *)
Lemma ray_intersect_directed_fails :
  ~ aimed_at_centre_hits /\ ~ aimed_away_misses.
Proof.
  split; intros Hclaim.
  - destruct ray_intersect_binary32_far as [Hout Hmiss].
    cbv zeta in Hout, Hmiss.
    rewrite (Hclaim _ _ (f_of_int 0) Hout) in Hmiss. discriminate Hmiss.
  - destruct ray_intersect_binary32_grazing as [Hout Hhit].
    cbv zeta in Hout, Hhit.
    pose proof (Hclaim _ _ (f_of_int 0) Hout) as Hmiss.
    rewrite Hhit in Hmiss. discriminate Hmiss.
Qed.

(** ** refract and the zero vector *)

(** Whenever the [k] of refract is negative, in any arithmetic, the
    result is the zero vector. *)
Lemma refract_zero {A : Arith} (I N : Vec3f) (ri : flt) :
  (snd (refract_terms I N ri) <? f_of_int 0)%fl = true ->
  refract I N ri = mkVec3f (f_of_int 0) (f_of_int 0) (f_of_int 0).
Proof.
  unfold refract. destruct (refract_terms I N ri) as [[[cosi eta] n] k].
  cbn [snd]. intros ->. reflexivity.
Qed.


(** One level of cast_ray. *)
Lemma cast_ray_unfold {A : Arith} (fuel : nat) (orig dir : Vec3f)
  (spheres : list Sphere) (lights : list Light) (depth maxDepth : Z) :
  cast_ray (S fuel) orig dir spheres lights depth maxDepth =
    if to_size_t maxDepth <? depth then Some (background, O) else
    let '(found, out) := scene_intersect orig dir spheres Outputs_default in
    if negb found then Some (background, O) else
    let point := o_hit out in
    let N := o_N out in
    let mat := o_material out in
    let reflect_dir := normalize (reflect dir N) in
    let refract_dir := normalize (refract dir N (refractive_index mat)) in
    match cast_ray fuel (offset_orig reflect_dir N point) reflect_dir spheres
                   lights (to_size_t (depth + 1)) maxDepth with
    | None => None
    | Some (reflect_color, calls1) =>
      match cast_ray fuel (offset_orig refract_dir N point) refract_dir spheres
                     lights (to_size_t (depth + 1)) maxDepth with
      | None => None
      | Some (refract_color, calls2) =>
        let '(diffuse_light_intensity, specular_light_intensity) :=
          lights_loop spheres lights dir point N mat in
        Some (shade mat diffuse_light_intensity specular_light_intensity
                    reflect_color refract_color,
              (2 + calls1 + calls2)%nat)
      end
    end.
Proof. reflexivity. Qed.

(** Two vectors with the same components are equal. *)
Lemma Vec3f_ext {A : Arith} (a b : Vec3f) :
  vx a = vx b -> vy a = vy b -> vz a = vz b -> a = b.
Proof. destruct a, b. cbn. intros -> -> ->. reflexivity. Qed.

Section NaN.
Variables (libm_powf : spec_float -> spec_float -> spec_float)
          (libm_tan : spec_float -> spec_float).
Local Instance IEEE_here : Arith := IEEE libm_powf libm_tan.

Local Abbreviation NaN3 := (IEEE_NaN3 libm_powf libm_tan).

Lemma SFmul_nan_r p e x : SFmul p e x S754_nan = S754_nan.
Proof. destruct x; reflexivity. Qed.

Lemma SFadd_nan_r p e x : SFadd p e x S754_nan = S754_nan.
Proof. destruct x; reflexivity. Qed.

Lemma SFsub_nan_r p e x : SFsub p e x S754_nan = S754_nan.
Proof. destruct x; reflexivity. Qed.

Lemma SFltb_nan_r x : SFltb x S754_nan = false.
Proof. destruct x; reflexivity. Qed.

Lemma SFltb_nan_l x : SFltb S754_nan x = false.
Proof. reflexivity. Qed.

(** Normalizing the zero vector divides by its norm, zero: each
    component is 0 * (1 / 0), a NaN. *)
Lemma normalize_zero :
  normalize (mkVec3f (f_of_int 0) (f_of_int 0) (f_of_int 0)) = NaN3.
Proof. apply Vec3f_ext; vm_compute; reflexivity. Qed.

Lemma vdot_nan_r (v : Vec3f) : vdot v NaN3 = S754_nan.
Proof. unfold vdot. cbn. rewrite !SFmul_nan_r. reflexivity. Qed.

(** Against a NaN direction ray_intersect answers true with a NaN
    distance. *)
Lemma ray_intersect_nan (s : Sphere) (orig : Vec3f) (t0_in : flt) :
  ray_intersect s orig NaN3 t0_in = (true, S754_nan).
Proof.
  unfold ray_intersect. rewrite vdot_nan_r. unfold fgtb. cbn.
  rewrite ?SFsub_nan_r, ?SFltb_nan_r. cbn. rewrite ?SFsub_nan_r. reflexivity.
Qed.

Lemma spheres_loop_nan (orig : Vec3f) (spheres : list Sphere) (st : flt * Outputs) :
  fold_left (sphere_step orig NaN3) spheres st = st.
Proof.
  revert st. induction spheres as [|s spheres IH]; intros st; [reflexivity|].
  cbn [fold_left]. rewrite <- (IH st) at 2. f_equal.
  unfold sphere_step. destruct st as [spheres_dist out].
  rewrite ray_intersect_nan. cbn [andb]. unfold fltb; cbn.
  reflexivity.
Qed.

(** A ray with a NaN direction misses the whole scene. *)
Lemma scene_intersect_nan (orig : Vec3f) (spheres : list Sphere) (out : Outputs) :
  scene_intersect orig NaN3 spheres out = (false, out).
Proof.
  unfold scene_intersect, spheres_loop. rewrite spheres_loop_nan.
  reflexivity.
Qed.

(** cast_ray on a ray with a NaN direction returns the background colour
    and calls nothing. *)
Lemma cast_ray_nan (fuel : nat) (orig : Vec3f) (spheres : list Sphere)
  (lights : list Light) (depth maxDepth : Z) :
  cast_ray (S fuel) orig NaN3 spheres lights depth maxDepth
  = Some (background, O).
Proof.
  rewrite cast_ray_unfold.
  destruct (to_size_t maxDepth <? depth); [reflexivity|].
  rewrite scene_intersect_nan. reflexivity.
Qed.

(** C3. When the [k] of refract is negative, refract returns the zero
    vector; cast_ray normalizes it (to a vector of NaNs), and the
    recursive call on that direction returns the background colour
    without a further call, for any origin and scene.  The colour
    cast_ray then returns is the combination in which the refracted
    colour is the background colour, none of whose components is a NaN. *)
Theorem cast_ray_total_internal_reflection (fuel : nat) (orig dir : Vec3f)
  (spheres : list Sphere) (lights : list Light) (depth maxDepth : Z) :
  let out := snd (scene_intersect orig dir spheres Outputs_default) in
  (to_size_t maxDepth <? depth) = false ->
  fst (scene_intersect orig dir spheres Outputs_default) = true ->
  (snd (refract_terms dir (o_N out) (refractive_index (o_material out)))
   <? f_of_int 0)%fl = true ->
  let N := o_N out in
  let point := o_hit out in
  let mat := o_material out in
  let reflect_dir := normalize (reflect dir N) in
  let refract_dir := normalize (refract dir N (refractive_index mat)) in
  refract dir N (refractive_index mat)
  = mkVec3f (f_of_int 0) (f_of_int 0) (f_of_int 0)
  /\ cast_ray (S fuel) (offset_orig refract_dir N point) refract_dir spheres
               lights (to_size_t (depth + 1)) maxDepth
     = Some (background, O)
  /\ cast_ray (S (S fuel)) orig dir spheres lights depth maxDepth
     = match cast_ray (S fuel) (offset_orig reflect_dir N point) reflect_dir
                      spheres lights (to_size_t (depth + 1)) maxDepth with
       | None => None
       | Some (reflect_color, calls1) =>
         let '(diffuse_light_intensity, specular_light_intensity) :=
           lights_loop spheres lights dir point N mat in
         Some (shade mat diffuse_light_intensity specular_light_intensity
                     reflect_color background,
               (2 + calls1 + 0)%nat)
       end
  /\ vx background <> S754_nan /\ vy background <> S754_nan
  /\ vz background <> S754_nan.
Proof.
  intros out Hdepth Hfound Hk N point mat reflect_dir refract_dir.
  assert (Hhit : scene_intersect orig dir spheres Outputs_default = (true, out)).
  { unfold out. destruct (scene_intersect orig dir spheres Outputs_default).
    cbn in Hfound. subst. reflexivity. }
  assert (Hzero : refract dir N (refractive_index mat)
                  = mkVec3f (f_of_int 0) (f_of_int 0) (f_of_int 0)).
  { apply refract_zero. exact Hk. }
  assert (Hdir : refract_dir = NaN3).
  { unfold refract_dir. rewrite Hzero. apply normalize_zero. }
  assert (Hcall : cast_ray (S fuel) (offset_orig refract_dir N point)
                    refract_dir spheres lights (to_size_t (depth + 1)) maxDepth
                  = Some (background, O)).
  { rewrite Hdir. apply cast_ray_nan. }
  split; [exact Hzero|]. split; [exact Hcall|]. split.
  - rewrite (cast_ray_unfold (S fuel)). rewrite Hdepth, Hhit.
    cbn [negb]. cbv zeta. fold N point mat. fold reflect_dir. fold refract_dir.
    rewrite Hcall.
    destruct (cast_ray (S fuel) (offset_orig reflect_dir N point) reflect_dir
                spheres lights (to_size_t (depth + 1)) maxDepth)
      as [[reflect_color calls1]|]; reflexivity.
  - repeat split; vm_compute; discriminate.
Qed.

End NaN.


Lemma cast_ray_total_internal_reflection_witness :
  let f := @f_of_int IEEE_basic in
  let quarter := @f_of_d IEEE_basic (d_lit 25 2) in
  let mat := mkMaterial quarter (mkVec4f (f 0) (f 0) (f 0) (f 1))
                        (mkVec3f (f 1) (f 1) (f 1)) (f 10) in
  let s := mkSphere (mkVec3f (f 0) (f 0) (f (-16))) (f 2) mat in
  let orig := mkVec3f (f 1) (f 0) (f 0) in
  let dir := mkVec3f (f 0) (f 0) (f (-1)) in
  let out := snd (scene_intersect orig dir [s] Outputs_default) in
  let refract_dir :=
    normalize (refract dir (o_N out) (refractive_index (o_material out))) in
  refract dir (o_N out) (refractive_index (o_material out))
  = mkVec3f (f 0) (f 0) (f 0)
  /\ cast_ray 1 (offset_orig refract_dir (o_N out) (o_hit out)) refract_dir
               [s] [] (to_size_t (0 + 1)) 4
     = Some (background, O).
Proof.
  intros f quarter mat s orig dir out refract_dir.
  pose proof (cast_ray_total_internal_reflection
                (fun _ _ => IEEE754.NaN) (fun _ => IEEE754.NaN)
                0 orig dir [s] [] 0 4) as H.
  cbv zeta in H.
  assert (H1 : (to_size_t 4 <? 0) = false) by reflexivity.
  assert (H2 : fst (scene_intersect orig dir [s] Outputs_default) = true)
    by (vm_compute; reflexivity).
  assert (H3 : (snd (refract_terms dir (o_N out)
                       (refractive_index (o_material out)))
                <? f_of_int 0)%fl = true)
    by (vm_compute; reflexivity).
  destruct (H H1 H2 H3) as (Ha & Hb & _).
  split; [exact Ha | exact Hb].
Defined.

(** ** cast_ray: the shadow test *)

(** C4. In the loop over the lights, a light is skipped (both
    intensities are left as they are) exactly when the shadow ray, cast
    from the origin offset along the normal toward the light, hits the
    scene at a distance strictly smaller than the distance to the light;
    otherwise the diffuse and the specular term of the light are both
    added.  A light at exactly the distance of the hit is not skipped. *)
Theorem light_step_shadow {A : Arith} {laws : ArithLaws A}
  (spheres : list Sphere) (dir point N : Vec3f) (mat : MMaterial)
  (acc : flt * flt) (l : Light) :
  let light_dir := normalize (vsub (position l) point) in
  let light_distance := norm (vsub (position l) point) in
  let shadow_orig := offset_orig light_dir N point in
  let hit := scene_intersect shadow_orig light_dir spheres Outputs_default in
  let hit_distance := norm (vsub (o_hit (snd hit)) shadow_orig) in
  let lit :=
    ((fst acc + intensity l * fmax (f_of_int 0) (vdot light_dir N))%fl,
     (snd acc
      + powf (fmax (f_of_int 0) (vdot (vneg (reflect (vneg light_dir) N)) dir))
             (specular_exponent mat) * intensity l)%fl) in
  (fst hit = true /\ (hit_distance <? light_distance)%fl = true ->
   light_step spheres dir point N mat acc l = acc)
  /\ (~ (fst hit = true /\ (hit_distance <? light_distance)%fl = true) ->
      light_step spheres dir point N mat acc l = lit)
  /\ (hit_distance = light_distance ->
      light_step spheres dir point N mat acc l = lit).
Proof.
  intros light_dir light_distance shadow_orig hit hit_distance lit.
  assert (Hstep : light_step spheres dir point N mat acc l
                  = if fst hit && (hit_distance <? light_distance)%fl
                    then acc else lit).
  { unfold light_step, occluded. destruct acc as [d s].
    fold light_dir light_distance. fold shadow_orig. fold hit.
    unfold hit_distance. destruct hit as [found out]. reflexivity. }
  assert (Hskip : ~ (fst hit = true /\ (hit_distance <? light_distance)%fl = true) ->
                  light_step spheres dir point N mat acc l = lit).
  { intros Hn. rewrite Hstep.
    destruct (fst hit); [|reflexivity].
    destruct (hit_distance <? light_distance)%fl; [|reflexivity].
    exfalso. apply Hn. split; reflexivity. }
  split; [|split].
  - intros [Hf Hlt]. rewrite Hstep, Hf, Hlt. reflexivity.
  - exact Hskip.
  - intros Heq. apply Hskip. intros [_ Hlt].
    rewrite Heq, fltb_irrefl in Hlt. discriminate Hlt.
Qed.

Lemma light_step_shadow_witness :
  let f := @f_of_int IEEE_basic in
  let s := mkSphere (mkVec3f (f 0) (f 0) (f (-16))) (f 2) MMaterial_default in
  let l := mkLight (mkVec3f (f 0) (f 0) (f 0)) (f 1) in
  let point := mkVec3f (f 0) (f 0) (f (-20)) in
  let N := mkVec3f (f 0) (f 0) (f 1) in
  let dir := mkVec3f (f 0) (f 0) (f (-1)) in
  light_step [s] dir point N MMaterial_default (f 3, f 5) l = (f 3, f 5).
Proof.
  intros f s l point N dir.
  refine (proj1 (light_step_shadow [s] dir point N MMaterial_default
                   (f 3, f 5) l) _).
  split; vm_compute; reflexivity.
Defined.

(** ** scene_intersect: the spheres and the plane *)

Section SceneIntersect.
Context {A : Arith}.

(** The loop over the spheres from any state: either no sphere is
    recorded and the state is unchanged, or the state is that of a sphere
    of the list hit at a distance below the initial one, and no sphere of
    the list is hit at a smaller distance. *)
Lemma spheres_fold_nearest {laws : ArithLaws A} (orig dir : Vec3f)
  (spheres : list Sphere) (sd0 : flt) (out0 : Outputs) :
  let r := fold_left (sphere_step orig dir) spheres (sd0, out0) in
  (r = (sd0, out0)
   /\ forall s d, In s spheres ->
        ray_intersect s orig dir (f_of_int 0) = (true, d) ->
        (d <? sd0)%fl = false)
  \/ (exists s, In s spheres
        /\ ray_intersect s orig dir (f_of_int 0) = (true, fst r)
        /\ (fst r <? sd0)%fl = true
        /\ snd r = sphere_outputs orig dir s (fst r)
        /\ forall s' d, In s' spheres ->
             ray_intersect s' orig dir (f_of_int 0) = (true, d) ->
             (d <? fst r)%fl = false).
Proof.
  revert sd0 out0.
  induction spheres as [|s rest IH]; intros sd0 out0; cbn zeta.
  - left. split; [reflexivity|]. intros s d [].
  - cbn [fold_left].
    destruct (ray_intersect s orig dir (f_of_int 0)) as [found di] eqn:Hs.
    assert (Hstep : sphere_step orig dir (sd0, out0) s
                    = if found && (di <? sd0)%fl
                      then (di, sphere_outputs orig dir s di) else (sd0, out0)).
    { unfold sphere_step. rewrite Hs. reflexivity. }
    rewrite Hstep. clear Hstep.
    destruct (found && (di <? sd0)%fl) eqn:Hrec.
    + apply andb_prop in Hrec. destruct Hrec as [-> Hlt].
      destruct (IH di (sphere_outputs orig dir s di))
        as [[Hr Hnone] | (s2 & Hin & Hhit & Hlt2 & Hout & Hmin)].
      * right. exists s. rewrite Hr. cbn [fst snd].
        split; [left; reflexivity|]. split; [exact Hs|].
        split; [exact Hlt|]. split; [reflexivity|].
        intros s' d [<- | Hin] Hd.
        -- rewrite Hs in Hd. injection Hd as <-. apply fltb_irrefl.
        -- exact (Hnone s' d Hin Hd).
      * set (r := fold_left _ _ _) in *.
        right. exists s2.
        split; [right; exact Hin|]. split; [exact Hhit|].
        split; [exact (fltb_trans _ _ _ Hlt2 Hlt)|]. split; [exact Hout|].
        intros s' d [<- | Hin'] Hd.
        -- rewrite Hs in Hd. injection Hd as <-.
           destruct (di <? fst r)%fl eqn:E; [|reflexivity].
           pose proof (fltb_trans _ _ _ Hlt2 E) as Habs.
           rewrite fltb_irrefl in Habs. discriminate Habs.
        -- exact (Hmin s' d Hin' Hd).
    + destruct (IH sd0 out0)
        as [[Hr Hnone] | (s2 & Hin & Hhit & Hlt2 & Hout & Hmin)].
      * left. split; [exact Hr|].
        intros s' d [<- | Hin] Hd.
        -- rewrite Hs in Hd. injection Hd as Hf Hdi. subst found d.
           exact Hrec.
        -- exact (Hnone s' d Hin Hd).
      * set (r := fold_left _ _ _) in *.
        right. exists s2.
        split; [right; exact Hin|]. split; [exact Hhit|].
        split; [exact Hlt2|]. split; [exact Hout|].
        intros s' d [<- | Hin'] Hd.
        -- rewrite Hs in Hd. injection Hd as Hf Hdi. subst found d.
           cbn [andb] in Hrec.
           destruct (di <? fst r)%fl eqn:E; [|reflexivity].
           rewrite (fltb_trans _ _ _ E Hlt2) in Hrec. discriminate Hrec.
        -- exact (Hmin s' d Hin' Hd).
Qed.

(** scene_intersect when the plane wins: the hit point and the normal are
    those of the plane, and of the material only [diffuse_color] is
    assigned. *)
Lemma scene_intersect_plane (orig dir : Vec3f) (spheres : list Sphere)
  (out0 : Outputs) :
  let loop := spheres_loop orig dir spheres out0 in
  let d := (- (vy orig + f_of_int 4) / vy dir)%fl in
  let pt := vadd orig (vscale dir d) in
  dgtb (d_of_f (fabs (vy dir))) (d_lit 1 3) = true ->
  plane_wins pt d (fst loop) = true ->
  scene_intersect orig dir spheres out0
  = ((fmin (fst loop) d <? f_of_int 1000)%fl,
     mkOutputs pt (mkVec3f (f_of_int 0) (f_of_int 1) (f_of_int 0))
               (set_diffuse_color (o_material (snd loop)) (checker_color pt))).
Proof.
  intros loop d pt Hy Hwin. unfold scene_intersect. fold loop.
  destruct loop as [spheres_dist out]. cbn [fst snd] in *.
  unfold plane_step. rewrite Hy. fold d. fold pt. rewrite Hwin. reflexivity.
Qed.

(** The parity test reads the lowest bit of the sum. *)
Lemma checker_odd_parity (hit : Vec3f) :
  checker_odd hit
  = Z.odd (int_of_d (d_lit 5 1 * d_of_f (vx hit) + d_of_int 1000)%db
           + int_of_d (d_lit 5 1 * d_of_f (vz hit))%db).
Proof.
  unfold checker_odd.
  set (n := _ + _). change 1 with (Z.ones 1). rewrite Z.land_ones by lia.
  rewrite Zodd_mod. change (2 ^ 1) with 2.
  destruct (Z.eqb_spec (n mod 2) 0) as [E|E]; rewrite ?E; cbn.
  - reflexivity.
  - symmetry. apply Z.eqb_eq. pose proof (Z.mod_pos_bound n 2). lia.
Qed.

End SceneIntersect.

(** ** The checkerboard *)

(** C5 as worded fails: at the plane point (0, -4, -20) the sum is 990,
    even; the claim gives the white tile, the program the orange one. *)
Lemma checker_color_claimed_fails :
  let f := @f_of_int IEEE_basic in
  vy (checker_color (mkVec3f (f 0) (f (-4)) (f (-20))))
  <> vy (checker_color_claimed (mkVec3f (f 0) (f (-4)) (f (-20)))).
Proof. vm_compute. discriminate. Qed.

Section Checkerboard.
Variables (libm_powf : spec_float -> spec_float -> spec_float)
          (libm_tan : spec_float -> spec_float).
Local Instance IEEE_checker : Arith := IEEE libm_powf libm_tan.

(** C5 (amended). Whenever the plane wins, the diffuse colour of the
    returned material is chosen by the parity of
    int(0.5 x + 1000) + int(0.5 z) of the hit point, the conversions to int
    truncating toward zero (-5.5 gives -5): odd parity yields the white
    tile (1,1,1), even parity the tile (1,0.7,0.3), and the result is
    multiplied by 0.3.  At the plane points x = 0, z = -20 and
    x = 2, z = -20 the parity is even, then odd: the colours alternate. *)
Theorem checkerboard_color (orig dir : Vec3f) (spheres : list Sphere)
  (out0 : Outputs) :
  let loop := spheres_loop orig dir spheres out0 in
  let d := (- (vy orig + f_of_int 4) / vy dir)%fl in
  let pt := vadd orig (vscale dir d) in
  dgtb (d_of_f (fabs (vy dir))) (d_lit 1 3) = true ->
  plane_wins pt d (fst loop) = true ->
  diffuse_color (o_material (snd (scene_intersect orig dir spheres out0)))
  = vscale_d
      (if Z.odd (int_of_d (d_lit 5 1 * d_of_f (vx pt) + d_of_int 1000)%db
                 + int_of_d (d_lit 5 1 * d_of_f (vz pt))%db)
       then tile_white else tile_orange)
      (d_lit 3 1)
  /\ int_of_d (d_lit (-55) 1) = -5
  /\ (forall y, checker_odd (mkVec3f (f_of_int 0) y (f_of_int (-20))) = false)
  /\ (forall y, checker_odd (mkVec3f (f_of_int 2) y (f_of_int (-20))) = true)
  /\ vy (vscale_d tile_orange (d_lit 3 1)) <> vy (vscale_d tile_white (d_lit 3 1)).
Proof.
  intros loop d pt Hy Hwin.
  split; [|split; [|split; [|split]]].
  - rewrite (scene_intersect_plane orig dir spheres out0 Hy Hwin).
    cbn [snd o_material set_diffuse_color diffuse_color].
    unfold checker_color. rewrite checker_odd_parity. reflexivity.
  - vm_compute. reflexivity.
  - intros y. vm_compute. reflexivity.
  - intros y. vm_compute. reflexivity.
  - vm_compute. discriminate.
Qed.

End Checkerboard.

Lemma checkerboard_color_witness :
  let f := @f_of_int IEEE_basic in
  let orig := mkVec3f (f 0) (f 0) (f 0) in
  let dir := mkVec3f (f 0) (f (-1)) (f (-5)) in
  let pt := vadd orig (vscale dir (- (vy orig + f 4) / vy dir)%fl) in
  diffuse_color (o_material (snd (scene_intersect orig dir [] Outputs_default)))
  = vscale_d
      (if Z.odd (int_of_d (d_lit 5 1 * d_of_f (vx pt) + d_of_int 1000)%db
                 + int_of_d (d_lit 5 1 * d_of_f (vz pt))%db)
       then tile_white else tile_orange)
      (d_lit 3 1).
Proof.
  intros f orig dir pt.
  pose proof (checkerboard_color (fun _ _ => IEEE754.NaN) (fun _ => IEEE754.NaN)
                orig dir [] Outputs_default) as H.
  cbv zeta in H.
  assert (H1 : dgtb (d_of_f (fabs (vy dir))) (d_lit 1 3) = true)
    by (vm_compute; reflexivity).
  assert (H2 : plane_wins pt (- (vy orig + f 4) / vy dir)%fl
                 (fst (spheres_loop orig dir [] Outputs_default)) = true)
    by (vm_compute; reflexivity).
  exact (proj1 (H H1 H2)).
Defined.

(** ** scene_intersect: the material of a plane hit *)

(** C10. When the plane wins, the returned material has the checkerboard
    colour as diffuse colour.  If some sphere was recorded by the loop
    (hit at a distance below the initial one), the other three fields are
    those of a sphere of the list that is hit farther than the plane and
    than which no sphere of the list is hit nearer; if no sphere was
    recorded they are those of the material the caller passed in, which
    for cast_ray is the default material: refractive index 1, albedo
    (1,0,0,0), specular exponent 0. *)
Theorem scene_intersect_plane_material {A : Arith} {laws : ArithLaws A}
  (orig dir : Vec3f) (spheres : list Sphere) (out0 : Outputs) :
  let loop := spheres_loop orig dir spheres out0 in
  let d := (- (vy orig + f_of_int 4) / vy dir)%fl in
  let pt := vadd orig (vscale dir d) in
  dgtb (d_of_f (fabs (vy dir))) (d_lit 1 3) = true ->
  plane_wins pt d (fst loop) = true ->
  let m := o_material (snd (scene_intersect orig dir spheres out0)) in
  diffuse_color m = checker_color pt
  /\ ((exists s ds, In s spheres
         /\ ray_intersect s orig dir (f_of_int 0) = (true, ds)
         /\ (ds <? flt_max)%fl = true) ->
      exists s ds, In s spheres
        /\ ray_intersect s orig dir (f_of_int 0) = (true, ds)
        /\ (d <? ds)%fl = true
        /\ (forall s' ds', In s' spheres ->
              ray_intersect s' orig dir (f_of_int 0) = (true, ds') ->
              (ds' <? ds)%fl = false)
        /\ refractive_index m = refractive_index (material s)
        /\ albedo m = albedo (material s)
        /\ specular_exponent m = specular_exponent (material s))
  /\ ((forall s ds, In s spheres ->
         ray_intersect s orig dir (f_of_int 0) = (true, ds) ->
         (ds <? flt_max)%fl = false) ->
      refractive_index m = refractive_index (o_material out0)
      /\ albedo m = albedo (o_material out0)
      /\ specular_exponent m = specular_exponent (o_material out0))
  /\ refractive_index MMaterial_default = f_of_int 1
  /\ albedo MMaterial_default
     = mkVec4f (f_of_int 1) (f_of_int 0) (f_of_int 0) (f_of_int 0)
  /\ specular_exponent MMaterial_default = f_of_int 0.
Proof.
  intros loop d pt Hy Hwin m.
  assert (Hm : m = set_diffuse_color (o_material (snd loop)) (checker_color pt)).
  { unfold m. rewrite (scene_intersect_plane orig dir spheres out0 Hy Hwin).
    reflexivity. }
  assert (Hnear : (d <? fst loop)%fl = true).
  { unfold plane_wins in Hwin. apply andb_prop in Hwin. apply Hwin. }
  pose proof (spheres_fold_nearest orig dir spheres flt_max out0) as Hloop.
  cbv zeta in Hloop. fold (spheres_loop orig dir spheres out0) in Hloop.
  fold loop in Hloop.
  split; [rewrite Hm; reflexivity|].
  split; [|split; [|repeat split]].
  - intros (s & ds & Hin & Hhit & Hlt).
    destruct Hloop as [[Hr Hnone] | (s2 & Hin2 & Hhit2 & Hlt2 & Hout & Hmin)].
    + rewrite (Hnone s ds Hin Hhit) in Hlt. discriminate Hlt.
    + exists s2, (fst loop).
      split; [exact Hin2|]. split; [exact Hhit2|]. split; [exact Hnear|].
      split; [exact Hmin|].
      rewrite Hm, Hout. repeat split.
  - intros Hnone.
    destruct Hloop as [[Hr _] | (s2 & Hin2 & Hhit2 & Hlt2 & _)].
    + rewrite Hm, Hr. repeat split.
    + rewrite (Hnone s2 _ Hin2 Hhit2) in Hlt2. discriminate Hlt2.
Qed.

Lemma scene_intersect_plane_material_witness :
  let f := @f_of_int IEEE_basic in
  let glass := mkMaterial (f_of_d (d_lit 15 1))
                          (mkVec4f (f 0) (f_of_d (d_lit 5 1))
                                   (f_of_d (d_lit 1 1)) (f_of_d (d_lit 8 1)))
                          (mkVec3f (f 1) (f 1) (f 1)) (f 125) in
  let s := mkSphere (mkVec3f (f 0) (f (-8)) (f (-40))) (f 1) glass in
  let orig := mkVec3f (f 0) (f 0) (f 0) in
  let dir := normalize (mkVec3f (f 0) (f (-1)) (f (-5))) in
  let pt := vadd orig (vscale dir (- (vy orig + f 4) / vy dir)%fl) in
  let m := o_material (snd (scene_intersect orig dir [s] Outputs_default)) in
  diffuse_color m = checker_color pt
  /\ refractive_index m = refractive_index glass
  /\ albedo m = albedo glass
  /\ specular_exponent m = specular_exponent glass.
Proof.
  intros f glass s orig dir pt m.
  pose proof (scene_intersect_plane_material orig dir [s] Outputs_default) as H.
  cbv zeta in H.
  assert (H1 : dgtb (d_of_f (fabs (vy dir))) (d_lit 1 3) = true)
    by (vm_compute; reflexivity).
  assert (H2 : plane_wins pt (- (vy orig + f 4) / vy dir)%fl
                 (fst (spheres_loop orig dir [s] Outputs_default)) = true)
    by (vm_compute; reflexivity).
  destruct (H H1 H2) as (Hc & Hs & _).
  split; [exact Hc|].
  destruct Hs as (s' & ds & Hin & _ & _ & _ & Hr & Ha & He).
  - exists s, (snd (ray_intersect s orig dir (f_of_int 0))).
    split; [left; reflexivity|].
    split; [|vm_compute; reflexivity].
    apply injective_projections; [vm_compute; reflexivity | reflexivity].
  - destruct Hin as [<- | []]. split; [exact Hr|]. split; [exact Ha|exact He].
Defined.

(** ** The field of view *)

Lemma Rtrunc_between (r : R) (z : Z) :
  (0 <= IZR z <= r)%R -> (r < IZR z + 1)%R -> ExactR.Rtrunc r = z.
Proof.
  intros [Hz Hr] Hlt. unfold ExactR.Rtrunc.
  destruct (Rle_dec 0 r) as [_|Hn]; [|lra].
  symmetry. apply Int_part_spec. lra.
Qed.

(** C7 (what the code does). [fov] is declared int, so the initialiser
    3.14159265 / 2 is truncated to 1 in either arithmetic; the factor of
    the screen coordinates is therefore tan(1/2), which is smaller than
    tan(pi/4) = 1. *)
Theorem fov_truncated (libm_powf : spec_float -> spec_float -> spec_float)
  (libm_tan : spec_float -> spec_float) :
  @fov (IEEE libm_powf libm_tan) = 1
  /\ @fov Exact = 1
  /\ @dtan Exact (@ddiv Exact (@d_of_int Exact (@fov Exact)) (@d_lit Exact 2 0))
     = tan (1 / 2)
  /\ (tan (1 / 2) < tan (PI / 4))%R.
Proof.
  assert (Hfov : @fov Exact = 1).
  { unfold fov. cbn. unfold ExactR.Rdecimal.
    change (10 ^ Z.of_nat 8) with 100000000.
    apply Rtrunc_between; lra. }
  split; [vm_compute; reflexivity|]. split; [exact Hfov|]. split.
  - rewrite Hfov. cbn. unfold ExactR.Rdecimal.
    change (10 ^ Z.of_nat 0) with 1. f_equal. lra.
  - pose proof PI2_1 as Hpi.
    apply tan_increasing_1; lra.
Qed.

(** ** Loops and termination *)

Lemma to_size_t_small (z : Z) : 0 <= z < 2 ^ 64 -> to_size_t z = z.
Proof. intros H. unfold to_size_t. apply Z.mod_small. exact H. Qed.

(** A loop whose body keeps an invariant and never fails runs to its end
    and establishes the invariant there. *)
Lemma for_range_inv {St : Type} (P : Z -> St -> Prop)
  (body : Z -> St -> outcome St) (n : nat) (lo : Z) (s : St) :
  P lo s ->
  (forall k st, lo <= k < lo + Z.of_nat n -> P k st ->
     exists st', body k st = Done st' /\ P (k + 1) st') ->
  exists s', for_range lo n body s = Done s' /\ P (lo + Z.of_nat n) s'.
Proof.
  revert lo s. induction n as [|n IH]; intros lo s H0 Hstep.
  - exists s. split; [reflexivity|].
    replace (lo + Z.of_nat 0) with lo by lia. exact H0.
  - destruct (Hstep lo s ltac:(lia) H0) as (s1 & Hb & H1).
    destruct (IH (lo + 1) s1 H1) as (s2 & Hr & H2).
    { intros k st Hk. apply Hstep. lia. }
    exists s2. split.
    + cbn [for_range]. rewrite Hb. exact Hr.
    + replace (lo + Z.of_nat (S n)) with (lo + 1 + Z.of_nat n) by lia. exact H2.
Qed.

(** With a non-negative [maxDepth], a call stack of maxDepth + 2 - depth
    levels (and at least one) is enough for cast_ray to return. *)
Lemma cast_ray_terminates {A : Arith} (fuel : nat) (orig dir : Vec3f)
  (spheres : list Sphere) (lights : list Light) (depth maxDepth : Z) :
  0 <= maxDepth < 2 ^ 31 -> 0 <= depth ->
  Z.max 1 (maxDepth + 2 - depth) <= Z.of_nat fuel ->
  exists c n, cast_ray fuel orig dir spheres lights depth maxDepth = Some (c, n).
Proof.
  intros Hm. revert orig dir depth.
  induction fuel as [|fuel IH]; intros orig dir depth Hd Hfuel; [lia|].
  rewrite cast_ray_unfold. rewrite depth_test_nonneg by exact Hm.
  destruct (maxDepth <? depth) eqn:Hcmp; [eexists _, _; reflexivity|].
  apply Z.ltb_ge in Hcmp.
  destruct (scene_intersect orig dir spheres Outputs_default) as [found out].
  destruct found; cbn [negb]; [|eexists _, _; reflexivity].
  cbv zeta.
  assert (Hnext : to_size_t (depth + 1) = depth + 1).
  { apply to_size_t_small. split; [lia|].
    apply Z.lt_trans with (2 ^ 31 + 1); [lia|reflexivity]. }
  rewrite Hnext.
  match goal with
  | |- context [cast_ray fuel ?o ?d _ _ _ _] =>
    destruct (IH o d (depth + 1)) as (c1 & n1 & Hc1); [lia|lia|rewrite Hc1]
  end.
  match goal with
  | |- context [cast_ray fuel ?o ?d _ _ _ _] =>
    destruct (IH o d (depth + 1)) as (c2 & n2 & Hc2); [lia|lia|rewrite Hc2]
  end.
  destruct (lights_loop _ _ _ _ _ _) as [di si].
  eexists _, _. reflexivity.
Qed.

(** ** render: filling the framebuffer *)

Section Fill.
Context {A : Arith}.
Variables (fuel : nat) (spheres : list Sphere) (lights : list Light)
          (maxDepth : Z).
(** [w] and [h] stand for width / scale and height / scale. *)
Variables (w h : Z).

Hypothesis Hw : 0 <= w <= width.
Hypothesis Hh : 0 <= h <= height.
Hypothesis Hpix : forall i j, exists c n, pixel_color fuel spheres lights maxDepth w h i j = Some (c, n).

Lemma render_pixel_writes (i j : Z) (fb : list Vec3f) :
  0 <= i < w -> 0 <= j < h -> j * width + w <= Z.of_nat (length fb) ->
  exists c n, pixel_color fuel spheres lights maxDepth w h i j = Some (c, n)
    /\ render_pixel fuel spheres lights maxDepth w h j i fb
       = Done (<[Z.to_nat (i + j * width) := c]> fb).
Proof.
  intros Hi Hj Hlen. destruct (Hpix i j) as (c & n & Hc).
  exists c, n. split; [exact Hc|].
  unfold render_pixel. rewrite Hc.
  unfold width, height in *.
  assert (H1 : to_size_t (j * 1024) = j * 1024).
  { apply to_size_t_small. split; [lia|].
    apply Z.lt_trans with (768 * 1024); [lia|reflexivity]. }
  assert (H2 : to_size_t (i + j * 1024) = i + j * 1024).
  { apply to_size_t_small. split; [lia|].
    apply Z.lt_trans with (1024 + 768 * 1024); [lia|reflexivity]. }
  rewrite H1, H2. unfold fb_write. rewrite H2.
  destruct (Z.ltb_spec (i + j * 1024) (Z.of_nat (length fb))); [reflexivity|lia].
Qed.

(** One row of the first pair of loops: the [w] elements from index
    j * width are written, the others are left as they are. *)
Lemma fill_row (j : Z) (fb : list Vec3f) :
  0 <= j < h -> j * width + w <= Z.of_nat (length fb) ->
  exists fb',
    for_range 0 (Z.to_nat w) (render_pixel fuel spheres lights maxDepth w h j) fb
    = Done fb'
    /\ length fb' = length fb
    /\ (forall i, 0 <= i < w ->
          exists c n, pixel_color fuel spheres lights maxDepth w h i j = Some (c, n)
            /\ fb' !! Z.to_nat (i + j * width) = Some c)
    /\ (forall k : nat, ~ (j * width <= Z.of_nat k < j * width + w) ->
          fb' !! k = fb !! k).
Proof.
  intros Hj Hlen.
  destruct (for_range_inv
    (fun i fb' =>
       length fb' = length fb
       /\ (forall i', 0 <= i' < i ->
             exists c n, pixel_color fuel spheres lights maxDepth w h i' j = Some (c, n)
               /\ fb' !! Z.to_nat (i' + j * width) = Some c)
       /\ (forall k : nat, ~ (j * width <= Z.of_nat k < j * width + i) ->
             fb' !! k = fb !! k))
    (render_pixel fuel spheres lights maxDepth w h j) (Z.to_nat w) 0 fb)
    as (fb' & Hrun & Hlen' & Hwritten & Hother).
  - split; [reflexivity|]. split; [intros i' Hi'; lia|]. intros k _. reflexivity.
  - intros i st Hi (Hl & Hwr & Hot).
    destruct (render_pixel_writes i j st) as (c & n & Hc & Hstep);
      [lia|lia|rewrite Hl; exact Hlen|].
    eexists. split; [exact Hstep|].
    assert (Hin : (Z.to_nat (i + j * width) < length st)%nat)
      by (unfold width in *; lia).
    split; [rewrite length_insert; exact Hl|]. split.
    + intros i' Hi'. destruct (Z.eq_dec i' i) as [->|Hne].
      * exists c, n. split; [exact Hc|]. apply list_lookup_insert_eq. exact Hin.
      * destruct (Hwr i' ltac:(lia)) as (c' & n' & Hc' & Hl').
        exists c', n'. split; [exact Hc'|].
        rewrite list_lookup_insert_ne; [exact Hl'|]. unfold width in *. lia.
    + intros k Hk. rewrite list_lookup_insert_ne.
      * apply Hot. lia.
      * unfold width in *. lia.
  - exists fb'. split; [exact Hrun|]. split; [exact Hlen'|].
    replace (0 + Z.of_nat (Z.to_nat w)) with w in * by lia.
    split; [exact Hwritten|exact Hother].
Qed.

(** The first pair of loops: pixel (i, j) is written at index
    i + j * width, every other element is left as it is. *)
Lemma fill_rows (fb0 : list Vec3f) :
  h * width <= Z.of_nat (length fb0) ->
  exists fb,
    for_range 0 (Z.to_nat h)
      (fun j fb => for_range 0 (Z.to_nat w)
                     (render_pixel fuel spheres lights maxDepth w h j) fb) fb0
    = Done fb
    /\ length fb = length fb0
    /\ (forall i j, 0 <= i < w -> 0 <= j < h ->
          exists c n, pixel_color fuel spheres lights maxDepth w h i j = Some (c, n)
            /\ fb !! Z.to_nat (i + j * width) = Some c)
    /\ (forall k : nat,
          (forall i j, 0 <= i < w -> 0 <= j < h -> Z.of_nat k <> i + j * width) ->
          fb !! k = fb0 !! k).
Proof.
  intros Hlen.
  destruct (for_range_inv
    (fun j fb =>
       length fb = length fb0
       /\ (forall i j', 0 <= i < w -> 0 <= j' < j ->
             exists c n, pixel_color fuel spheres lights maxDepth w h i j' = Some (c, n)
               /\ fb !! Z.to_nat (i + j' * width) = Some c)
       /\ (forall k : nat,
             (forall i j', 0 <= i < w -> 0 <= j' < j ->
                Z.of_nat k <> i + j' * width) ->
             fb !! k = fb0 !! k))
    (fun j fb => for_range 0 (Z.to_nat w)
                   (render_pixel fuel spheres lights maxDepth w h j) fb)
    (Z.to_nat h) 0 fb0)
    as (fb & Hrun & Hlen' & Hwritten & Hother).
  - split; [reflexivity|]. split; [intros i j' _ Hj'; lia|]. intros k _. reflexivity.
  - intros j st Hj (Hl & Hwr & Hot).
    destruct (fill_row j st) as (fb' & Hrun & Hl' & Hrow & Hrest);
      [lia | rewrite Hl; unfold width in *; nia |].
    exists fb'. split; [exact Hrun|].
    split; [rewrite Hl'; exact Hl|]. split.
    + intros i j' Hi Hj'. destruct (Z.eq_dec j' j) as [->|Hne].
      * apply Hrow. exact Hi.
      * destruct (Hwr i j' Hi ltac:(lia)) as (c & n & Hc & Hlk).
        exists c, n. split; [exact Hc|]. rewrite Hrest; [exact Hlk|].
        unfold width in *. nia.
    + intros k Hk. rewrite Hrest.
      * apply Hot. intros i j' Hi Hj'. apply Hk; [exact Hi|lia].
      * intros Hin. apply (Hk (Z.of_nat k - j * width) j); lia.
  - exists fb. split; [exact Hrun|]. split; [exact Hlen'|].
    replace (0 + Z.of_nat (Z.to_nat h)) with h in * by lia.
    split; [exact Hwritten|exact Hother].
Qed.

End Fill.

Lemma quot_scale (a scale : Z) :
  0 <= a -> 1 <= scale ->
  Z.quot a scale = a / scale /\ 0 <= a / scale <= a.
Proof.
  intros Ha Hs. split; [apply Z.quot_div_nonneg; lia|].
  split; [apply Z.div_pos; lia|].
  apply Z.div_le_upper_bound; nia.
Qed.

Lemma frame_size (scale : Z) :
  1 <= scale -> (height / scale) * width <= (width * height) / scale.
Proof.
  intros Hs. unfold width, height.
  apply Z.div_le_lower_bound; [lia|].
  pose proof (Z.mul_div_le 768 scale ltac:(lia)). nia.
Qed.

(** fill_framebuffer on a buffer of at least the frame's size, with a
    valid scale and depth cap and enough call stack. *)
Lemma fill_framebuffer_spec {A : Arith} (fuel : nat) (spheres : list Sphere)
  (lights : list Light) (scale maxDepth : Z) (fb0 : list Vec3f) :
  1 <= scale -> 0 <= maxDepth < 2 ^ 31 -> maxDepth + 2 <= Z.of_nat fuel ->
  Z.quot (width * height) scale <= Z.of_nat (length fb0) ->
  let w := Z.quot width scale in
  let h := Z.quot height scale in
  exists fb,
    fill_framebuffer fuel spheres lights scale maxDepth fb0 = Done fb
    /\ length fb = length fb0
    /\ (forall i j, 0 <= i < w -> 0 <= j < h ->
          exists c n,
            cast_ray fuel camera (pixel_dir i j w h) spheres lights 0 maxDepth
            = Some (c, n)
            /\ fb !! Z.to_nat (i + j * width) = Some c)
    /\ (forall k : nat,
          (forall i j, 0 <= i < w -> 0 <= j < h -> Z.of_nat k <> i + j * width) ->
          fb !! k = fb0 !! k).
Proof.
  intros Hs Hm Hfuel Hlen w h.
  destruct (quot_scale width scale ltac:(unfold width; lia) Hs) as [Hwq Hwb].
  destruct (quot_scale height scale ltac:(unfold height; lia) Hs) as [Hhq Hhb].
  destruct (quot_scale (width * height) scale ltac:(unfold width, height; lia) Hs)
    as [Hnq _].
  pose proof (frame_size scale Hs) as Hsize.
  fold w in Hwq. fold h in Hhq. rewrite <- Hwq in Hwb. rewrite <- Hhq in Hhb, Hsize.
  rewrite <- Hnq in Hsize.
  unfold fill_framebuffer, int_div.
  destruct (Z.eqb_spec scale 0) as [?|_]; [lia|]. cbn [obind]. fold w h.
  rewrite (to_size_t_small h), (to_size_t_small w).
  - apply (fill_rows fuel spheres lights maxDepth w h Hwb Hhb).
    + intros i j. apply cast_ray_terminates; [exact Hm|lia|lia].
    + lia.
  - split; [lia|]. apply Z.le_lt_trans with width; [lia|reflexivity].
  - split; [lia|]. apply Z.le_lt_trans with height; [lia|reflexivity].
Qed.

(** C8 (amended). With a valid scale and depth cap, render creates the
    framebuffer once, with (width * height) / scale default (black)
    elements, and fills it before the compressor reads it: the pixel at
    grid position (i, j) is stored at index i + j * width (the stride is
    the full width), holding its shading result, and every other element
    keeps the default value. *)
Theorem render_framebuffer {A : Arith} (fuel : nat) (spheres : list Sphere)
  (lights : list Light) (scale maxDepth : Z) :
  1 <= scale -> 0 <= maxDepth < 2 ^ 31 -> maxDepth + 2 <= Z.of_nat fuel ->
  let w := Z.quot width scale in
  let h := Z.quot height scale in
  let n := Z.quot (width * height) scale in
  exists fb,
    new_framebuffer n = Done (replicate (Z.to_nat n) Vec3f_default)
    /\ fill_framebuffer fuel spheres lights scale maxDepth
         (replicate (Z.to_nat n) Vec3f_default) = Done fb
    /\ render fuel spheres lights scale maxDepth = draw_rows fb scale
    /\ length fb = Z.to_nat n
    /\ (forall i j, 0 <= i < w -> 0 <= j < h ->
          exists c calls,
            cast_ray fuel camera (pixel_dir i j w h) spheres lights 0 maxDepth
            = Some (c, calls)
            /\ fb !! Z.to_nat (i + j * width) = Some c)
    /\ (forall k : nat, (k < Z.to_nat n)%nat ->
          (forall i j, 0 <= i < w -> 0 <= j < h -> Z.of_nat k <> i + j * width) ->
          fb !! k = Some Vec3f_default).
Proof.
  intros Hs Hm Hfuel w h n.
  destruct (quot_scale (width * height) scale ltac:(unfold width, height; lia) Hs)
    as [Hnq Hnb]. fold n in Hnq. rewrite <- Hnq in Hnb.
  assert (Hnew : new_framebuffer n = Done (replicate (Z.to_nat n) Vec3f_default)).
  { unfold new_framebuffer. rewrite (to_size_t_small n).
    - destruct (Z.ltb_spec vector_max_size n) as [Hbig|_]; [|reflexivity].
      exfalso. revert Hbig. apply Z.le_ngt.
      apply Z.le_trans with (width * height); [lia|]. vm_compute. discriminate.
    - split; [lia|]. apply Z.le_lt_trans with (width * height); [lia|reflexivity]. }
  destruct (fill_framebuffer_spec fuel spheres lights scale maxDepth
              (replicate (Z.to_nat n) Vec3f_default) Hs Hm Hfuel)
    as (fb & Hfill & Hlen & Hwritten & Hother).
  { rewrite length_replicate. fold n. lia. }
  exists fb. split; [exact Hnew|]. split; [exact Hfill|]. split.
  - unfold render, int_div. destruct (Z.eqb_spec scale 0) as [?|_]; [lia|].
    cbn [obind]. fold n. rewrite Hnew. cbn [obind]. rewrite Hfill. reflexivity.
  - split; [rewrite Hlen; apply length_replicate|].
    split; [exact Hwritten|].
    intros k Hk Hfree. rewrite (Hother k Hfree).
    apply lookup_replicate_2. exact Hk.
Qed.

Lemma render_framebuffer_witness :
  exists fb : list (@Vec3f Exact),
    render (A := Exact) 6 [] [] 256 4 = draw_rows fb 256
    /\ length fb = 3072%nat
    /\ fb !! 4%nat = Some Vec3f_default.
Proof.
  destruct (render_framebuffer (A := Exact) 6 [] [] 256 4
              ltac:(lia) ltac:(lia) ltac:(lia))
    as (fb & _ & _ & Hr & Hlen & _ & Hother).
  exists fb. split; [exact Hr|]. split; [exact Hlen|].
  apply Hother.
  - change (Z.to_nat (Z.quot (width * height) 256)) with 3072%nat. lia.
  - intros i j Hi Hj.
    change (Z.quot width 256) with 4 in Hi.
    change (Z.quot height 256) with 3 in Hj. unfold width. lia.
Defined.

(** C8 as worded fails: at scale 256 the grid is 4 by 3 and pixel
    (0, 1) would be at index 4; the loops write it at index 1024 and
    never write index 4, which keeps whatever the buffer held: black in
    one buffer, white in another. *)
Lemma downsampled_row_major_fails : ~ downsampled_row_major.
Proof.
  intros Hclaim.
  pose (white := @tile_white IEEE_basic).
  assert (Hfill : forall fb0 : list (@Vec3f IEEE_basic),
            length fb0 = 3072%nat ->
            exists fb, fill_framebuffer 6 [] [] 256 4 fb0 = Done fb
                       /\ fb !! 4%nat = fb0 !! 4%nat).
  { intros fb0 Hlen.
    destruct (fill_framebuffer_spec (A := IEEE_basic) 6 [] [] 256 4 fb0
                ltac:(lia) ltac:(lia) ltac:(lia))
      as (fb & Hf & _ & _ & Hother).
    - rewrite Hlen. vm_compute. discriminate.
    - exists fb. split; [exact Hf|]. apply Hother.
      intros i j Hi Hj.
      change (Z.quot width 256) with 4 in Hi.
      change (Z.quot height 256) with 3 in Hj. unfold width. lia. }
  destruct (Hfill (replicate 3072 Vec3f_default) (length_replicate _ _))
    as (fb1 & Hf1 & Hk1).
  destruct (Hfill (replicate 3072 white) (length_replicate _ _))
    as (fb2 & Hf2 & Hk2).
  destruct (Hclaim IEEE_basic 6%nat [] [] 256 4 _ fb1 ltac:(lia)
              (length_replicate _ _) Hf1 0 1 ltac:(vm_compute; split; [discriminate|reflexivity])
              ltac:(vm_compute; split; [discriminate|reflexivity]))
    as (c1 & n1 & Hc1 & Hl1).
  destruct (Hclaim IEEE_basic 6%nat [] [] 256 4 _ fb2 ltac:(lia)
              (length_replicate _ _) Hf2 0 1 ltac:(vm_compute; split; [discriminate|reflexivity])
              ltac:(vm_compute; split; [discriminate|reflexivity]))
    as (c2 & n2 & Hc2 & Hl2).
  rewrite Hc1 in Hc2. injection Hc2 as <- _.
  change (Z.to_nat (0 + 1 * Z.quot width 256)) with 4%nat in Hl1, Hl2.
  rewrite Hk1 in Hl1. rewrite Hk2 in Hl2.
  rewrite lookup_replicate_2 in Hl1 by lia.
  rewrite lookup_replicate_2 in Hl2 by lia.
  rewrite <- Hl1 in Hl2. injection Hl2 as Hx _ _.
  vm_compute in Hx. discriminate Hx.
Qed.

(** ** render: the parameters *)

(** A negative int converted to size_t. *)
Lemma to_size_t_negative (z : Z) :
  - 2 ^ 63 <= z < 0 -> to_size_t z = z + 2 ^ 64.
Proof.
  intros Hz. unfold to_size_t. symmetry.
  apply Z.mod_unique with (-1); [left|lia].
  assert (- 2 ^ 63 + 2 ^ 64 = 2 ^ 63) by reflexivity. lia.
Qed.

(** C9 as worded fails: render called with scale = 0 is neither
    rejected nor clamped, it divides by zero. *)
Lemma render_scale_zero_undefined :
  render (A := IEEE_basic) 6 [] [] 0 4 = Undefined.
Proof. unfold render, int_div. cbn [Z.eqb obind]. reflexivity. Qed.

(** C9 (amended). render does not check its parameters: with scale = 0
    the first division is undefined behaviour; with a scale from
    -(width * height) to -1 the size of the framebuffer is negative and
    the vector constructor throws; a negative maxDepth, converted to
    size_t, is above every depth below 2^63, so the depth test of
    cast_ray does not stop the recursion.  The caller keeps the
    parameters valid: main starts from scale 8 and maxDepth 4, and its
    key handling keeps scale in {1, 2, 4, 8, 16} and maxDepth in 1..4. *)
Theorem render_parameters {A : Arith} (fuel : nat) (spheres : list Sphere)
  (lights : list Light) :
  (forall maxDepth, render fuel spheres lights 0 maxDepth = Undefined)
  /\ (forall scale maxDepth, - (width * height) <= scale <= -1 ->
        render fuel spheres lights scale maxDepth = Throws)
  /\ (forall maxDepth depth, - 2 ^ 31 <= maxDepth < 0 -> 0 <= depth < 2 ^ 63 ->
        (to_size_t maxDepth <? depth) = false)
  /\ valid_params (8, 4)
  /\ (forall left right down up p, valid_params p ->
        valid_params (update_params left right down up (fst p) (snd p))).
Proof.
  split; [|split; [|split; [|split]]].
  - intros maxDepth. reflexivity.
  - intros scale maxDepth Hs. unfold render, int_div.
    destruct (Z.eqb_spec scale 0) as [?|_]; [lia|]. cbn [obind].
    set (n := Z.quot (width * height) scale).
    assert (Hn : - (width * height) <= n <= -1).
    { unfold n. replace scale with (- (- scale)) by lia.
      rewrite Z.quot_opp_r by lia.
      destruct (quot_scale (width * height) (- scale)
                  ltac:(unfold width, height; lia) ltac:(lia)) as [-> Hb].
      assert (1 <= width * height / - scale).
      { apply Z.div_le_lower_bound; lia. }
      lia. }
    assert (Hbig : - 2 ^ 63 <= - (width * height)) by (vm_compute; discriminate).
    unfold new_framebuffer. rewrite to_size_t_negative by lia.
    destruct (Z.ltb_spec vector_max_size (n + 2 ^ 64)) as [_|Hle];
      [reflexivity|].
    exfalso. revert Hle. apply Z.lt_nge.
    apply Z.lt_le_trans with (- (width * height) + 2 ^ 64); [|lia].
    vm_compute. reflexivity.
  - intros maxDepth depth Hm Hd. apply Z.ltb_ge.
    assert (Hbig : - 2 ^ 63 <= - 2 ^ 31) by (vm_compute; discriminate).
    rewrite to_size_t_negative by lia.
    apply Z.le_trans with (2 ^ 63); [lia|].
    apply Z.le_trans with (- 2 ^ 31 + 2 ^ 64); [|lia].
    vm_compute. discriminate.
  - split; [cbn; tauto|cbn; lia].
  - intros left right down up [scale maxDepth] [Hs Hm]. cbn [fst snd] in *.
    unfold update_params, valid_params. cbn [fst snd]. split.
    + cbn [In] in Hs.
      destruct Hs as [<-|[<-|[<-|[<-|[<-|[]]]]]];
        destruct left, right; cbn; tauto.
    + destruct (Z.ltb_spec 1 maxDepth), (Z.ltb_spec maxDepth 4),
        down, up; cbn [andb]; lia.
Qed.

Lemma render_parameters_witness :
  render (A := Exact) 6 [] [] (-8) 4 = Throws.
Proof.
  apply (proj1 (proj2 (render_parameters (A := Exact) 6 [] []))).
  unfold width, height. lia.
Defined.

(** ** render: the rectangle runs *)

Lemma for_range_app {St : Type} (body : Z -> St -> outcome St) (n m : nat)
  (lo : Z) (s : St) :
  for_range lo (n + m) body s
  = do s' <- for_range lo n body s; for_range (lo + Z.of_nat n) m body s'.
Proof.
  revert lo s. induction n as [|n IH]; intros lo s.
  - cbn [Nat.add for_range obind]. change (Z.of_nat 0) with 0.
    rewrite Z.add_0_r. reflexivity.
  - cbn [Nat.add for_range]. destruct (body lo s) as [s1| | |]; cbn [obind];
      [|reflexivity|reflexivity|reflexivity].
    rewrite IH. replace (lo + 1 + Z.of_nat n) with (lo + Z.of_nat (S n)) by lia.
    reflexivity.
Qed.

Section UniformRow.
Context {A : Arith}.
Variables (fb : list Vec3f) (scale row : Z) (c u : Vec3f).
(** [w] stands for width / scale. *)
Let w : Z := Z.quot width scale.

Hypothesis Hscale : 1 <= scale.
Hypothesis Hdiv : w * scale = width.
Hypothesis Hrow : 0 <= row < height.
(** The [w] pixels of the row have colour [c], which compares equal to
    itself; the element after them holds [u]. *)
Hypothesis Hpixels :
  forall col, 0 <= col < w -> fb !! Z.to_nat (row * width + col) = Some c.
Hypothesis Hnext : fb !! Z.to_nat (row * width + w) = Some u.
Hypothesis Hsame : color_differs c c = false.

Lemma uniform_w_pos : 1 <= w <= width.
Proof. unfold width in *. nia. Qed.

Lemma uniform_read (col : Z) :
  0 <= col <= w -> fb_read fb (row * width + col)
                   = Done (if col =? w then u else c).
Proof.
  intros Hc. pose proof uniform_w_pos as Hw. unfold fb_read.
  rewrite to_size_t_small.
  - destruct (Z.eqb_spec col w) as [->|Hne].
    + rewrite Hnext. reflexivity.
    + rewrite Hpixels by lia. reflexivity.
  - unfold width, height in *. split; [lia|].
    apply Z.lt_trans with (768 * 1024 + 1025); [lia|reflexivity].
Qed.

Lemma uniform_divisions :
  int_div width scale = Done w
  /\ int_rem (row * width) width = Done 0
  /\ int_div (row * width) width = Done row
  /\ int_rem (row * width) w = Done 0.
Proof.
  pose proof uniform_w_pos as Hw. unfold int_div, int_rem.
  destruct (Z.eqb_spec scale 0) as [?|_]; [lia|].
  destruct (Z.eqb_spec width 0) as [E|_]; [discriminate E|].
  destruct (Z.eqb_spec w 0) as [?|_]; [lia|].
  split; [reflexivity|]. split; [|split].
  - rewrite Z.rem_mul by discriminate. reflexivity.
  - rewrite Z.quot_mul by discriminate. reflexivity.
  - rewrite <- Hdiv. replace (row * (w * scale)) with (row * scale * w) by ring.
    rewrite Z.rem_mul by lia. reflexivity.
Qed.

(** Before the last column nothing is drawn. *)
Lemma uniform_column_idle (col : Z) (st : RunState) :
  0 <= col < w - 1 -> rs_currentColor st = c ->
  column_step fb scale (row * width) col st = Done st.
Proof.
  intros Hc Hcur. destruct uniform_divisions as (Hd & _).
  unfold column_step. rewrite Hd. cbn [obind].
  rewrite uniform_read by lia. cbn [obind].
  destruct (Z.eqb_spec col (w - 1)) as [?|_]; [lia|].
  destruct (Z.eqb_spec col w) as [?|_]; [lia|].
  rewrite Hcur, Hsame. reflexivity.
Qed.

(** C6 (what the code does on a uniform row).  A row of [w] pixels of
    one colour is a single maximal run; the compressor draws for it a
    rectangle that stops one column short of the row, and then, when the
    element after the row differs from the corrected colour, a second
    rectangle over the whole row that overlaps the first.  It never
    draws the one rectangle that tiles the row.  (A rectangle is drawn
    in the Color that the conversion of the corrected colour yields; the
    row is undefined behaviour when that conversion is.) *)
Theorem row_step_uniform_row (drawn : list Rect) :
  row_step fb scale row drawn
  = do k1 <- to_Color (color_correct c);
    if color_differs u (color_correct c)
    then do k2 <- to_Color (color_correct (color_correct c));
         Done (full_rect scale row k2 :: short_rect scale row k1 :: drawn)
    else Done (short_rect scale row k1 :: drawn).
Proof.
  pose proof uniform_w_pos as Hw.
  destruct uniform_divisions as (Hd & Hxm & Hyd & Hwm).
  unfold row_step. rewrite <- (Z.add_0_r (row * width)) at 1.
  rewrite uniform_read by lia.
  destruct (Z.eqb_spec 0 w) as [?|_]; [lia|]. cbn [obind].
  rewrite Hd. cbn [obind].
  replace (Z.to_nat (w + 1)) with (Z.to_nat (w - 1) + 2)%nat by lia.
  rewrite for_range_app.
  destruct (for_range_inv
              (fun _ st => st = mkRunState (row * width) c drawn)
              (column_step fb scale (row * width)) (Z.to_nat (w - 1)) 0
              (mkRunState (row * width) c drawn) eq_refl)
    as (st & Hrun & ->).
  { intros col st Hc ->. exists (mkRunState (row * width) c drawn).
    split; [|reflexivity]. apply uniform_column_idle; [lia|reflexivity]. }
  rewrite Hrun. cbn [obind].
  replace (0 + Z.of_nat (Z.to_nat (w - 1))) with (w - 1) by lia.
  cbn [for_range].
  (* the last column *)
  unfold column_step at 1. rewrite Hd. cbn [obind].
  rewrite uniform_read by lia. cbn [obind rs_startIdx rs_currentColor rs_drawn].
  destruct (Z.eqb_spec (w - 1) w) as [?|_]; [lia|].
  rewrite Z.eqb_refl, Hsame. cbn [orb].
  rewrite Hxm, Hyd, Hwm. cbn [obind].
  destruct (to_Color (color_correct c)) as [k1| | |]; cbn [obind];
    [|reflexivity|reflexivity|reflexivity].
  (* the column after the row *)
  replace (w - 1 + 1) with w by lia.
  unfold column_step. rewrite Hd. cbn [obind].
  rewrite uniform_read by lia. cbn [obind rs_startIdx rs_currentColor rs_drawn].
  rewrite Z.eqb_refl.
  destruct (Z.eqb_spec w (w - 1)) as [?|_]; [lia|]. cbn [orb].
  unfold short_rect, full_rect. fold w.
  replace (0 * scale) with 0 by lia.
  replace (w - 1 - 0) with (w - 1) by lia.
  replace (w - 0) with w by lia.
  destruct (color_differs u (color_correct c)); cbn [obind rs_drawn].
  - rewrite Hxm, Hyd, Hwm. cbn [obind rs_drawn].
    destruct (to_Color (color_correct (color_correct c))) as [k2| | |];
      cbn [obind rs_drawn]; [|reflexivity|reflexivity|reflexivity].
    rewrite Z.sub_0_r. replace (0 * scale) with 0 by lia. reflexivity.
  - reflexivity.
Qed.

End UniformRow.

Lemma row_step_uniform_row_witness :
  let bg := @background IEEE_basic in
  let fb := bg :: bg :: replicate 1534 Vec3f_default in
  let sky := mkColor 51 178 204 255 in
  row_step fb 512 0 [] = Done [full_rect 512 0 sky; short_rect 512 0 sky].
Proof.
  intros bg fb sky.
  rewrite (row_step_uniform_row fb 512 0 bg Vec3f_default).
  - replace (color_differs Vec3f_default (color_correct bg))
      with true by (vm_compute; reflexivity).
    replace (to_Color (color_correct bg)) with (Done sky)
      by (vm_compute; reflexivity).
    replace (to_Color (color_correct (color_correct bg))) with (Done sky)
      by (vm_compute; reflexivity).
    reflexivity.
  - lia.
  - reflexivity.
  - unfold height. lia.
  - intros col Hcol. change (Z.quot width 512) with 2 in Hcol.
    assert (Hc : col = 0 \/ col = 1) by lia.
    destruct Hc as [-> | ->]; reflexivity.
  - reflexivity.
  - vm_compute. reflexivity.
Defined.

(** The same frame through the whole compressor, in numbers: a grid of
    2 by 1 pixels (scale 512), both the background colour.  Two
    rectangles are drawn, 512 and 1024 wide, both from x = 0. *)
Example draw_rows_uniform_frame :
  draw_rows (@background IEEE_basic :: background
             :: replicate 1534 Vec3f_default) 512
  = Done [mkRect 0 0 512 512 (mkColor 51 178 204 255);
          mkRect 0 0 1024 512 (mkColor 51 178 204 255)].
Proof. vm_compute. reflexivity. Qed.

(** *** The outcome of the conversions and of the loops *)

(** A conversion to unsigned char returns or is undefined behaviour. *)
Lemma to_uchar_cases {A : Arith} (v : flt) :
  (exists z, 0 <= z <= 255 /\ to_uchar v = Done z) \/ to_uchar v = Undefined.
Proof.
  unfold to_uchar.
  destruct (Z.leb_spec 0 (int_of_f (f_of_int 255 * v)%fl));
    destruct (Z.leb_spec (int_of_f (f_of_int 255 * v)%fl) 255); cbn [andb];
    [left; eexists; split; [|reflexivity]; lia | right; reflexivity ..].
Qed.

Lemma to_Color_cases {A : Arith} (c : Vec3f) :
  (exists k, to_Color c = Done k) \/ to_Color c = Undefined.
Proof.
  unfold to_Color.
  destruct (to_uchar_cases (vnth c 0)) as [(r & _ & ->) | ->];
    [cbn [obind] | right; reflexivity].
  destruct (to_uchar_cases (vnth c 1)) as [(g & _ & ->) | ->];
    [cbn [obind] | right; reflexivity].
  destruct (to_uchar_cases (vnth c 2)) as [(b & _ & ->) | ->];
    [cbn [obind] | right; reflexivity].
  left. eexists. reflexivity.
Qed.

(** A loop whose body keeps an invariant, or else is undefined behaviour
    for a reason [B], runs to its end and establishes the invariant
    there, or is undefined behaviour for that reason. *)
Lemma for_range_inv_or {St : Type} (P : Z -> St -> Prop) (B : Prop)
  (body : Z -> St -> outcome St) (n : nat) (lo : Z) (s : St) :
  P lo s ->
  (forall k st, lo <= k < lo + Z.of_nat n -> P k st ->
     (exists st', body k st = Done st' /\ P (k + 1) st')
     \/ (body k st = Undefined /\ B)) ->
  (exists s', for_range lo n body s = Done s' /\ P (lo + Z.of_nat n) s')
  \/ (for_range lo n body s = Undefined /\ B).
Proof.
  revert lo s. induction n as [|n IH]; intros lo s H0 Hstep.
  - left. exists s. split; [reflexivity|].
    replace (lo + Z.of_nat 0) with lo by lia. exact H0.
  - cbn [for_range].
    destruct (Hstep lo s ltac:(lia) H0) as [(s1 & Hb & H1) | [Hb HB]].
    + rewrite Hb. cbn [obind].
      destruct (IH (lo + 1) s1 H1) as [(s2 & Hr & H2) | [Hr HB]].
      { intros k st Hk. apply Hstep. lia. }
      * left. exists s2. split; [exact Hr|].
        replace (lo + Z.of_nat (S n)) with (lo + 1 + Z.of_nat n) by lia.
        exact H2.
      * right. split; [exact Hr | exact HB].
    + right. rewrite Hb. split; [reflexivity | exact HB].
Qed.

(** *** Scale 1: the column after the last row *)

Section ScaleOne.
Context {A : Arith}.
Variable fb : list Vec3f.
Hypothesis Hlen : length fb = Z.to_nat (width * height).

Lemma scale_one_read (idx : Z) :
  0 <= idx < width * height -> exists px, fb_read fb idx = Done px.
Proof.
  intros Hi. unfold fb_read. rewrite to_size_t_small.
  - destruct (lookup_lt_is_Some_2 fb (Z.to_nat idx)) as [px Hpx]; [lia|].
    exists px. rewrite Hpx. reflexivity.
  - split; [lia|]. apply Z.lt_trans with (width * height); [lia|reflexivity].
Qed.

(** A column whose element is inside the framebuffer is processed, unless
    the conversion of its colour is undefined. *)
Lemma scale_one_column (old col : Z) (st : RunState) :
  0 <= old + col < width * height ->
  (exists st', column_step fb 1 old col st = Done st')
  \/ column_step fb 1 old col st = Undefined.
Proof.
  intros Hi. unfold column_step.
  change (int_div width 1) with (Done width). cbn [obind].
  destruct (scale_one_read (old + col) Hi) as [px ->]. cbn [obind].
  destruct ((col =? width - 1) || color_differs px (rs_currentColor st));
    [|left; eexists; reflexivity].
  unfold int_rem, int_div. change (width =? 0) with false. cbn [obind].
  destruct (to_Color_cases (color_correct (rs_currentColor st))) as [[k ->] | ->];
    [cbn [obind] | right; reflexivity].
  destruct (color_differs px (rs_currentColor st)); left; eexists; reflexivity.
Qed.

Lemma scale_one_columns (old : Z) (n : nat) (st : RunState) :
  0 <= old -> old + Z.of_nat n <= width * height ->
  (exists st', for_range 0 n (column_step fb 1 old) st = Done st')
  \/ for_range 0 n (column_step fb 1 old) st = Undefined.
Proof.
  intros Ho Hn.
  destruct (for_range_inv_or (fun _ _ => True) True (column_step fb 1 old) n 0 st I)
    as [(st' & Hrun & _) | [Hrun _]].
  - intros col s Hc _.
    destruct (scale_one_column old col s ltac:(lia)) as [[s' Hs'] | Hs'].
    + left. exists s'. split; [exact Hs'|exact I].
    + right. split; [exact Hs'|exact I].
  - left. exists st'. exact Hrun.
  - right. exact Hrun.
Qed.

(** Every row but the last is processed, unless a conversion is
    undefined. *)
Lemma scale_one_row (row : Z) (drawn : list Rect) :
  0 <= row < height - 1 ->
  (exists drawn', row_step fb 1 row drawn = Done drawn')
  \/ row_step fb 1 row drawn = Undefined.
Proof.
  intros Hr. unfold row_step.
  destruct (scale_one_read (row * width)) as [px ->];
    [unfold width, height in *; lia|]. cbn [obind].
  change (int_div width 1) with (Done width). cbn [obind].
  destruct (scale_one_columns (row * width) (Z.to_nat (width + 1))
              (mkRunState (row * width) px drawn)) as [[st ->] | ->];
    [unfold width, height in *; lia | unfold width, height in *; lia | |].
  - left. eexists. reflexivity.
  - right. reflexivity.
Qed.

(** In the last row the loop over the columns reaches col = width, one
    element past the end of the framebuffer. *)
Lemma scale_one_last_row (drawn : list Rect) :
  row_step fb 1 (height - 1) drawn = Undefined.
Proof.
  unfold row_step.
  destruct (scale_one_read ((height - 1) * width)) as [px ->];
    [unfold width, height; lia|]. cbn [obind].
  change (int_div width 1) with (Done width). cbn [obind].
  replace (Z.to_nat (width + 1)) with (Z.to_nat width + 1)%nat
    by (unfold width; lia).
  rewrite for_range_app.
  destruct (scale_one_columns ((height - 1) * width) (Z.to_nat width)
              (mkRunState ((height - 1) * width) px drawn)) as [[st ->] | ->];
    [unfold width, height; lia | unfold width, height; lia | | reflexivity].
  cbn [obind for_range]. unfold column_step.
  change (int_div width 1) with (Done width). cbn [obind].
  unfold fb_read. rewrite to_size_t_small.
  - replace (fb !! _) with (@None Vec3f); [reflexivity|].
    symmetry. apply lookup_ge_None_2. rewrite Hlen.
    unfold width, height. lia.
  - unfold width, height. split; [lia|].
    apply Z.lt_trans with (768 * 1024 + 1); [lia|reflexivity].
Qed.

(** At scale 1 the compressor reads past the end of the framebuffer, if
    no conversion of a colour was undefined before. *)
Lemma draw_rows_scale_one : draw_rows fb 1 = Undefined.
Proof.
  unfold draw_rows. change (int_div height 1) with (Done height).
  cbn [obind].
  replace (Z.to_nat height) with (Z.to_nat (height - 1) + 1)%nat
    by (unfold height; lia).
  rewrite for_range_app.
  destruct (for_range_inv_or (fun _ _ => True) True (row_step fb 1)
              (Z.to_nat (height - 1)) 0 [] I) as [(drawn & -> & _) | [-> _]].
  - intros row s Hr _.
    destruct (scale_one_row row s ltac:(unfold height in *; lia)) as [[s' Hs'] | Hs'].
    + left. exists s'. split; [exact Hs'|exact I].
    + right. split; [exact Hs'|exact I].
  - cbn [obind for_range].
    replace (0 + Z.of_nat (Z.to_nat (height - 1))) with (height - 1)
      by (unfold height; lia).
    rewrite scale_one_last_row. reflexivity.
  - reflexivity.
Qed.

End ScaleOne.

(** X1. render at scale 1, which main reaches by halving the scale three
    times, is undefined behaviour whatever the scene: with a depth cap
    that is a non-negative int and enough call stack, the loop over the
    columns of the last row reads framebuffer[width * height], one
    element past the end of the framebuffer (if no conversion of a colour
    to unsigned char was undefined before that read). *)
Theorem render_scale_one {A : Arith} (fuel : nat) (spheres : list Sphere)
  (lights : list Light) (maxDepth : Z) :
  0 <= maxDepth < 2 ^ 31 -> maxDepth + 2 <= Z.of_nat fuel ->
  render fuel spheres lights 1 maxDepth = Undefined.
Proof.
  intros Hm Hfuel.
  destruct (fill_framebuffer_spec fuel spheres lights 1 maxDepth
              (replicate (Z.to_nat (width * height)) Vec3f_default)
              ltac:(lia) Hm Hfuel) as (fb & Hfill & Hlen & _).
  { rewrite length_replicate. change (Z.quot (width * height) 1) with (width * height).
    unfold width, height. lia. }
  unfold render. change (int_div (width * height) 1) with (Done (width * height)).
  cbn [obind].
  replace (new_framebuffer (width * height))
    with (Done (replicate (Z.to_nat (width * height)) (@Vec3f_default A)))
    by reflexivity.
  cbn [obind]. rewrite Hfill. cbn [obind].
  apply draw_rows_scale_one. rewrite Hlen. apply length_replicate.
Qed.

Lemma render_scale_one_witness :
  render (A := IEEE_basic) 6 [] [] 1 4 = Undefined.
Proof.
  apply (render_scale_one (A := IEEE_basic) 6 [] [] 4); lia.
Defined.

(** *** Scales from 2 on: every access is inside the framebuffer *)

(** The grid of a frame at a scale of 2 or more. *)
Lemma scale_bounds (scale : Z) :
  2 <= scale ->
  0 <= Z.quot width scale <= 512 /\ 0 <= Z.quot height scale <= 384
  /\ (1 <= Z.quot height scale -> 1 <= Z.quot width scale)
  /\ Z.quot height scale * scale <= height.
Proof.
  intros Hscale.
  destruct (quot_scale width scale ltac:(unfold width; lia) ltac:(lia)) as [Hwq _].
  destruct (quot_scale height scale ltac:(unfold height; lia) ltac:(lia)) as [Hhq _].
  rewrite Hwq, Hhq. unfold width, height.
  assert (Hw : 0 <= 1024 / scale <= 512).
  { split; [apply Z.div_pos; lia | apply Z.div_le_upper_bound; lia]. }
  assert (Hh : 0 <= 768 / scale <= 384).
  { split; [apply Z.div_pos; lia | apply Z.div_le_upper_bound; lia]. }
  pose proof (Z.mul_div_le 768 scale ltac:(lia)) as Hm.
  split; [exact Hw|]. split; [exact Hh|]. split; [|lia].
  intros H1. apply Z.div_le_lower_bound; [lia|]. nia.
Qed.

(** One iteration of the loop over the columns, once the element is
    read: what is drawn, and the next state. *)
Lemma column_step_read {A : Arith} (fb : list Vec3f) (scale old col : Z)
  (st : RunState) (px : Vec3f) :
  scale <> 0 -> Z.quot width scale <> 0 ->
  fb_read fb (old + col) = Done px ->
  column_step fb scale old col st
  = if (col =? Z.quot width scale - 1) || color_differs px (rs_currentColor st)
    then
      do k <- to_Color (color_correct (rs_currentColor st));
      let r := mkRect (Z.rem (rs_startIdx st) width * scale)
                      (Z.quot (rs_startIdx st) width * scale)
                      ((col - Z.rem (rs_startIdx st) (Z.quot width scale)) * scale)
                      scale k in
      Done (if color_differs px (rs_currentColor st)
            then mkRunState (old + col) px (r :: rs_drawn st)
            else mkRunState (rs_startIdx st) (color_correct (rs_currentColor st))
                            (r :: rs_drawn st))
    else Done st.
Proof.
  intros Hs Hw Hread. unfold column_step, int_div, int_rem.
  destruct (Z.eqb_spec scale 0) as [?|_]; [contradiction|]. cbn [obind].
  rewrite Hread. cbn [obind].
  destruct ((col =? Z.quot width scale - 1)
            || color_differs px (rs_currentColor st)); [|reflexivity].
  change (width =? 0) with false.
  destruct (Z.eqb_spec (Z.quot width scale) 0) as [?|_]; [contradiction|].
  cbn [obind].
  destruct (to_Color (color_correct (rs_currentColor st))) as [k| | |];
    cbn [obind]; [|reflexivity|reflexivity|reflexivity].
  destruct (color_differs px (rs_currentColor st)); reflexivity.
Qed.

Section RenderSafe.
Context {A : Arith}.
Variables (fb : list Vec3f) (scale : Z).
Let w : Z := Z.quot width scale.
Let h : Z := Z.quot height scale.
(** What a rectangle of the frame satisfies when the scale divides the
    width. *)
Let Q (r : Rect) : Prop := w * scale = width -> inside_window scale r.
(** The pixel of [row] at column [col]. *)
Let pix (row col : Z) : option Vec3f := fb !! Z.to_nat (row * width + col).

Hypothesis Hscale : 2 <= scale.
Hypothesis Hlen : h * width <= Z.of_nat (length fb).

Lemma safe_bounds :
  0 <= w <= 512 /\ 0 <= h <= 384 /\ (1 <= h -> 1 <= w) /\ h * scale <= height.
Proof. exact (scale_bounds scale Hscale). Qed.

Lemma safe_read (row col : Z) :
  0 <= row < h -> 0 <= col <= w ->
  exists px, pix row col = Some px /\ fb_read fb (row * width + col) = Done px.
Proof.
  intros Hr Hc. destruct safe_bounds as (Hw & Hh & _).
  unfold fb_read, pix. rewrite to_size_t_small.
  - destruct (lookup_lt_is_Some_2 fb (Z.to_nat (row * width + col)))
      as [px Hpx]; [unfold width in *; lia|].
    exists px. rewrite Hpx. split; reflexivity.
  - unfold width in *. split; [lia|].
    apply Z.lt_trans with (384 * 1024); [lia|reflexivity].
Qed.

(** The state of the loop over the columns of [row] before column [col]:
    the run starts in the row, before the column (at it, for column 0);
    up to the last column its colour is a pixel of the row, at the
    column after it a pixel of the row, possibly corrected; and [base]
    rectangles were there when the row began. *)
Let row_inv (base : nat) (row col : Z) (st : RunState) : Prop :=
  (exists c, rs_startIdx st = row * width + c /\ 0 <= c <= Z.max 0 (col - 1))
  /\ (col <= w ->
      exists c px,
        0 <= c < w /\ pix row c = Some px
        /\ (rs_currentColor st = px
            \/ (col = w /\ rs_currentColor st = color_correct px)))
  /\ Forall Q (rs_drawn st)
  /\ Z.of_nat (length (rs_drawn st)) <= Z.of_nat base + col.

Lemma safe_column (base : nat) (row col : Z) (st : RunState) :
  0 <= row < h -> 0 <= col <= w -> row_inv base row col st ->
  (exists st', column_step fb scale (row * width) col st = Done st'
               /\ row_inv base row (col + 1) st')
  \/ (column_step fb scale (row * width) col st = Undefined
      /\ undefined_pixel fb scale).
Proof.
  intros Hr Hc ((c & Hstart & Hcb) & Hcur & HQ & Hn).
  destruct safe_bounds as (Hw & Hh & Hw1 & Hhs).
  specialize (Hw1 ltac:(lia)). specialize (Hcur ltac:(lia)).
  destruct Hcur as (c0 & p0 & Hc0 & Hp0 & Hcur).
  destruct (safe_read row col Hr Hc) as (px & Hpx & Hread).
  rewrite (column_step_read fb scale (row * width) col st px
             ltac:(lia) ltac:(fold w; lia) Hread).
  fold w.
  destruct ((col =? w - 1) || color_differs px (rs_currentColor st)) eqn:Hdraw.
  - assert (Hx : Z.rem (rs_startIdx st) width = c).
    { rewrite Hstart, Z.rem_mod_nonneg by (unfold width; lia).
      rewrite Z.add_comm, Z.mod_add by discriminate.
      apply Z.mod_small. unfold width. lia. }
    assert (Hy : Z.quot (rs_startIdx st) width = row).
    { rewrite Hstart, Z.quot_div_nonneg by (unfold width; lia).
      rewrite Z.add_comm, Z.div_add by discriminate.
      rewrite Z.div_small by (unfold width; lia). lia. }
    destruct (to_Color_cases (color_correct (rs_currentColor st)))
      as [[k Hk] | Hk]; rewrite Hk; cbn [obind]; cbv zeta.
    + assert (Hrect : Q (mkRect (Z.rem (rs_startIdx st) width * scale)
                                (Z.quot (rs_startIdx st) width * scale)
                                ((col - Z.rem (rs_startIdx st) w) * scale) scale k)).
      { intros Hdiv. rewrite Hx, Hy.
        assert (Hxw : Z.rem (rs_startIdx st) w = c).
        { rewrite Hstart, Z.rem_mod_nonneg by (unfold width; lia).
          rewrite <- Hdiv.
          replace (row * (w * scale) + c) with (c + row * scale * w) by ring.
          rewrite Z.mod_add by lia. apply Z.mod_small. lia. }
        rewrite Hxw. unfold inside_window. cbn [posX posY rectWidth rectHeight].
        rewrite <- Hdiv. unfold height in *. nia. }
      left. destruct (color_differs px (rs_currentColor st)) eqn:Hdiff.
      * eexists. split; [reflexivity|]. split; [|split; [|split]].
        -- exists col. cbn [rs_startIdx]. split; [reflexivity|lia].
        -- intros Hle. exists col, px. cbn [rs_currentColor].
           split; [lia|]. split; [exact Hpx|]. left. reflexivity.
        -- cbn [rs_drawn]. constructor; assumption.
        -- cbn [rs_drawn length]. lia.
      * rewrite orb_false_r in Hdraw. apply Z.eqb_eq in Hdraw.
        eexists. split; [reflexivity|]. split; [|split; [|split]].
        -- exists c. cbn [rs_startIdx]. split; [exact Hstart|lia].
        -- intros Hle. exists c0, p0. cbn [rs_currentColor].
           split; [exact Hc0|]. split; [exact Hp0|]. right.
           split; [lia|]. destruct Hcur as [-> | [? _]]; [reflexivity|lia].
        -- cbn [rs_drawn]. constructor; assumption.
        -- cbn [rs_drawn length]. lia.
    + right. split; [reflexivity|].
      exists row, c0, p0. fold w h.
      split; [exact Hr|]. split; [exact Hc0|]. split; [exact Hp0|].
      destruct Hcur as [Hcur | [_ Hcur]]; rewrite Hcur in Hk;
        [left | right]; exact Hk.
  - left. exists st. split; [reflexivity|]. split; [|split; [|split]].
    + exists c. split; [exact Hstart|lia].
    + intros Hle. exists c0, p0. split; [exact Hc0|]. split; [exact Hp0|].
      left. destruct Hcur as [Hcur | [? _]]; [exact Hcur|lia].
    + exact HQ.
    + lia.
Qed.

Lemma safe_row (row : Z) (drawn : list Rect) :
  0 <= row < h -> Forall Q drawn ->
  (exists drawn', row_step fb scale row drawn = Done drawn'
                  /\ Forall Q drawn'
                  /\ Z.of_nat (length drawn') <= Z.of_nat (length drawn) + (w + 1))
  \/ (row_step fb scale row drawn = Undefined /\ undefined_pixel fb scale).
Proof.
  intros Hr HQ. destruct safe_bounds as (Hw & Hh & Hw1 & Hhs).
  specialize (Hw1 ltac:(lia)).
  unfold row_step.
  destruct (safe_read row 0 Hr ltac:(lia)) as (px & Hp0 & Hpx).
  rewrite Z.add_0_r in Hpx. rewrite Hpx. cbn [obind].
  unfold int_div.
  destruct (Z.eqb_spec scale 0) as [?|_]; [lia|]. cbn [obind]. fold w.
  destruct (for_range_inv_or (row_inv (length drawn) row)
              (undefined_pixel fb scale)
              (column_step fb scale (row * width)) (Z.to_nat (w + 1)) 0
              (mkRunState (row * width) px drawn))
    as [(st & Hrun & (_ & _ & HQ' & Hn)) | [Hrun Hbad]].
  - split; [|split; [|split]].
    + exists 0. cbn [rs_startIdx]. split; lia.
    + intros _. exists 0, px. cbn [rs_currentColor].
      split; [lia|]. split; [exact Hp0|]. left. reflexivity.
    + exact HQ.
    + cbn [rs_drawn]. lia.
  - intros col st Hc Hinv. apply safe_column; [exact Hr|lia|exact Hinv].
  - left. rewrite Hrun. cbn [obind]. eexists. split; [reflexivity|].
    split; [exact HQ'|lia].
  - right. rewrite Hrun. split; [reflexivity | exact Hbad].
Qed.

Lemma safe_rows :
  (exists rects, draw_rows fb scale = Done rects
                 /\ Forall Q rects
                 /\ Z.of_nat (length rects) <= h * (w + 1))
  \/ (draw_rows fb scale = Undefined /\ undefined_pixel fb scale).
Proof.
  destruct safe_bounds as (Hw & Hh & Hw1 & Hhs).
  unfold draw_rows, int_div.
  destruct (Z.eqb_spec scale 0) as [?|_]; [lia|]. cbn [obind]. fold h.
  destruct (for_range_inv_or
              (fun k drawn => Forall Q drawn
                              /\ Z.of_nat (length drawn) <= k * (w + 1))
              (undefined_pixel fb scale)
              (row_step fb scale) (Z.to_nat h) 0 [])
    as [(drawn & Hrun & HQ & Hn) | [Hrun Hbad]].
  - split; [constructor | cbn; lia].
  - intros row drawn Hr [HQ Hn].
    destruct (safe_row row drawn ltac:(lia) HQ)
      as [(drawn' & Hd & HQ' & Hn') | [Hd Hbad]].
    + left. exists drawn'. split; [exact Hd|]. split; [exact HQ'|lia].
    + right. split; [exact Hd | exact Hbad].
  - left. rewrite Hrun. cbn [obind]. eexists. split; [reflexivity|]. split.
    + apply Forall_rev. exact HQ.
    + rewrite length_rev. lia.
  - right. rewrite Hrun. split; [reflexivity | exact Hbad].
Qed.

End RenderSafe.

(** render up to the second pair of loops: the framebuffer they read. *)
Lemma render_through_fill {A : Arith} (fuel : nat) (spheres : list Sphere)
  (lights : list Light) (scale maxDepth : Z) :
  2 <= scale -> 0 <= maxDepth < 2 ^ 31 -> maxDepth + 2 <= Z.of_nat fuel ->
  let w := Z.quot width scale in
  let h := Z.quot height scale in
  exists fb,
    render fuel spheres lights scale maxDepth = draw_rows fb scale
    /\ h * width <= Z.of_nat (length fb)
    /\ (forall i j, 0 <= i < w -> 0 <= j < h ->
         exists c n,
           cast_ray fuel camera (pixel_dir i j w h) spheres lights 0 maxDepth
           = Some (c, n)
           /\ fb !! Z.to_nat (i + j * width) = Some c)
    /\ forall row, 0 <= row < h ->
         fb !! Z.to_nat (row * width + w) = Some Vec3f_default.
Proof.
  intros Hs Hm Hfuel w h.
  destruct (quot_scale (width * height) scale
              ltac:(unfold width, height; lia) ltac:(lia)) as [Hnq Hnb].
  destruct (quot_scale height scale ltac:(unfold height; lia) ltac:(lia))
    as [Hhq _].
  pose proof (frame_size scale ltac:(lia)) as Hsize.
  rewrite <- Hnq, <- Hhq in Hsize. rewrite <- Hnq in Hnb. fold h in Hsize.
  set (n := Z.quot (width * height) scale) in *.
  assert (Hn64 : to_size_t n = n).
  { apply to_size_t_small. unfold width, height in Hnb. split; [lia|].
    apply Z.le_lt_trans with (1024 * 768); [lia|reflexivity]. }
  assert (Hnew : new_framebuffer n = Done (replicate (Z.to_nat n) Vec3f_default)).
  { unfold new_framebuffer. rewrite Hn64.
    destruct (Z.ltb_spec vector_max_size n) as [Hbig|_]; [|reflexivity].
    exfalso. unfold width, height in Hnb.
    assert (1024 * 768 < vector_max_size) by reflexivity. lia. }
  destruct (fill_framebuffer_spec fuel spheres lights scale maxDepth
              (replicate (Z.to_nat n) Vec3f_default)
              ltac:(lia) Hm Hfuel) as (fb & Hfill & Hlen & Hpix & Hrest).
  { rewrite length_replicate. fold n. lia. }
  rewrite length_replicate in Hlen.
  exists fb. split; [|split; [|split]].
  - unfold render, int_div.
    destruct (Z.eqb_spec scale 0) as [?|_]; [lia|]. cbn [obind]. fold n.
    rewrite Hnew. cbn [obind]. rewrite Hfill. reflexivity.
  - rewrite Hlen. lia.
  - exact Hpix.
  - intros row Hrow.
    destruct (scale_bounds scale Hs) as (Hw & _). fold w in Hw.
    rewrite Hrest.
    + apply lookup_replicate_2. unfold width in *. lia.
    + intros i j Hi Hj. fold w in Hi. rewrite Z2Nat.id by (unfold width; lia).
      unfold width. lia.
Qed.

(** An undefined conversion in the framebuffer that render filled is
    one of a shading result. *)
Lemma undefined_pixel_traced {A : Arith} (fuel : nat) (spheres : list Sphere)
  (lights : list Light) (scale maxDepth : Z) (fb : list Vec3f) :
  (forall i j, 0 <= i < Z.quot width scale -> 0 <= j < Z.quot height scale ->
     exists c n,
       cast_ray fuel camera
                (pixel_dir i j (Z.quot width scale) (Z.quot height scale))
                spheres lights 0 maxDepth = Some (c, n)
       /\ fb !! Z.to_nat (i + j * width) = Some c) ->
  undefined_pixel fb scale ->
  undefined_conversion fuel spheres lights scale maxDepth.
Proof.
  intros Hpix (row & col & px & Hrow & Hcol & Hpx & Hbad).
  destruct (Hpix col row Hcol Hrow) as (c & n & Hc & Hfb).
  rewrite Z.add_comm in Hfb. rewrite Hfb in Hpx. injection Hpx as ->.
  exists row, col, px, n.
  split; [exact Hrow|]. split; [exact Hcol|]. split; [exact Hc | exact Hbad].
Qed.

(** X2. From scale 2 on the only undefined behaviour of render is a
    conversion of a colour to unsigned char: with a depth cap that is a
    non-negative int and enough call stack, the framebuffer is allocated,
    every read and write of the two pairs of loops is inside it and no
    division is by zero.  Either render returns, after at most
    (height/scale) * (width/scale + 1) calls of DrawRectangle, every
    rectangle lying inside the window and being [scale] high when the
    scale divides the width; or the shading result of some pixel,
    corrected once or twice, has a component whose product with 255
    truncates to a value outside 0..255 (negative, too large, infinite
    or NaN), and converting it is undefined behaviour. *)
Theorem render_in_bounds {A : Arith} (fuel : nat) (spheres : list Sphere)
  (lights : list Light) (scale maxDepth : Z) :
  2 <= scale -> 0 <= maxDepth < 2 ^ 31 -> maxDepth + 2 <= Z.of_nat fuel ->
  (exists rects,
     render fuel spheres lights scale maxDepth = Done rects
     /\ Z.of_nat (length rects)
        <= Z.quot height scale * (Z.quot width scale + 1)
     /\ (Z.quot width scale * scale = width ->
         Forall (inside_window scale) rects))
  \/ (render fuel spheres lights scale maxDepth = Undefined
      /\ undefined_conversion fuel spheres lights scale maxDepth).
Proof.
  intros Hs Hm Hfuel.
  destruct (render_through_fill fuel spheres lights scale maxDepth Hs Hm Hfuel)
    as (fb & Hrender & Hlen & Hpix & _).
  rewrite Hrender.
  destruct (safe_rows fb scale Hs Hlen)
    as [(rects & Hdraw & HQ & Hcount) | [Hdraw Hbad]].
  - left. exists rects. split; [exact Hdraw|]. split; [exact Hcount|].
    intros Hdiv. apply List.Forall_impl with (2 := HQ).
    intros r Hr. exact (Hr Hdiv).
  - right. split; [exact Hdraw|].
    exact (undefined_pixel_traced fuel spheres lights scale maxDepth fb Hpix Hbad).
Qed.

Lemma render_in_bounds_witness :
  render (A := IEEE_basic) 6 [] [] 512 4
  = Done [mkRect 0 0 512 512 (mkColor 51 178 204 255);
          mkRect 0 0 1024 512 (mkColor 51 178 204 255)]
  /\ ((exists rects,
         render (A := IEEE_basic) 6 [] [] 512 4 = Done rects
         /\ Z.of_nat (length rects)
            <= Z.quot height 512 * (Z.quot width 512 + 1)
         /\ (Z.quot width 512 * 512 = width ->
             Forall (inside_window 512) rects))
      \/ (render (A := IEEE_basic) 6 [] [] 512 4 = Undefined
          /\ undefined_conversion (A := IEEE_basic) 6 [] [] 512 4)).
Proof.
  split; [vm_compute; reflexivity|].
  apply (render_in_bounds (A := IEEE_basic) 6 [] [] 512 4); lia.
Defined.

(** X3. From scale 2 on, the element that the loop over the columns
    reads at col = width/scale, after the last pixel of a row, is one
    that the first pair of loops never writes: it still holds the
    Vec3f() of the allocation.  The run that reaches the end of a row is
    therefore compared with black, not with a pixel of the frame. *)
Theorem column_after_row_unwritten {A : Arith} (fuel : nat)
  (spheres : list Sphere) (lights : list Light) (scale maxDepth : Z) :
  2 <= scale -> 0 <= maxDepth < 2 ^ 31 -> maxDepth + 2 <= Z.of_nat fuel ->
  let n := Z.quot (width * height) scale in
  exists fb,
    fill_framebuffer fuel spheres lights scale maxDepth
      (replicate (Z.to_nat n) Vec3f_default) = Done fb
    /\ forall row, 0 <= row < Z.quot height scale ->
         fb_read fb (row * width + Z.quot width scale) = Done Vec3f_default.
Proof.
  intros Hs Hm Hfuel n.
  destruct (quot_scale (width * height) scale
              ltac:(unfold width, height; lia) ltac:(lia)) as [Hnq Hnb].
  destruct (quot_scale height scale ltac:(unfold height; lia) ltac:(lia))
    as [Hhq Hhb].
  destruct (quot_scale width scale ltac:(unfold width; lia) ltac:(lia))
    as [Hwq Hwb].
  pose proof (frame_size scale ltac:(lia)) as Hsize.
  rewrite <- Hnq, <- Hhq in Hsize. rewrite <- Hnq in Hnb.
  rewrite <- Hhq in Hhb. rewrite <- Hwq in Hwb. fold n in Hsize, Hnb.
  assert (Hw : Z.quot width scale <= 512).
  { rewrite Hwq. unfold width. apply Z.div_le_upper_bound; lia. }
  destruct (fill_framebuffer_spec fuel spheres lights scale maxDepth
              (replicate (Z.to_nat n) Vec3f_default)
              ltac:(lia) Hm Hfuel) as (fb & Hfill & Hlen & _ & Hrest).
  { rewrite length_replicate. fold n. lia. }
  exists fb. split; [exact Hfill|].
  intros row Hrow. unfold fb_read.
  set (w := Z.quot width scale) in *. set (h := Z.quot height scale) in *.
  assert (Hidx : 0 <= row * width + w < n) by (unfold width in *; lia).
  rewrite to_size_t_small.
  - rewrite Hrest.
    + rewrite lookup_replicate_2 by lia. reflexivity.
    + intros i j Hi Hj. rewrite Z2Nat.id by lia. unfold width. lia.
  - split; [lia|]. unfold width, height in *.
    apply Z.le_lt_trans with (1024 * 768); [lia|reflexivity].
Qed.

Lemma column_after_row_unwritten_witness :
  exists fb,
    fill_framebuffer (A := IEEE_basic) 6 [] [] 8 4
      (replicate (Z.to_nat (Z.quot (width * height) 8)) Vec3f_default) = Done fb
    /\ forall row, 0 <= row < Z.quot height 8 ->
         fb_read fb (row * width + Z.quot width 8) = Done Vec3f_default.
Proof.
  apply (column_after_row_unwritten (A := IEEE_basic) 6 [] [] 8 4); lia.
Defined.

(** *** Scales that divide the width: the runs *)

Section CompressorRuns.
Context {A : Arith}.
Variables (fb : list Vec3f) (scale : Z).
Let w : Z := Z.quot width scale.
Let h : Z := Z.quot height scale.

Hypothesis Hscale : 2 <= scale.
Hypothesis Hdiv : w * scale = width.
Hypothesis Hlen : h * width <= Z.of_nat (length fb).

(** The pixel of [row] at column [col]. *)
Let pix (row col : Z) : option Vec3f := fb !! Z.to_nat (row * width + col).

(** The columns [a, b) of [row] belong to one run of colour [cur]. *)
Let is_run (row a b : Z) (cur : Vec3f) : Prop :=
  0 <= a <= b /\ b <= w
  /\ forall col, a <= col < b -> exists px, pix row col = Some px /\ same_run px cur.

(** [k] is the Color of the colour [cur] corrected once, or twice (for
    the rectangle drawn at the column after the row). *)
Let run_color (cur : Vec3f) (k : Color) : Prop :=
  to_Color (color_correct cur) = Done k
  \/ to_Color (color_correct (color_correct cur)) = Done k.

(** A rectangle that covers the columns of one run of a row, in the
    Color of the run. *)
Let sound (r : Rect) : Prop :=
  exists row a b cur k,
    0 <= row < h /\ r = run_rect scale row a b k /\ run_color cur k
    /\ is_run row a b cur.

(** The columns before [k0] of [row] are covered. *)
Let covered (row : Z) (drawn : list Rect) (k0 : Z) : Prop :=
  forall col, 0 <= col < k0 ->
    exists a b cur k,
      to_Color (color_correct cur) = Done k
      /\ In (run_rect scale row a b k) drawn
      /\ is_run row a b cur /\ a <= col < b.

(** The last column of [row] is covered by a rectangle that reaches the
    end of the row. *)
Let last_drawn (row : Z) (drawn : list Rect) : Prop :=
  exists a cur k,
    0 <= a <= w - 1 /\ is_run row a w cur /\ run_color cur k
    /\ In (run_rect scale row a w k) drawn.

(** The run of the last pixel of [row], as it is or corrected, compares
    equal to the element [u] read after the row. *)
Let last_equal (row : Z) (u : Vec3f) : Prop :=
  exists cur px,
    pix row (w - 1) = Some px /\ same_run px cur
    /\ (color_differs u cur = false
        \/ color_differs u (color_correct cur) = false).

Lemma runs_bounds : 1 <= w <= 512 /\ 0 <= h <= 384.
Proof.
  destruct (scale_bounds scale Hscale) as (Hw & Hh & _). fold w in Hw. fold h in Hh.
  split; [|exact Hh]. unfold width in Hdiv. split; [nia|lia].
Qed.

Lemma read_pix (row col : Z) :
  0 <= row < h -> 0 <= col <= w ->
  exists px, pix row col = Some px /\ fb_read fb (row * width + col) = Done px.
Proof.
  intros Hr Hc. destruct runs_bounds as (Hw & Hh).
  unfold fb_read, pix. rewrite to_size_t_small.
  - destruct (lookup_lt_is_Some_2 fb (Z.to_nat (row * width + col)))
      as [px Hpx]; [unfold width in *; lia|].
    exists px. rewrite Hpx. split; reflexivity.
  - unfold width in *. split; [lia|].
    apply Z.lt_trans with (384 * 1024); [lia|reflexivity].
Qed.

(** One iteration of the loop over the columns, for a run that starts at
    column [c] of the row. *)
Lemma column_step_run (row col c : Z) (px : Vec3f) (st : RunState) :
  0 <= row < h -> 0 <= col <= w -> 0 <= c < w ->
  rs_startIdx st = row * width + c ->
  fb_read fb (row * width + col) = Done px ->
  column_step fb scale (row * width) col st
  = if (col =? w - 1) || color_differs px (rs_currentColor st)
    then
      do k <- to_Color (color_correct (rs_currentColor st));
      let drawn := run_rect scale row c col k :: rs_drawn st in
      Done (if color_differs px (rs_currentColor st)
            then mkRunState (row * width + col) px drawn
            else mkRunState (row * width + c)
                            (color_correct (rs_currentColor st)) drawn)
    else Done st.
Proof.
  intros Hr Hc Hcw Hstart Hread. destruct runs_bounds as (Hw & Hh).
  rewrite (column_step_read fb scale (row * width) col st px
             ltac:(lia) ltac:(fold w; lia) Hread).
  fold w.
  assert (Hx : Z.rem (rs_startIdx st) width = c).
  { rewrite Hstart, Z.rem_mod_nonneg by (unfold width; lia).
    rewrite Z.add_comm, Z.mod_add by discriminate.
    apply Z.mod_small. unfold width. lia. }
  assert (Hy : Z.quot (rs_startIdx st) width = row).
  { rewrite Hstart, Z.quot_div_nonneg by (unfold width; lia).
    rewrite Z.add_comm, Z.div_add by discriminate.
    rewrite Z.div_small by (unfold width; lia). lia. }
  assert (Hxw : Z.rem (rs_startIdx st) w = c).
  { rewrite Hstart, Z.rem_mod_nonneg by (unfold width; lia).
    rewrite <- Hdiv.
    replace (row * (w * scale) + c) with (c + row * scale * w) by ring.
    rewrite Z.mod_add by lia. apply Z.mod_small. lia. }
  rewrite Hx, Hy, Hxw. unfold run_rect. rewrite Hstart. reflexivity.
Qed.

Lemma covered_mono (row : Z) (d1 d2 : list Rect) (k1 k2 : Z) :
  (forall r, In r d1 -> In r d2) -> k2 <= k1 ->
  covered row d1 k1 -> covered row d2 k2.
Proof.
  intros Hincl Hk Hcov col Hcol.
  destruct (Hcov col ltac:(lia)) as (a & b & cur & k & Hconv & Hin & Hrun & Hab).
  exists a, b, cur, k. split; [exact Hconv|].
  split; [apply Hincl; exact Hin|]. split; assumption.
Qed.

(** Drawing the run [c, col) extends what is covered to [col]. *)
Lemma covered_extend (row c col : Z) (cur : Vec3f) (k : Color)
  (drawn : list Rect) :
  to_Color (color_correct cur) = Done k ->
  is_run row c col cur -> covered row drawn c ->
  covered row (run_rect scale row c col k :: drawn) col.
Proof.
  intros Hconv Hrun Hcov j Hj.
  destruct (Z.lt_ge_cases j c) as [Hlt|Hge].
  - destruct (Hcov j ltac:(lia)) as (a & b & cur' & k' & Hconv' & Hin & Hrun' & Hab).
    exists a, b, cur', k'. split; [exact Hconv'|].
    split; [right; exact Hin|]. split; assumption.
  - exists c, col, cur, k. split; [exact Hconv|].
    split; [left; reflexivity|]. split; [exact Hrun|lia].
Qed.

(** The state of the loop over the columns of [row] before column [col]:
    a run of colour [cur] that starts at column [c], everything before
    it covered, every rectangle that of a run. *)
Let run_inv (drawn0 : list Rect) (row col : Z) (st : RunState) : Prop :=
  exists c,
    rs_startIdx st = row * width + c /\ 0 <= c <= Z.max 0 (col - 1)
    /\ pix row c = Some (rs_currentColor st)
    /\ is_run row c col (rs_currentColor st)
    /\ covered row (rs_drawn st) c
    /\ Forall sound (rs_drawn st)
    /\ (forall r, In r drawn0 -> In r (rs_drawn st)).

Lemma is_run_grow (row c col : Z) (cur px : Vec3f) :
  0 <= col < w -> c <= col ->
  is_run row c col cur -> pix row col = Some px -> same_run px cur ->
  is_run row c (col + 1) cur.
Proof.
  intros Hc Hcc (Hab & Hb & Hrun) Hpx Hsame.
  split; [lia|]. split; [lia|].
  intros j Hj. destruct (Z.eq_dec j col) as [->|Hne].
  - exists px. split; assumption.
  - apply Hrun. lia.
Qed.

(** A colour of a pixel whose conversion is undefined. *)
Lemma undefined_at (row c : Z) (cur : Vec3f) :
  0 <= row < h -> 0 <= c < w -> pix row c = Some cur ->
  to_Color (color_correct cur) = Undefined
  \/ to_Color (color_correct (color_correct cur)) = Undefined ->
  undefined_pixel fb scale.
Proof.
  intros Hr Hc Hpx Hbad. exists row, c, cur. fold w h.
  split; [exact Hr|]. split; [exact Hc|]. split; [exact Hpx | exact Hbad].
Qed.

(** The columns before the last one. *)
Lemma run_column (drawn0 : list Rect) (row col : Z) (st : RunState) :
  0 <= row < h -> 0 <= col < w - 1 -> run_inv drawn0 row col st ->
  (exists st', column_step fb scale (row * width) col st = Done st'
               /\ run_inv drawn0 row (col + 1) st')
  \/ (column_step fb scale (row * width) col st = Undefined
      /\ undefined_pixel fb scale).
Proof.
  intros Hr Hc (c & Hstart & Hcb & Hcur & Hrun & Hcov & Hsnd & Hincl).
  destruct runs_bounds as (Hw & Hh).
  destruct (read_pix row col Hr ltac:(lia)) as (px & Hpx & Hread).
  rewrite (column_step_run row col c px st Hr ltac:(lia) ltac:(lia) Hstart Hread).
  destruct (Z.eqb_spec col (w - 1)) as [?|_]; [lia|]. cbn [orb].
  destruct (color_differs px (rs_currentColor st)) eqn:Hdiff.
  - destruct (to_Color_cases (color_correct (rs_currentColor st)))
      as [[k Hk] | Hk]; rewrite Hk; cbn [obind]; cbv zeta.
    + left. eexists. split; [reflexivity|].
      exists col. cbn [rs_startIdx rs_currentColor rs_drawn].
      split; [reflexivity|]. split; [lia|]. split; [exact Hpx|].
      split; [|split; [|split]].
      * split; [lia|]. split; [lia|]. intros j Hj. assert (j = col) as -> by lia.
        exists px. split; [exact Hpx | left; reflexivity].
      * apply covered_extend with (rs_currentColor st); assumption.
      * constructor; [|exact Hsnd].
        exists row, c, col, (rs_currentColor st), k.
        split; [exact Hr|]. split; [reflexivity|].
        split; [left; exact Hk | exact Hrun].
      * intros r Hin. right. apply Hincl. exact Hin.
    + right. split; [reflexivity|].
      apply (undefined_at row c (rs_currentColor st) Hr ltac:(lia) Hcur).
      left. exact Hk.
  - left. exists st. split; [reflexivity|].
    exists c. split; [exact Hstart|]. split; [lia|]. split; [exact Hcur|].
    split; [|split; [|split]]; try assumption.
    apply is_run_grow with px; try assumption; try lia.
    right. exact Hdiff.
Qed.

(** What a whole row leaves behind: every column but the last is
    covered, whatever the element after the row holds; the last column
    is covered unless its run compares equal to that element. *)
Lemma run_row (row : Z) (drawn : list Rect) :
  0 <= row < h -> Forall sound drawn ->
  (exists drawn', row_step fb scale row drawn = Done drawn'
                  /\ covered row drawn' (w - 1)
                  /\ Forall sound drawn'
                  /\ (forall r, In r drawn -> In r drawn')
                  /\ exists u, pix row w = Some u
                               /\ (last_drawn row drawn' \/ last_equal row u))
  \/ (row_step fb scale row drawn = Undefined /\ undefined_pixel fb scale).
Proof.
  intros Hr Hsnd. destruct runs_bounds as (Hw & Hh).
  unfold row_step.
  destruct (read_pix row 0 Hr ltac:(lia)) as (p0 & Hp0 & Hread0).
  rewrite Z.add_0_r in Hread0. rewrite Hread0. cbn [obind].
  unfold int_div.
  destruct (Z.eqb_spec scale 0) as [?|_]; [lia|]. cbn [obind]. fold w.
  replace (Z.to_nat (w + 1)) with (Z.to_nat (w - 1) + 2)%nat by lia.
  rewrite for_range_app.
  destruct (for_range_inv_or (run_inv drawn row) (undefined_pixel fb scale)
              (column_step fb scale (row * width)) (Z.to_nat (w - 1)) 0
              (mkRunState (row * width) p0 drawn))
    as [(st & Hrun1 & (c & Hstart & Hcb & Hcur & Hrun & Hcov & Hsnd1 & Hincl))
       | [Hrun1 Hbad]].
  { exists 0. cbn [rs_startIdx rs_currentColor rs_drawn].
    split; [lia|]. split; [lia|]. split; [exact Hp0|].
    split; [|split; [|split]].
    - split; [lia|]. split; [lia|]. intros j Hj. lia.
    - intros j Hj. lia.
    - exact Hsnd.
    - auto. }
  { intros col s Hc Hinv. apply run_column; [exact Hr|lia|exact Hinv]. }
  2: { right. rewrite Hrun1. split; [reflexivity | exact Hbad]. }
  rewrite Hrun1. cbn [obind].
  replace (0 + Z.of_nat (Z.to_nat (w - 1))) with (w - 1) in * by lia.
  cbn [for_range].
  (* the last column *)
  destruct (read_pix row (w - 1) Hr ltac:(lia)) as (px & Hpx & Hread).
  rewrite (column_step_run row (w - 1) c px st Hr ltac:(lia) ltac:(lia) Hstart Hread).
  rewrite Z.eqb_refl. cbn [orb].
  destruct (to_Color_cases (color_correct (rs_currentColor st)))
    as [[k1 Hk1] | Hk1]; rewrite Hk1; cbn [obind]; cbv zeta.
  2: { right. split; [reflexivity|].
       apply (undefined_at row c (rs_currentColor st) Hr ltac:(lia) Hcur).
       left. exact Hk1. }
  replace (w - 1 + 1) with w by lia.
  destruct (read_pix row w Hr ltac:(lia)) as (u & Hu0 & Hreadu).
  assert (Hsound1 : sound (run_rect scale row c (w - 1) k1)).
  { exists row, c, (w - 1), (rs_currentColor st), k1.
    split; [exact Hr|]. split; [reflexivity|].
    split; [left; exact Hk1 | exact Hrun]. }
  pose proof (covered_extend row c (w - 1) _ k1 _ Hk1 Hrun Hcov) as Hcov1.
  destruct (color_differs px (rs_currentColor st)) eqn:Hdiff.
  - (* the last pixel starts a run of its own *)
    match goal with
    | |- context [column_step fb scale (row * width) w ?s] =>
      rewrite (column_step_run row w (w - 1) u s Hr ltac:(lia) ltac:(lia)
                 eq_refl Hreadu)
    end.
    destruct (Z.eqb_spec w (w - 1)) as [?|_]; [lia|].
    cbn [orb obind rs_currentColor rs_drawn].
    assert (Hlast : is_run row (w - 1) w px).
    { split; [lia|]. split; [lia|]. intros j Hj. assert (j = w - 1) as -> by lia.
      exists px. split; [exact Hpx | left; reflexivity]. }
    destruct (color_differs u px) eqn:Hu.
    + destruct (to_Color_cases (color_correct px)) as [[k2 Hk2] | Hk2];
        rewrite Hk2; cbn [obind rs_drawn]; cbv zeta.
      * left. eexists. split; [reflexivity|]. cbn [rs_drawn].
        split; [|split; [|split]].
        -- apply covered_mono with (2 := Z.le_refl _) (3 := Hcov1).
           intros r Hin. right. exact Hin.
        -- constructor; [|constructor; assumption].
           exists row, (w - 1), w, px, k2.
           split; [exact Hr|]. split; [reflexivity|].
           split; [left; exact Hk2 | exact Hlast].
        -- intros r Hin. right. right. apply Hincl. exact Hin.
        -- exists u. split; [exact Hu0|]. left.
           exists (w - 1), px, k2. split; [lia|]. split; [exact Hlast|].
           split; [left; exact Hk2 | left; reflexivity].
      * right. split; [reflexivity|].
        apply (undefined_at row (w - 1) px Hr ltac:(lia) Hpx).
        left. exact Hk2.
    + left. cbn [obind rs_drawn]. eexists. split; [reflexivity|]. cbn [rs_drawn].
      split; [exact Hcov1|]. split; [constructor; assumption|].
      split; [intros r Hin; right; apply Hincl; exact Hin|].
      exists u. split; [exact Hu0|]. right.
      exists px, px. split; [exact Hpx|]. split; [left; reflexivity|].
      left. exact Hu.
  - (* the run reaches the end of the row *)
    match goal with
    | |- context [column_step fb scale (row * width) w ?s] =>
      rewrite (column_step_run row w c u s Hr ltac:(lia) ltac:(lia)
                 eq_refl Hreadu)
    end.
    destruct (Z.eqb_spec w (w - 1)) as [?|_]; [lia|].
    cbn [orb obind rs_currentColor rs_drawn].
    assert (Hfull : is_run row c w (rs_currentColor st)).
    { replace w with (w - 1 + 1) at 1 by lia.
      apply is_run_grow with px; try assumption; try lia.
      right. exact Hdiff. }
    destruct (color_differs u (color_correct (rs_currentColor st))) eqn:Hu.
    + destruct (to_Color_cases (color_correct (color_correct (rs_currentColor st))))
        as [[k2 Hk2] | Hk2]; rewrite Hk2; cbn [obind rs_drawn]; cbv zeta.
      * left. eexists. split; [reflexivity|]. cbn [rs_drawn].
        split; [|split; [|split]].
        -- apply covered_mono with (2 := Z.le_refl _) (3 := Hcov1).
           intros r Hin. right. exact Hin.
        -- constructor; [|constructor; assumption].
           exists row, c, w, (rs_currentColor st), k2.
           split; [exact Hr|]. split; [reflexivity|].
           split; [right; exact Hk2 | exact Hfull].
        -- intros r Hin. right. right. apply Hincl. exact Hin.
        -- exists u. split; [exact Hu0|]. left.
           exists c, (rs_currentColor st), k2. split; [lia|].
           split; [exact Hfull|]. split; [right; exact Hk2 | left; reflexivity].
      * right. split; [reflexivity|].
        apply (undefined_at row c (rs_currentColor st) Hr ltac:(lia) Hcur).
        right. exact Hk2.
    + left. cbn [obind rs_drawn]. eexists. split; [reflexivity|]. cbn [rs_drawn].
      split; [exact Hcov1|]. split; [constructor; assumption|].
      split; [intros r Hin; right; apply Hincl; exact Hin|].
      exists u. split; [exact Hu0|]. right.
      exists (rs_currentColor st), px. split; [exact Hpx|].
      split; [right; exact Hdiff|]. right. exact Hu.
Qed.

Lemma last_drawn_mono (row : Z) (d1 d2 : list Rect) :
  (forall r, In r d1 -> In r d2) -> last_drawn row d1 -> last_drawn row d2.
Proof.
  intros Hincl (a & cur & k & Ha & Hrun & Hk & Hin).
  exists a, cur, k. split; [exact Ha|]. split; [exact Hrun|].
  split; [exact Hk | apply Hincl; exact Hin].
Qed.

Lemma run_rows :
  (exists rects, draw_rows fb scale = Done rects
                 /\ (forall row, 0 <= row < h -> covered row rects (w - 1))
                 /\ Forall sound rects
                 /\ (forall row, 0 <= row < h ->
                       exists u, pix row w = Some u
                                 /\ (last_drawn row rects \/ last_equal row u)))
  \/ (draw_rows fb scale = Undefined /\ undefined_pixel fb scale).
Proof.
  destruct runs_bounds as (Hw & Hh).
  unfold draw_rows, int_div.
  destruct (Z.eqb_spec scale 0) as [?|_]; [lia|]. cbn [obind]. fold h.
  destruct (for_range_inv_or
              (fun k drawn =>
                 (forall row, 0 <= row < k -> covered row drawn (w - 1))
                 /\ Forall sound drawn
                 /\ (forall row, 0 <= row < k ->
                       exists u, pix row w = Some u
                                 /\ (last_drawn row drawn \/ last_equal row u)))
              (undefined_pixel fb scale)
              (row_step fb scale) (Z.to_nat h) 0 [])
    as [(drawn & Hrun & Hcov & Hsnd & Hlast) | [Hrun Hbad]].
  - split; [intros row Hrow; lia|]. split; [constructor|].
    intros row Hrow. lia.
  - intros row drawn Hr (Hcov & Hsnd & Hlast).
    destruct (run_row row drawn ltac:(lia) Hsnd)
      as [(drawn' & Hd & Hcov' & Hsnd' & Hincl & Hlast') | [Hd Hbad]];
      [left | right; split; [exact Hd | exact Hbad]].
    exists drawn'. split; [exact Hd|]. split; [|split; [exact Hsnd'|]].
    + intros row' Hrow'. destruct (Z.eq_dec row' row) as [->|Hne].
      * exact Hcov'.
      * apply covered_mono with (1 := Hincl) (2 := Z.le_refl _).
        apply Hcov. lia.
    + intros row' Hrow'. destruct (Z.eq_dec row' row) as [->|Hne].
      * exact Hlast'.
      * destruct (Hlast row' ltac:(lia)) as (u & Hu & Hor).
        exists u. split; [exact Hu|].
        destruct Hor as [Hd' | He]; [left | right; exact He].
        apply last_drawn_mono with (1 := Hincl). exact Hd'.
  - left. rewrite Hrun. cbn [obind]. eexists. split; [reflexivity|].
    assert (Hrev : forall r, In r drawn -> In r (rev drawn))
      by (intros r Hin; apply in_rev in Hin; exact Hin).
    split; [|split].
    + intros row Hrow.
      apply covered_mono with (1 := Hrev) (2 := Z.le_refl _).
      apply Hcov. lia.
    + apply Forall_rev. exact Hsnd.
    + intros row Hrow. destruct (Hlast row ltac:(lia)) as (u & Hu & Hor).
      exists u. split; [exact Hu|].
      destruct Hor as [Hd' | He]; [left | right; exact He].
      apply last_drawn_mono with (1 := Hrev). exact Hd'.
  - right. rewrite Hrun. split; [reflexivity | exact Hbad].
Qed.

End CompressorRuns.

(** X4. When the scale is at least 2 and divides the width, render
    draws every pixel but those of the last column, unless a conversion
    of a colour to unsigned char is undefined.  Either render returns,
    and for the pixel at column col < width/scale - 1 of a row one of the
    rectangles drawn covers the columns [a, b) of that row with
    a <= col < b, is [scale] high at y = row * scale, and has the Color of
    the corrected run colour, a colour that the pixel's cast_ray result
    is, or compares equal to; or the shading result of some pixel,
    corrected once or twice, has a component that 255 times it truncates
    outside 0..255, and render is undefined behaviour. *)
Theorem render_covers_pixels {A : Arith} (fuel : nat) (spheres : list Sphere)
  (lights : list Light) (scale maxDepth : Z) :
  2 <= scale -> Z.quot width scale * scale = width ->
  0 <= maxDepth < 2 ^ 31 -> maxDepth + 2 <= Z.of_nat fuel ->
  let w := Z.quot width scale in
  let h := Z.quot height scale in
  (exists rects,
     render fuel spheres lights scale maxDepth = Done rects
     /\ forall row col, 0 <= row < h -> 0 <= col < w - 1 ->
          exists px calls a b cur k,
            cast_ray fuel camera (pixel_dir col row w h) spheres lights 0 maxDepth
            = Some (px, calls)
            /\ to_Color (color_correct cur) = Done k
            /\ In (run_rect scale row a b k) rects
            /\ 0 <= a <= col /\ col < b <= w
            /\ same_run px cur)
  \/ (render fuel spheres lights scale maxDepth = Undefined
      /\ undefined_conversion fuel spheres lights scale maxDepth).
Proof.
  intros Hs Hdiv Hm Hfuel w h.
  destruct (render_through_fill fuel spheres lights scale maxDepth Hs Hm Hfuel)
    as (fb & Hrender & Hlen & Hpix & Hblack).
  rewrite Hrender.
  destruct (run_rows fb scale Hs Hdiv Hlen)
    as [(rects & Hdraw & Hcov & _ & _) | [Hdraw Hbad]].
  2: { right. split; [exact Hdraw|].
       exact (undefined_pixel_traced fuel spheres lights scale maxDepth fb
                Hpix Hbad). }
  left. exists rects. split; [exact Hdraw|].
  intros row col Hrow Hcol.
  destruct (Hcov row Hrow col Hcol)
    as (a & b & cur & k & Hk & Hin & ((Ha & Hb & Hrun) & Hab)).
  destruct (Hrun col Hab) as (px & Hpx & Hsame).
  destruct (Hpix col row ltac:(fold w; lia) Hrow) as (c & n & Hc & Hfb).
  rewrite Z.add_comm in Hfb. rewrite Hfb in Hpx. injection Hpx as ->.
  exists px, n, a, b, cur, k.
  split; [exact Hc|]. split; [exact Hk|]. split; [exact Hin|]. fold w in Hb.
  split; [lia|]. split; [lia|exact Hsame].
Qed.

Lemma render_covers_pixels_witness :
  exists rects,
    render (A := IEEE_basic) 6 [] [] 512 4 = Done rects
    /\ forall row col, 0 <= row < Z.quot height 512 ->
         0 <= col < Z.quot width 512 - 1 ->
         exists px calls a b cur k,
           cast_ray (A := IEEE_basic) 6 camera
                    (pixel_dir col row (Z.quot width 512) (Z.quot height 512))
                    [] [] 0 4 = Some (px, calls)
           /\ to_Color (color_correct cur) = Done k
           /\ In (run_rect 512 row a b k) rects
           /\ 0 <= a <= col /\ col < b <= Z.quot width 512
           /\ same_run px cur.
Proof.
  destruct (render_covers_pixels (A := IEEE_basic) 6 [] [] 512 4
              ltac:(lia) eq_refl ltac:(lia) ltac:(lia)) as [H | [H _]];
    [exact H|].
  exfalso. vm_compute in H. discriminate H.
Defined.

(** X5. When the scale is at least 2 and divides the width, render
    draws nothing but runs, unless a conversion of a colour to unsigned
    char is undefined.  Either render returns, and every rectangle drawn
    covers columns [a, b) of one row, 0 <= a <= b <= width/scale, whose
    pixels all are the run colour or compare equal to it, and its Color
    is that of the run colour corrected once, or twice for the rectangle
    drawn at the column after the row; or the shading result of some
    pixel, corrected once or twice, has a component that 255 times it
    truncates outside 0..255, and render is undefined behaviour. *)
Theorem render_draws_runs {A : Arith} (fuel : nat) (spheres : list Sphere)
  (lights : list Light) (scale maxDepth : Z) :
  2 <= scale -> Z.quot width scale * scale = width ->
  0 <= maxDepth < 2 ^ 31 -> maxDepth + 2 <= Z.of_nat fuel ->
  let w := Z.quot width scale in
  let h := Z.quot height scale in
  (exists rects,
     render fuel spheres lights scale maxDepth = Done rects
     /\ Forall (fun r =>
          exists row a b cur k,
            0 <= row < h /\ 0 <= a <= b /\ b <= w
            /\ r = run_rect scale row a b k
            /\ (to_Color (color_correct cur) = Done k
                \/ to_Color (color_correct (color_correct cur)) = Done k)
            /\ forall col, a <= col < b ->
                 exists px calls,
                   cast_ray fuel camera (pixel_dir col row w h) spheres lights
                            0 maxDepth = Some (px, calls)
                   /\ same_run px cur) rects)
  \/ (render fuel spheres lights scale maxDepth = Undefined
      /\ undefined_conversion fuel spheres lights scale maxDepth).
Proof.
  intros Hs Hdiv Hm Hfuel w h.
  destruct (render_through_fill fuel spheres lights scale maxDepth Hs Hm Hfuel)
    as (fb & Hrender & Hlen & Hpix & Hblack).
  rewrite Hrender.
  destruct (run_rows fb scale Hs Hdiv Hlen)
    as [(rects & Hdraw & _ & Hsnd & _) | [Hdraw Hbad]].
  2: { right. split; [exact Hdraw|].
       exact (undefined_pixel_traced fuel spheres lights scale maxDepth fb
                Hpix Hbad). }
  left. exists rects. split; [exact Hdraw|].
  apply List.Forall_impl with (2 := Hsnd).
  intros r (row & a & b & cur & k & Hrow & Hr & Hk & (Ha & Hb & Hrun)).
  exists row, a, b, cur, k. fold w in Hb. fold h in Hrow.
  split; [exact Hrow|]. split; [exact Ha|]. split; [exact Hb|].
  split; [exact Hr|]. split; [exact Hk|].
  intros col Hcol. destruct (Hrun col Hcol) as (px & Hpx & Hsame).
  destruct (Hpix col row ltac:(fold w; lia) Hrow) as (c & n & Hc & Hfb).
  rewrite Z.add_comm in Hfb. rewrite Hfb in Hpx. injection Hpx as ->.
  exists px, n. split; [exact Hc | exact Hsame].
Qed.

Lemma render_draws_runs_witness :
  exists rects,
    render (A := IEEE_basic) 6 [] [] 512 4 = Done rects
    /\ Forall (fun r =>
         exists row a b cur k,
           0 <= row < Z.quot height 512 /\ 0 <= a <= b /\ b <= Z.quot width 512
           /\ r = run_rect 512 row a b k
           /\ (to_Color (color_correct cur) = Done k
               \/ to_Color (color_correct (color_correct cur)) = Done k)
           /\ forall col, a <= col < b ->
                exists px calls,
                  cast_ray (A := IEEE_basic) 6 camera
                           (pixel_dir col row (Z.quot width 512) (Z.quot height 512))
                           [] [] 0 4 = Some (px, calls)
                  /\ same_run px cur) rects.
Proof.
  destruct (render_draws_runs (A := IEEE_basic) 6 [] [] 512 4
              ltac:(lia) eq_refl ltac:(lia) ltac:(lia)) as [H | [H _]];
    [exact H|].
  exfalso. vm_compute in H. discriminate H.
Defined.

(** X6. When the scale is at least 2 and divides the width, the last
    column of a row is drawn unless its run compares equal to black, or
    a conversion of a colour to unsigned char is undefined.  Either
    render returns, and for every row either a rectangle that reaches the
    end of the row covers the columns [a, width/scale) of the run of the
    last pixel, in the Color of the run colour corrected once or twice,
    or that run colour, as it is or corrected, compares equal to the
    Vec3f() that the framebuffer holds after the row; or the shading
    result of some pixel, corrected once or twice, has a component that
    255 times it truncates outside 0..255, and render is undefined
    behaviour. *)
Theorem render_last_column {A : Arith} (fuel : nat) (spheres : list Sphere)
  (lights : list Light) (scale maxDepth : Z) :
  2 <= scale -> Z.quot width scale * scale = width ->
  0 <= maxDepth < 2 ^ 31 -> maxDepth + 2 <= Z.of_nat fuel ->
  let w := Z.quot width scale in
  let h := Z.quot height scale in
  (exists rects,
     render fuel spheres lights scale maxDepth = Done rects
     /\ forall row, 0 <= row < h ->
          (exists a cur k,
             0 <= a <= w - 1
             /\ (to_Color (color_correct cur) = Done k
                 \/ to_Color (color_correct (color_correct cur)) = Done k)
             /\ In (run_rect scale row a w k) rects
             /\ forall col, a <= col < w ->
                  exists px calls,
                    cast_ray fuel camera (pixel_dir col row w h) spheres lights
                             0 maxDepth = Some (px, calls)
                    /\ same_run px cur)
          \/ (exists cur px calls,
                cast_ray fuel camera (pixel_dir (w - 1) row w h) spheres lights
                         0 maxDepth = Some (px, calls)
                /\ same_run px cur
                /\ (color_differs Vec3f_default cur = false
                    \/ color_differs Vec3f_default (color_correct cur) = false)))
  \/ (render fuel spheres lights scale maxDepth = Undefined
      /\ undefined_conversion fuel spheres lights scale maxDepth).
Proof.
  intros Hs Hdiv Hm Hfuel. cbv zeta.
  destruct (render_through_fill fuel spheres lights scale maxDepth Hs Hm Hfuel)
    as (fb & Hrender & Hlen & Hpix & Hblack).
  rewrite Hrender.
  destruct (run_rows fb scale Hs Hdiv Hlen)
    as [(rects & Hdraw & _ & _ & Hlast) | [Hdraw Hbad]].
  2: { right. split; [exact Hdraw|].
       exact (undefined_pixel_traced fuel spheres lights scale maxDepth fb
                Hpix Hbad). }
  left.
  destruct (scale_bounds scale Hs) as (Hw & _).
  set (w := Z.quot width scale) in *. set (h := Z.quot height scale) in *.
  assert (Hw1 : 1 <= w) by (unfold width in Hdiv; nia).
  exists rects. split; [exact Hdraw|].
  intros row Hrow.
  assert (Hcast : forall col px, 0 <= col < w ->
            fb !! Z.to_nat (row * width + col) = Some px ->
            exists calls,
              cast_ray fuel camera (pixel_dir col row w h) spheres lights
                       0 maxDepth = Some (px, calls)).
  { intros col px Hcol Hpx.
    destruct (Hpix col row Hcol Hrow) as (c & n & Hc & Hfb).
    rewrite Z.add_comm in Hfb. rewrite Hfb in Hpx. injection Hpx as ->.
    exists n. exact Hc. }
  destruct (Hlast row Hrow) as (u & Hu & Hor).
  rewrite (Hblack row Hrow) in Hu. injection Hu as <-.
  destruct Hor as [(a & cur & k & Ha & (Hab & Hbw & Hrun) & Hk & Hin)
                  | (cur & px & Hpx & Hsame & Hcmp)].
  - left. exists a, cur, k.
    split; [exact Ha|]. split; [exact Hk|]. split; [exact Hin|].
    intros col Hcol. destruct (Hrun col Hcol) as (px & Hpx & Hsame).
    destruct (Hcast col px ltac:(lia) Hpx) as (calls & Hc).
    exists px, calls. split; [exact Hc | exact Hsame].
  - right.
    destruct (Hcast (w - 1) px ltac:(lia) Hpx) as (calls & Hc).
    exists cur, px, calls. split; [exact Hc|]. split; [exact Hsame | exact Hcmp].
Qed.

Lemma render_last_column_witness :
  exists rects,
    render (A := IEEE_basic) 6 [] [] 512 4 = Done rects
    /\ forall row, 0 <= row < Z.quot height 512 ->
         (exists a cur k,
            0 <= a <= Z.quot width 512 - 1
            /\ (to_Color (color_correct cur) = Done k
                \/ to_Color (color_correct (color_correct cur)) = Done k)
            /\ In (run_rect 512 row a (Z.quot width 512) k) rects
            /\ forall col, a <= col < Z.quot width 512 ->
                 exists px calls,
                   cast_ray (A := IEEE_basic) 6 camera
                            (pixel_dir col row (Z.quot width 512) (Z.quot height 512))
                            [] [] 0 4 = Some (px, calls)
                   /\ same_run px cur)
         \/ (exists cur px calls,
               cast_ray (A := IEEE_basic) 6 camera
                        (pixel_dir (Z.quot width 512 - 1) row
                                   (Z.quot width 512) (Z.quot height 512))
                        [] [] 0 4 = Some (px, calls)
               /\ same_run px cur
               /\ (color_differs Vec3f_default cur = false
                   \/ color_differs Vec3f_default (color_correct cur) = false)).
Proof.
  destruct (render_last_column (A := IEEE_basic) 6 [] [] 512 4
              ltac:(lia) eq_refl ltac:(lia) ltac:(lia)) as [H | [H _]];
    [exact H|].
  exfalso. vm_compute in H. discriminate H.
Defined.

(** ** cast_ray: the number of calls *)

(** X7. With a depth cap that is a non-negative int, cast_ray at depth
    [depth] returns within maxDepth + 2 - depth levels of call stack
    (one level when depth exceeds maxDepth), and the calls of cast_ray it
    makes below itself number at most 2^(k+1) - 2, where
    k = max 0 (maxDepth + 1 - depth): 62 for a primary ray at the
    largest depth cap of main, 4. *)
Theorem cast_ray_call_bound {A : Arith} (fuel : nat) (orig dir : Vec3f)
  (spheres : list Sphere) (lights : list Light) (depth maxDepth : Z) :
  0 <= maxDepth < 2 ^ 31 -> 0 <= depth ->
  Z.max 1 (maxDepth + 2 - depth) <= Z.of_nat fuel ->
  exists c n,
    cast_ray fuel orig dir spheres lights depth maxDepth = Some (c, n)
    /\ Z.of_nat n <= 2 ^ (Z.max 0 (maxDepth + 1 - depth) + 1) - 2.
Proof.
  intros Hm. revert orig dir depth.
  induction fuel as [|fuel IH]; intros orig dir depth Hd Hfuel; [lia|].
  assert (Hbase : 0 <= 2 ^ (Z.max 0 (maxDepth + 1 - depth) + 1) - 2).
  { assert (2 ^ 1 <= 2 ^ (Z.max 0 (maxDepth + 1 - depth) + 1))
      by (apply Z.pow_le_mono_r; lia).
    change (2 ^ 1) with 2 in *. lia. }
  rewrite cast_ray_unfold. rewrite depth_test_nonneg by exact Hm.
  destruct (maxDepth <? depth) eqn:Hcmp;
    [eexists _, _; split; [reflexivity | exact Hbase]|].
  apply Z.ltb_ge in Hcmp.
  destruct (scene_intersect orig dir spheres Outputs_default) as [found out].
  destruct found; cbn [negb];
    [|eexists _, _; split; [reflexivity | exact Hbase]].
  cbv zeta.
  assert (Hnext : to_size_t (depth + 1) = depth + 1).
  { apply to_size_t_small. split; [lia|].
    apply Z.lt_trans with (2 ^ 31 + 1); [lia|reflexivity]. }
  rewrite Hnext.
  match goal with
  | |- context [cast_ray fuel ?o ?d _ _ _ _] =>
    destruct (IH o d (depth + 1)) as (c1 & n1 & Hc1 & Hn1); [lia|lia|rewrite Hc1]
  end.
  match goal with
  | |- context [cast_ray fuel ?o ?d _ _ _ _] =>
    destruct (IH o d (depth + 1)) as (c2 & n2 & Hc2 & Hn2); [lia|lia|rewrite Hc2]
  end.
  destruct (lights_loop _ _ _ _ _ _) as [di si].
  eexists _, _. split; [reflexivity|].
  replace (Z.max 0 (maxDepth + 1 - (depth + 1))) with (maxDepth - depth) in * by lia.
  replace (Z.max 0 (maxDepth + 1 - depth) + 1) with (maxDepth - depth + 1 + 1) by lia.
  rewrite (Z.pow_add_r 2 (maxDepth - depth + 1) 1) by lia.
  change (2 ^ 1) with 2. lia.
Qed.

Lemma cast_ray_call_bound_witness :
  exists c n,
    cast_ray (A := IEEE_basic) 6 camera (pixel_dir 0 0 128 96) [] [] 0 4
    = Some (c, n)
    /\ Z.of_nat n <= 2 ^ (Z.max 0 (4 + 1 - 0) + 1) - 2.
Proof.
  apply (cast_ray_call_bound (A := IEEE_basic) 6 camera (pixel_dir 0 0 128 96)
           [] [] 0 4); lia.
Defined.

(** ** scene_intersect: the nearest sphere *)

(** X8. In any arithmetic whose comparison is irreflexive and
    transitive, binary32 included, the loop over the spheres of
    scene_intersect records a nearest hit: either no sphere is hit at a
    distance below the largest float and the outputs are untouched, or
    the distance and the outputs are those of a sphere of the list that
    ray_intersect reports hit at that distance, and ray_intersect reports
    no sphere of the list at a smaller distance. *)
Theorem spheres_loop_nearest {A : Arith} {laws : ArithLaws A}
  (orig dir : Vec3f) (spheres : list Sphere) (out0 : Outputs) :
  let r := spheres_loop orig dir spheres out0 in
  (r = (flt_max, out0)
   /\ forall s d, In s spheres ->
        ray_intersect s orig dir (f_of_int 0) = (true, d) ->
        (d <? flt_max)%fl = false)
  \/ (exists s, In s spheres
        /\ ray_intersect s orig dir (f_of_int 0) = (true, fst r)
        /\ (fst r <? flt_max)%fl = true
        /\ snd r = sphere_outputs orig dir s (fst r)
        /\ forall s' d, In s' spheres ->
             ray_intersect s' orig dir (f_of_int 0) = (true, d) ->
             (d <? fst r)%fl = false).
Proof.
  exact (spheres_fold_nearest orig dir spheres flt_max out0).
Qed.

Lemma spheres_loop_nearest_witness :
  let v := fun a b c : Z =>
    mkVec3f (A := IEEE_basic) (f_of_int a) (f_of_int b) (f_of_int c) in
  let s := mkSphere (v 0 0 (-16)) (f_of_int 2) MMaterial_default in
  let r := spheres_loop (v 0 0 0) (v 0 0 (-1)) [s] Outputs_default in
  (r = (flt_max, Outputs_default)
   /\ forall s' d, In s' [s] ->
        ray_intersect s' (v 0 0 0) (v 0 0 (-1)) (f_of_int 0) = (true, d) ->
        (d <? flt_max)%fl = false)
  \/ (exists s0, In s0 [s]
        /\ ray_intersect s0 (v 0 0 0) (v 0 0 (-1)) (f_of_int 0) = (true, fst r)
        /\ (fst r <? flt_max)%fl = true
        /\ snd r = sphere_outputs (v 0 0 0) (v 0 0 (-1)) s0 (fst r)
        /\ forall s' d, In s' [s] ->
             ray_intersect s' (v 0 0 0) (v 0 0 (-1)) (f_of_int 0) = (true, d) ->
             (d <? fst r)%fl = false).
Proof.
  intros v s.
  exact (spheres_loop_nearest (A := IEEE_basic) (laws := IEEE_laws _ _)
           (v 0 0 0) (v 0 0 (-1)) [s] Outputs_default).
Defined.

(** ** main: the keys and the angle *)

(** X9. The key handling of main on parameters it can hold: halving and
    doubling the scale undo each other (LEFT then RIGHT from a scale
    above 1, RIGHT then LEFT from a scale below 16), and so do DOWN and
    UP on the depth cap; when LEFT and RIGHT are both pressed LEFT wins
    at a scale above 1, and DOWN wins over UP at a depth cap above 1; at
    scale 1 LEFT does nothing and RIGHT takes effect, and at depth cap 1
    DOWN does nothing and UP takes effect. *)
Theorem update_params_round_trip (scale maxDepth : Z) :
  valid_params (scale, maxDepth) ->
  let press := fun (l r d u : bool) (p : Z * Z) =>
                 update_params l r d u (fst p) (snd p) in
  let p := (scale, maxDepth) in
  (1 < scale -> press false true false false (press true false false false p) = p)
  /\ (scale < 16 ->
      press true false false false (press false true false false p) = p)
  /\ (1 < maxDepth ->
      press false false false true (press false false true false p) = p)
  /\ (maxDepth < 4 ->
      press false false true false (press false false false true p) = p)
  /\ (1 < scale -> press true true false false p = press true false false false p)
  /\ (1 < maxDepth ->
      press false false true true p = press false false true false p)
  /\ (scale = 1 -> press true true false false p = press false true false false p)
  /\ (maxDepth = 1 ->
      press false false true true p = press false false false true p).
Proof.
  intros [Hs Hd]. cbn in Hs, Hd.
  assert (Hd' : maxDepth = 1 \/ maxDepth = 2 \/ maxDepth = 3 \/ maxDepth = 4) by lia.
  cbv zeta.
  destruct Hs as [<- | [<- | [<- | [<- | [<- | []]]]]];
    destruct Hd' as [-> | [-> | [-> | ->]]];
    repeat split; intros; try lia; reflexivity.
Qed.

Lemma update_params_round_trip_witness :
  update_params false true false false
    (fst (update_params true false false false 8 4))
    (snd (update_params true false false false 8 4)) = (8, 4).
Proof.
  refine (proj1 (update_params_round_trip 8 4 _) _).
  - split; [cbn; tauto | cbn; lia].
  - lia.
Defined.

Lemma next_angle_iter (m : Z) (k : nat) :
  0 <= m < 90 ->
  Nat.iter k next_angle (4 * m) = 4 * ((m + Z.of_nat k) mod 90).
Proof.
  intros Hm. induction k as [|k IH].
  - change (Nat.iter 0 next_angle (4 * m)) with (4 * m).
    change (Z.of_nat 0) with 0.
    rewrite Z.add_0_r, Z.mod_small by lia. reflexivity.
  - rewrite Nat.iter_succ, IH. unfold next_angle.
    pose proof (Z.mod_pos_bound (m + Z.of_nat k) 90 ltac:(lia)) as Hb.
    rewrite Z.rem_mod_nonneg by lia.
    replace (4 * ((m + Z.of_nat k) mod 90) + 4)
      with (4 * ((m + Z.of_nat k) mod 90 + 1)) by ring.
    change 360 with (4 * 90).
    rewrite Z.mul_mod_distr_l by lia. f_equal.
    rewrite Z.add_mod_idemp_l by lia. f_equal. lia.
Qed.

(** X10. The angle of main, which starts at 0 and is advanced once per
    frame: from a multiple of 4 in [0, 360) the next angle is again a
    multiple of 4 in [0, 360), and the period is 90 frames: after 90
    frames the angle, and with it the position main gives the first
    sphere, is back where it was, and not before. *)
Theorem next_angle_period (angle : Z) :
  0 <= angle < 360 -> angle mod 4 = 0 ->
  0 <= next_angle angle < 360
  /\ next_angle angle mod 4 = 0
  /\ Nat.iter 90 next_angle angle = angle
  /\ forall k : nat, (0 < k < 90)%nat -> Nat.iter k next_angle angle <> angle.
Proof.
  intros Ha H4.
  assert (Hm : angle = 4 * (angle / 4)).
  { rewrite (Z.div_mod angle 4) at 1 by lia. lia. }
  assert (Hq : 0 <= angle / 4 < 90).
  { split; [apply Z.div_pos; lia | apply Z.div_lt_upper_bound; lia]. }
  set (m := angle / 4) in *. rewrite Hm.
  assert (Hone : next_angle (4 * m) = 4 * ((m + 1) mod 90))
    by exact (next_angle_iter m 1 Hq).
  pose proof (Z.mod_pos_bound (m + 1) 90 ltac:(lia)) as Hb.
  split; [rewrite Hone; lia|]. split.
  - rewrite Hone, Z.mul_comm, Z.mod_mul by lia. reflexivity.
  - split.
    + rewrite next_angle_iter by exact Hq.
      change (Z.of_nat 90) with (1 * 90). rewrite Z.mod_add by lia.
      rewrite Z.mod_small by lia. reflexivity.
    + intros k Hk. rewrite next_angle_iter by exact Hq. intros Heq.
      assert (Hmod : (m + Z.of_nat k) mod 90 = m) by lia.
      destruct (Z.lt_ge_cases (m + Z.of_nat k) 90) as [Hlt|Hge].
      * rewrite Z.mod_small in Hmod by lia. lia.
      * replace (m + Z.of_nat k) with (m + Z.of_nat k - 90 + 1 * 90) in Hmod by ring.
        rewrite Z.mod_add, Z.mod_small in Hmod by lia. lia.
Qed.

Lemma next_angle_period_witness :
  Nat.iter 90 next_angle 356 = 356.
Proof.
  refine (proj1 (proj2 (proj2 (next_angle_period 356 _ _)))).
  - lia.
  - reflexivity.
Defined.

(** * Properties in exact arithmetic *)

Section ExactProperties.
Local Existing Instance Exact.
Local Open Scope R_scope.

(** ** reflect and refract in exact arithmetic *)

Lemma fmin_exact (a b : R) : fmin a b = Rmin a b.
Proof.
  unfold fmin, Rmin. cbn. unfold ExactR.Rltb.
  destruct (Rlt_dec b a), (Rle_dec a b); lra.
Qed.

Lemma fmax_exact (a b : R) : fmax a b = Rmax a b.
Proof.
  unfold fmax, Rmax. cbn. unfold ExactR.Rltb.
  destruct (Rlt_dec a b), (Rle_dec a b); lra.
Qed.

(** The clamp of refract does nothing to a value of [-1, 1]. *)
Lemma clamp_exact (x : R) :
  -1 <= x <= 1 -> fmax (f_of_int (-1)) (fmin (f_of_int 1) x) = x.
Proof.
  intros H. rewrite fmin_exact, fmax_exact. cbn.
  unfold Rmin, Rmax.
  destruct (Rle_dec 1 x); destruct (Rle_dec (-1) _); lra.
Qed.

(** Cauchy-Schwarz for two unit vectors. *)
Lemma vdot_unit_bound (a b : Vec3f) :
  vdot a a = 1 -> vdot b b = 1 -> -1 <= vdot a b <= 1.
Proof.
  destruct a as [a1 a2 a3], b as [b1 b2 b3]. cbn. intros Ha Hb.
  assert (H : (a1 * b1 + a2 * b2 + a3 * b3) * (a1 * b1 + a2 * b2 + a3 * b3) <= 1).
  { replace 1 with ((a1 * a1 + a2 * a2 + a3 * a3) * (b1 * b1 + b2 * b2 + b3 * b3))
      by (rewrite Ha, Hb; ring).
    pose proof (Rle_0_sqr (a1 * b2 - a2 * b1)).
    pose proof (Rle_0_sqr (a1 * b3 - a3 * b1)).
    pose proof (Rle_0_sqr (a2 * b3 - a3 * b2)).
    unfold Rsqr in *. nra. }
  nra.
Qed.

Lemma norm_of_sqr (v : Vec3f) : vdot v v = 1 -> norm v = 1.
Proof. intros H. unfold norm. cbn in *. rewrite H. apply sqrt_1. Qed.

(** X11. In exact arithmetic, for a unit normal N: reflect flips the
    component of I along N, keeps the length of I, and is its own
    inverse. *)
Theorem reflect_exact (I N : Vec3f) :
  vdot N N = 1 ->
  vdot (reflect I N) N = - vdot I N
  /\ norm (reflect I N) = norm I
  /\ reflect (reflect I N) N = I.
Proof.
  intros HN.
  assert (Hd : vdot (reflect I N) N = - vdot I N).
  { destruct I as [i1 i2 i3], N as [n1 n2 n3]. cbn in *.
    set (d := i1 * n1 + i2 * n2 + i3 * n3).
    transitivity (d * (1 - 2 * (n1 * n1 + n2 * n2 + n3 * n3)));
      [unfold d; ring | rewrite HN; ring]. }
  split; [exact Hd|]. split.
  - unfold norm. cbn [fsqrt Exact]. f_equal.
    destruct I as [i1 i2 i3], N as [n1 n2 n3]. cbn in *.
    set (d := i1 * n1 + i2 * n2 + i3 * n3).
    transitivity (i1 * i1 + i2 * i2 + i3 * i3
                  + 4 * (d * d) * (n1 * n1 + n2 * n2 + n3 * n3 - 1));
      [unfold d; ring | rewrite HN; ring].
  - unfold reflect at 1. rewrite Hd.
    destruct I as [i1 i2 i3], N as [n1 n2 n3].
    apply Vec3f_ext; cbn; ring.
Qed.

Lemma reflect_exact_witness :
  let I := mkVec3f 1 (-1) 0 in
  let N := mkVec3f 0 1 0 in
  vdot (reflect I N) N = - vdot I N
  /\ norm (reflect I N) = norm I
  /\ reflect (reflect I N) N = I.
Proof.
  intros I N. apply (reflect_exact I N). cbn. lra.
Defined.

(** refract_terms on a dot product that the clamp leaves alone: the ray
    enters when I.N <= 0 and leaves when I.N > 0. *)
Lemma refract_terms_exact (I N : Vec3f) (ri : R) :
  -1 <= vdot I N <= 1 ->
  refract_terms I N ri
  = if Rlt_dec 0 (vdot I N)
    then (vdot I N, ri / 1, vneg N,
          1 - ri / 1 * (ri / 1) * (1 - vdot I N * vdot I N))
    else (- vdot I N, 1 / ri, N,
          1 - 1 / ri * (1 / ri) * (1 - - vdot I N * - vdot I N)).
Proof.
  intros Hc. unfold refract_terms. rewrite clamp_exact by exact Hc.
  revert Hc. generalize (vdot I N). intros c Hc. cbn. unfold ExactR.Rltb.
  destruct (Rlt_dec (- c) 0), (Rlt_dec 0 c); try lra.
  - rewrite Ropp_involutive. reflexivity.
  - reflexivity.
Qed.

(** X12. In exact arithmetic, a ray along the unit normal, entering
    (I = -N) or leaving (I = N), is refracted without deviation, whatever
    the refractive index. *)
Theorem refract_normal_incidence (I N : Vec3f) (ri : R) :
  vdot N N = 1 -> I = vneg N \/ I = N -> refract I N ri = I.
Proof.
  intros HN HI.
  assert (Hd : vdot I N = -1 \/ vdot I N = 1).
  { destruct HI as [-> | ->]; [left | right; exact HN].
    destruct N as [n1 n2 n3]. cbn in *. nra. }
  unfold refract. rewrite refract_terms_exact by (destruct Hd as [-> | ->]; lra).
  destruct (Rlt_dec 0 (vdot I N)) as [Hpos | Hneg].
  - destruct Hd as [Hd | Hd]; [lra|]. rewrite Hd.
    replace (1 - ri / 1 * (ri / 1) * (1 - 1 * 1)) with 1 by field.
    cbn. replace (ExactR.Rltb 1 0) with false
      by (symmetry; apply Rltb_false; lra).
    rewrite sqrt_1. destruct HI as [-> | ->].
    + exfalso. destruct N as [n1 n2 n3]. cbn in *. nra.
    + destruct N as [n1 n2 n3]. apply Vec3f_ext; cbn; field.
  - destruct Hd as [Hd | Hd]; [|lra]. rewrite Hd.
    replace (1 - 1 / ri * (1 / ri) * (1 - - -1 * - -1)) with 1 by ring.
    cbn. replace (ExactR.Rltb 1 0) with false
      by (symmetry; apply Rltb_false; lra).
    rewrite sqrt_1. destruct HI as [-> | ->].
    + destruct N as [n1 n2 n3]. apply Vec3f_ext; cbn; ring.
    + exfalso. lra.
Qed.

Lemma refract_normal_incidence_witness :
  let N := mkVec3f 0 1 0 in
  refract (vneg N) N (3 / 2) = vneg N.
Proof.
  intros N. apply (refract_normal_incidence (vneg N) N (3 / 2)).
  - cbn. lra.
  - left. reflexivity.
Defined.

(** The algebra behind refract: a unit ray I, a unit normal n facing
    it at cosine [cosi], and s the square root of k. *)
Lemma refract_algebra (I n : Vec3f) (eta cosi s : R) :
  vdot I I = 1 -> vdot n n = 1 -> vdot I n = - cosi ->
  s * s = 1 - eta * eta * (1 - cosi * cosi) ->
  let T := vadd (vscale I eta) (vscale n (eta * cosi - s)) in
  vdot T T = 1 /\ vdot T n = - s.
Proof.
  destruct I as [i1 i2 i3], n as [n1 n2 n3]. cbn.
  set (q := eta * cosi - s).
  intros HI Hn Hd Hs. split.
  - transitivity (eta * eta * (i1 * i1 + i2 * i2 + i3 * i3)
                  + 2 * eta * q * (i1 * n1 + i2 * n2 + i3 * n3)
                  + q * q * (n1 * n1 + n2 * n2 + n3 * n3)); [ring|].
    rewrite HI, Hn, Hd.
    transitivity (eta * eta * (1 - cosi * cosi) + s * s); [unfold q; ring|].
    rewrite Hs. ring.
  - transitivity (eta * (i1 * n1 + i2 * n2 + i3 * n3)
                  + q * (n1 * n1 + n2 * n2 + n3 * n3)); [ring|].
    rewrite Hn, Hd. unfold q. ring.
Qed.

(** X13. In exact arithmetic, for a unit ray and a unit normal, when
    refract does not take its total-internal-reflection branch (k >= 0):
    the refracted direction is a unit vector, its cosine with the facing
    normal n is -sqrt k, and it obeys Snell's law in the form
    1 - (T.n)^2 = eta^2 (1 - (I.n)^2). *)
Theorem refract_snell (I N : Vec3f) (ri : R) :
  let t := refract_terms I N ri in
  let eta := snd (fst (fst t)) in
  let n := snd (fst t) in
  let k := snd t in
  let T := refract I N ri in
  vdot I I = 1 -> vdot N N = 1 -> 0 <= k ->
  norm T = 1
  /\ vdot T n = - sqrt k
  /\ 1 - vdot T n * vdot T n = eta * eta * (1 - vdot I n * vdot I n).
Proof.
  intros t eta n k T HI HN Hk.
  pose proof (vdot_unit_bound I N HI HN) as Hc.
  assert (Ht : t = (fst (fst (fst t)), eta, n, k)).
  { unfold eta, n, k. destruct t as [[[a b] c] d]. reflexivity. }
  assert (Hterms : vdot n n = 1 /\ vdot I n = - fst (fst (fst t))
                   /\ k = 1 - eta * eta
                              * (1 - fst (fst (fst t)) * fst (fst (fst t)))).
  { unfold eta, n, k, t. rewrite refract_terms_exact by exact Hc.
    destruct (Rlt_dec 0 (vdot I N)); cbn [fst snd].
    - split; [|split; [|reflexivity]];
        destruct I as [i1 i2 i3], N as [n1 n2 n3]; cbn in *; nra.
    - split; [exact HN|]. split; [|reflexivity].
      cbn. rewrite Ropp_involutive. reflexivity. }
  destruct Hterms as (Hn & Hd & Hkeq).
  assert (HT : T = vadd (vscale I eta)
                        (vscale n (eta * fst (fst (fst t)) - sqrt k))).
  { unfold T, refract. fold t. rewrite Ht. cbn.
    replace (ExactR.Rltb k 0) with false
      by (symmetry; apply Rltb_false; exact Hk).
    reflexivity. }
  destruct (refract_algebra I n eta (fst (fst (fst t))) (sqrt k) HI Hn Hd)
    as [Hunit Hcos].
  { rewrite sqrt_sqrt by exact Hk. exact Hkeq. }
  cbv zeta in Hunit, Hcos. rewrite <- HT in Hunit, Hcos.
  split; [apply norm_of_sqr; exact Hunit|]. split; [exact Hcos|].
  rewrite Hcos, Hd.
  replace (- sqrt k * - sqrt k) with (sqrt k * sqrt k) by ring.
  rewrite sqrt_sqrt by exact Hk. rewrite Hkeq. ring.
Qed.

Lemma refract_snell_witness :
  let I := mkVec3f 0 (-1) 0 in
  let N := mkVec3f 0 1 0 in
  norm (refract I N 2) = 1.
Proof.
  intros I N.
  refine (proj1 (refract_snell I N 2 _ _ _)).
  - cbn. lra.
  - cbn. lra.
  - unfold refract_terms.
    replace (vdot I N) with (-1) by (cbn; lra).
    rewrite clamp_exact by lra. cbn.
    replace (ExactR.Rltb (- -1) 0) with false
      by (symmetry; apply Rltb_false; lra).
    cbn. lra.
Defined.

(** X14. In exact arithmetic, a ray that enters (I.N <= 0) a medium of
    refractive index at least 1 never meets total internal reflection:
    the k of refract is not negative, whatever the lengths of I and N. *)
Theorem refract_entering_denser (I N : Vec3f) (ri : R) :
  1 <= ri -> vdot I N <= 0 -> 0 <= snd (refract_terms I N ri).
Proof.
  intros Hri Hc. unfold refract_terms.
  rewrite fmin_exact, fmax_exact.
  revert Hc. generalize (vdot I N). intros x Hx.
  set (c := Rmax _ _).
  assert (Hcl : -1 <= c <= 0).
  { unfold c. cbn. unfold Rmax, Rmin.
    destruct (Rle_dec 1 x); destruct (Rle_dec (-1) _); lra. }
  clearbody c. cbn.
  replace (ExactR.Rltb (- c) 0) with false
    by (symmetry; apply Rltb_false; lra).
  cbn.
  assert (Hpos : 0 < 1 / ri) by (apply Rdiv_lt_0_compat; lra).
  assert (Hinv : 1 / ri * ri = 1) by (field; lra).
  set (e := 1 / ri) in *.
  assert (He : e <= 1) by nra.
  assert (He2 : e * e <= 1) by nra.
  assert (Hc2 : 0 <= 1 - - c * - c <= 1) by nra.
  nra.
Qed.

Lemma refract_entering_denser_witness :
  let I := mkVec3f 1 (-1) 0 in
  let N := mkVec3f 0 1 0 in
  0 <= snd (refract_terms I N (3 / 2)).
Proof.
  intros I N. apply (refract_entering_denser I N (3 / 2)).
  - lra.
  - cbn. lra.
Defined.

(** ** Sphere::ray_intersect in exact arithmetic *)

(** The four ways through ray_intersect, on real numbers. *)
Lemma ray_intersect_real_cases (s : Sphere) (orig dir : Vec3f) (t0_in : R) :
  let L := vsub (center s) orig in
  let tca := vdot L dir in
  let d2 := vdot L L - tca * tca in
  let thc := sqrt (radius s * radius s - d2) in
  (radius s * radius s < d2 -> ray_intersect s orig dir t0_in = (false, t0_in))
  /\ (d2 <= radius s * radius s -> 0 <= tca - thc ->
      ray_intersect s orig dir t0_in = (true, tca - thc))
  /\ (d2 <= radius s * radius s -> tca - thc < 0 -> 0 <= tca + thc ->
      ray_intersect s orig dir t0_in = (true, tca + thc))
  /\ (d2 <= radius s * radius s -> tca - thc < 0 -> tca + thc < 0 ->
      ray_intersect s orig dir t0_in = (false, tca + thc)).
Proof.
  intros L tca d2 thc.
  destruct (ray_intersect_cases s orig dir t0_in) as (Hfar & Hnear & Hback & Hnone).
  fold L tca d2 thc in Hfar, Hnear, Hback, Hnone. cbn in Hfar, Hnear, Hback, Hnone.
  unfold fgtb in *. cbn in Hfar, Hnear, Hback, Hnone.
  fold L tca d2 thc in Hfar, Hnear, Hback, Hnone.
  repeat split.
  - intros H. apply Hfar. apply Rltb_true. exact H.
  - intros H1 H2. apply Hnear; apply Rltb_false; assumption.
  - intros H1 H2 H3.
    apply Hback; [apply Rltb_false|apply Rltb_true|apply Rltb_false]; assumption.
  - intros H1 H2 H3.
    apply Hnone; [apply Rltb_false|apply Rltb_true|apply Rltb_true]; assumption.
Qed.

(** The squared distance from the centre of the point at parameter [t]
    of a unit ray, when t is tca - thc or tca + thc. *)
Lemma hit_algebra (c orig dir : Vec3f) (t r2 : R) :
  let L := vsub c orig in
  vdot dir dir = 1 ->
  (t - vdot L dir) * (t - vdot L dir) = r2 - (vdot L L - vdot L dir * vdot L dir) ->
  let hit := vadd orig (vscale dir t) in
  vdot (vsub hit c) (vsub hit c) = r2.
Proof.
  destruct c as [c1 c2 c3], orig as [o1 o2 o3], dir as [d1 d2 d3]. cbn.
  intros Hdir Ht.
  set (l1 := c1 - o1) in *. set (l2 := c2 - o2) in *. set (l3 := c3 - o3) in *.
  transitivity ((l1 * l1 + l2 * l2 + l3 * l3)
                - 2 * t * (l1 * d1 + l2 * d2 + l3 * d3)
                + t * t * (d1 * d1 + d2 * d2 + d3 * d3));
    [unfold l1, l2, l3; ring|].
  rewrite Hdir. lra.
Qed.

(** A reported hit, for a unit direction: the distance is not negative
    and the point at that distance is on the sphere. *)
Lemma ray_intersect_hit_sqr (s : Sphere) (orig dir : Vec3f) (t0_in t : R) :
  vdot dir dir = 1 ->
  ray_intersect s orig dir t0_in = (true, t) ->
  let hit := vadd orig (vscale dir t) in
  0 <= t /\ vdot (vsub hit (center s)) (vsub hit (center s)) = radius s * radius s.
Proof.
  intros Hdir Hhit hit.
  destruct (ray_intersect_real_cases s orig dir t0_in)
    as (Hfar & Hnear & Hback & Hnone).
  set (L := vsub (center s) orig) in *.
  set (tca := vdot L dir) in *.
  set (d2 := vdot L L - tca * tca) in *.
  set (thc := sqrt (radius s * radius s - d2)) in *.
  destruct (Rlt_dec (radius s * radius s) d2) as [Hmiss | Hin].
  { rewrite Hfar in Hhit by exact Hmiss. discriminate Hhit. }
  assert (Hthc : thc * thc = radius s * radius s - d2)
    by (apply sqrt_sqrt; lra).
  assert (Hon : forall t', (t' - tca) * (t' - tca) = thc * thc ->
            vdot (vsub (vadd orig (vscale dir t')) (center s))
                 (vsub (vadd orig (vscale dir t')) (center s))
            = radius s * radius s).
  { intros t' Ht'. apply hit_algebra; [exact Hdir|].
    fold L. fold tca. fold d2. rewrite Ht'. exact Hthc. }
  destruct (Rlt_dec (tca - thc) 0) as [Hneg | Hpos].
  - destruct (Rlt_dec (tca + thc) 0) as [Hneg2 | Hpos2].
    + rewrite Hnone in Hhit by lra. discriminate Hhit.
    + rewrite Hback in Hhit by lra.
      injection Hhit as <-. split; [lra|]. apply Hon. ring.
  - rewrite Hnear in Hhit by lra.
    injection Hhit as <-. split; [lra|]. apply Hon. ring.
Qed.

(** The sphere of radius 2 centred at (0, 0, -16), seen from the origin
    along -z: the hit is at distance 14. *)
Lemma ray_intersect_on_sphere_example :
  let s := mkSphere (mkVec3f 0 0 (-16)) 2 MMaterial_default in
  let orig := mkVec3f 0 0 0 in
  let dir := mkVec3f 0 0 (-1) in
  ray_intersect s orig dir 0 = (true, 14) /\ vdot dir dir = 1.
Proof.
  intros s orig dir. split; [|cbn; lra].
  destruct (ray_intersect_real_cases s orig dir 0) as (_ & Hnear & _).
  unfold s, orig, dir in *. cbn in Hnear.
  match type of Hnear with
  | context [sqrt ?x] => replace x with (2 * 2) in Hnear by lra
  end.
  rewrite sqrt_square in Hnear by lra.
  cbn. rewrite Hnear by lra. f_equal. lra.
Qed.

(** X15. In exact arithmetic, whenever ray_intersect reports a hit for a
    unit direction, the returned distance t is not negative and the point
    orig + dir * t lies on the sphere: its distance from the centre is the
    radius. *)
Theorem ray_intersect_on_sphere (s : Sphere) (orig dir : Vec3f) (t0_in t : R) :
  vdot dir dir = 1 -> 0 <= radius s ->
  ray_intersect s orig dir t0_in = (true, t) ->
  0 <= t /\ norm (vsub (vadd orig (vscale dir t)) (center s)) = radius s.
Proof.
  intros Hdir Hr Hhit.
  destruct (ray_intersect_hit_sqr s orig dir t0_in t Hdir Hhit) as [Ht Hsq].
  split; [exact Ht|].
  unfold norm. cbn [fsqrt Exact]. cbv zeta in Hsq. rewrite Hsq.
  apply sqrt_square. exact Hr.
Qed.

Lemma ray_intersect_on_sphere_witness :
  let s := mkSphere (mkVec3f 0 0 (-16)) 2 MMaterial_default in
  let orig := mkVec3f 0 0 0 in
  let dir := mkVec3f 0 0 (-1) in
  0 <= 14
  /\ norm (vsub (vadd orig (vscale dir 14)) (center s)) = radius s.
Proof.
  intros s orig dir.
  apply (ray_intersect_on_sphere s orig dir 0 14).
  - cbn. lra.
  - cbn. lra.
  - exact (proj1 ray_intersect_on_sphere_example).
Defined.

(** X16. In exact arithmetic, from an origin strictly inside the sphere
    every ray hits, whatever its direction: the near candidate tca - thc
    is negative, and the hit is reported at the far candidate tca + thc,
    which is positive. *)
Theorem ray_intersect_from_inside (s : Sphere) (orig dir : Vec3f) (t0_in : R) :
  let L := vsub (center s) orig in
  let tca := vdot L dir in
  let thc := sqrt (radius s * radius s - (vdot L L - tca * tca)) in
  vdot L L < radius s * radius s ->
  ray_intersect s orig dir t0_in = (true, tca + thc)
  /\ tca - thc < 0 < tca + thc.
Proof.
  intros L tca thc Hin.
  destruct (ray_intersect_real_cases s orig dir t0_in) as (_ & _ & Hback & _).
  fold L tca thc in Hback.
  assert (Hsq : 0 <= tca * tca) by nra.
  assert (Hthc : thc * thc = radius s * radius s - (vdot L L - tca * tca))
    by (apply sqrt_sqrt; lra).
  assert (Hpos : 0 <= thc) by apply sqrt_pos.
  assert (Hgt : tca * tca < thc * thc) by lra.
  assert (Hlo : tca - thc < 0) by nra.
  assert (Hhi : 0 < tca + thc) by nra.
  split; [|split; assumption].
  apply Hback; lra.
Qed.

Lemma ray_intersect_from_inside_witness :
  let s := mkSphere (mkVec3f 0 0 0) 2 MMaterial_default in
  let orig := mkVec3f 1 0 0 in
  let dir := mkVec3f 0 1 0 in
  fst (ray_intersect s orig dir 0) = true.
Proof.
  intros s orig dir.
  rewrite (proj1 (ray_intersect_from_inside s orig dir 0 ltac:(cbn; lra))).
  reflexivity.
Defined.

(** The squared distance from the centre of the point at parameter [t]
    of a unit ray. *)
Lemma ray_point_sqr (c orig dir : Vec3f) (t : R) :
  let L := vsub c orig in
  let p := vadd orig (vscale dir t) in
  vdot dir dir = 1 ->
  vdot (vsub p c) (vsub p c)
  = (t - vdot L dir) * (t - vdot L dir) + (vdot L L - vdot L dir * vdot L dir).
Proof.
  destruct c as [c1 c2 c3], orig as [o1 o2 o3], dir as [d1 d2 d3]. cbn.
  intros Hdir.
  set (l1 := c1 - o1) in *. set (l2 := c2 - o2) in *. set (l3 := c3 - o3) in *.
  transitivity ((l1 * l1 + l2 * l2 + l3 * l3)
                - 2 * t * (l1 * d1 + l2 * d2 + l3 * d3)
                + t * t * (d1 * d1 + d2 * d2 + d3 * d3));
    [unfold l1, l2, l3; ring|].
  rewrite Hdir. ring.
Qed.

(** X17. In exact arithmetic, the hit that ray_intersect reports for a
    unit direction is the first point of the ray on the sphere: no point
    orig + dir * t' with 0 <= t' < t0 is at the distance of the radius
    from the centre. *)
Theorem ray_intersect_first_hit (s : Sphere) (orig dir : Vec3f) (t0_in t : R) :
  vdot dir dir = 1 ->
  ray_intersect s orig dir t0_in = (true, t) ->
  forall t', 0 <= t' < t ->
    let p := vadd orig (vscale dir t') in
    vdot (vsub p (center s)) (vsub p (center s)) <> radius s * radius s.
Proof.
  intros Hdir Hhit t' Ht' p. unfold p.
  rewrite (ray_point_sqr (center s) orig dir t' Hdir).
  destruct (ray_intersect_real_cases s orig dir t0_in)
    as (Hfar & Hnear & Hback & Hnone).
  set (L := vsub (center s) orig) in *.
  set (tca := vdot L dir) in *.
  set (d2 := vdot L L - tca * tca) in *.
  set (thc := sqrt (radius s * radius s - d2)) in *.
  destruct (Rlt_dec (radius s * radius s) d2) as [Hmiss | Hin].
  { rewrite Hfar in Hhit by exact Hmiss. discriminate Hhit. }
  assert (Hthc : thc * thc = radius s * radius s - d2)
    by (apply sqrt_sqrt; lra).
  assert (Hpos : 0 <= thc) by apply sqrt_pos.
  destruct (Rlt_dec (tca - thc) 0) as [Hneg | Hnn].
  - destruct (Rlt_dec (tca + thc) 0) as [Hneg2 | Hpos2].
    + rewrite Hnone in Hhit by lra. discriminate Hhit.
    + rewrite Hback in Hhit by lra. injection Hhit as <-.
      assert (0 < (thc - (t' - tca)) * (thc + (t' - tca)))
        by (apply Rmult_lt_0_compat; lra).
      intros Heq. nra.
  - rewrite Hnear in Hhit by lra. injection Hhit as <-.
    assert (0 < (tca - t' - thc) * (tca - t' + thc))
      by (apply Rmult_lt_0_compat; lra).
    intros Heq. nra.
Qed.

Lemma ray_intersect_first_hit_witness :
  let s := mkSphere (mkVec3f 0 0 (-16)) 2 MMaterial_default in
  let orig := mkVec3f 0 0 0 in
  let dir := mkVec3f 0 0 (-1) in
  let p := vadd orig (vscale dir 7) in
  vdot (vsub p (center s)) (vsub p (center s)) <> radius s * radius s.
Proof.
  intros s orig dir.
  apply (ray_intersect_first_hit s orig dir 0 14).
  - cbn. lra.
  - exact (proj1 ray_intersect_on_sphere_example).
  - lra.
Defined.

(** X18. In exact arithmetic, when ray_intersect reports no hit for a
    unit direction the ray does not meet the sphere: no point
    orig + dir * t' with t' >= 0 is at the distance of the radius from
    the centre.  In particular a sphere behind an origin outside it is
    never hit. *)
Theorem ray_intersect_miss (s : Sphere) (orig dir : Vec3f) (t0_in : R) :
  vdot dir dir = 1 ->
  fst (ray_intersect s orig dir t0_in) = false ->
  forall t', 0 <= t' ->
    let p := vadd orig (vscale dir t') in
    vdot (vsub p (center s)) (vsub p (center s)) <> radius s * radius s.
Proof.
  intros Hdir Hmiss t' Ht' p. unfold p.
  rewrite (ray_point_sqr (center s) orig dir t' Hdir).
  destruct (ray_intersect_real_cases s orig dir t0_in)
    as (Hfar & Hnear & Hback & Hnone).
  set (L := vsub (center s) orig) in *.
  set (tca := vdot L dir) in *.
  set (d2 := vdot L L - tca * tca) in *.
  set (thc := sqrt (radius s * radius s - d2)) in *.
  destruct (Rlt_dec (radius s * radius s) d2) as [Hout | Hin].
  { pose proof (Rle_0_sqr (t' - tca)) as Hsq. unfold Rsqr in Hsq.
    intros Heq. lra. }
  assert (Hthc : thc * thc = radius s * radius s - d2)
    by (apply sqrt_sqrt; lra).
  assert (Hpos : 0 <= thc) by apply sqrt_pos.
  destruct (Rlt_dec (tca - thc) 0) as [Hneg | Hnn].
  - destruct (Rlt_dec (tca + thc) 0) as [Hneg2 | Hpos2].
    + assert (0 < (t' - tca - thc) * (t' - tca + thc))
        by (apply Rmult_lt_0_compat; lra).
      intros Heq. nra.
    + rewrite Hback in Hmiss by lra. discriminate Hmiss.
  - rewrite Hnear in Hmiss by lra. discriminate Hmiss.
Qed.

Lemma ray_intersect_miss_witness :
  let s := mkSphere (mkVec3f 0 0 (-16)) 2 MMaterial_default in
  let orig := mkVec3f 0 0 0 in
  let dir := mkVec3f 0 0 1 in
  let p := vadd orig (vscale dir 3) in
  vdot (vsub p (center s)) (vsub p (center s)) <> radius s * radius s.
Proof.
  intros s orig dir.
  apply (ray_intersect_miss s orig dir 0).
  - cbn. lra.
  - destruct (ray_intersect_real_cases s orig dir 0) as (_ & _ & _ & Hnone).
    unfold s, orig, dir in *. cbn in Hnone.
    match type of Hnone with
    | context [sqrt ?x] => replace x with (2 * 2) in Hnone by lra
    end.
    rewrite sqrt_square in Hnone by lra.
    cbn. rewrite Hnone by lra. reflexivity.
  - lra.
Defined.

(** ** scene_intersect in exact arithmetic *)

Lemma norm_normalize (v : Vec3f) : 0 < norm v -> norm (normalize v) = 1.
Proof.
  intros Hn. apply norm_of_sqr.
  pose proof (norm_sqr v) as Hs.
  unfold normalize. revert Hn Hs. generalize (norm v). intros n Hn Hs.
  destruct v as [a b c]. cbn in *.
  transitivity ((a * a + b * b + c * c) / (n * n)); [field; lra|].
  rewrite <- Hs. field. lra.
Qed.

Lemma FLT_MAX_large : 1000 <= ExactR.FLT_MAX.
Proof.
  unfold ExactR.FLT_MAX. apply IZR_le. apply Zle_bool_imp_le. reflexivity.
Qed.

(** No hit is reported when neither a sphere nor the plane was recorded. *)
Lemma far_cutoff : (fmin flt_max flt_max <? f_of_int 1000)%fl = false.
Proof.
  rewrite fmin_exact. cbn. apply Rltb_false.
  unfold Rmin. pose proof FLT_MAX_large. destruct (Rle_dec _ _); lra.
Qed.

(** A ray down onto the checkerboard, with no sphere in the scene. *)
Lemma plane_hit_example :
  fst (scene_intersect (mkVec3f 0 0 (-15)) (mkVec3f 0 (-1) 0) []
                       Outputs_default) = true.
Proof.
  assert (Hd : - (0 + 4) / -1 = 4) by lra.
  rewrite scene_intersect_plane.
  - cbn. rewrite fmin_exact, Hd. apply Rltb_true.
    unfold Rmin. pose proof FLT_MAX_large. destruct (Rle_dec _ _); lra.
  - cbn. apply Rltb_true. unfold ExactR.Rdecimal.
    rewrite Rabs_left by lra. change (10 ^ Z.of_nat 3)%Z with 1000%Z. lra.
  - unfold plane_wins, fgtb. cbn. rewrite Hd.
    replace (0 + 0 * 4) with 0 by lra. rewrite Rabs_R0.
    pose proof FLT_MAX_large.
    rewrite !andb_true_iff. repeat split; apply Rltb_true; lra.
Qed.

Lemma ray_intersect_nonneg (s : Sphere) (orig dir : Vec3f) (t0_in t : R) :
  ray_intersect s orig dir t0_in = (true, t) -> 0 <= t.
Proof.
  unfold ray_intersect.
  destruct (fgtb _ _); [discriminate|].
  match goal with
  | |- (if (?x <? _)%fl then _ else _) = _ -> _ => destruct (x <? f_of_int 0)%fl eqn:E
  end; [discriminate|].
  intros H. injection H as <-. cbn in E. apply Rltb_false in E. exact E.
Qed.

(** X19. In exact arithmetic, for a unit direction and spheres of positive
    radius, the normal that scene_intersect returns with a hit is a unit
    vector, for a sphere as for the plane. *)
Theorem scene_intersect_unit_normal (orig dir : Vec3f) (spheres : list Sphere)
  (out0 out : Outputs) :
  vdot dir dir = 1 ->
  (forall s, In s spheres -> 0 < radius s) ->
  scene_intersect orig dir spheres out0 = (true, out) ->
  norm (o_N out) = 1.
Proof.
  intros Hdir Hrad. unfold scene_intersect, spheres_loop.
  pose proof (spheres_fold_nearest orig dir spheres flt_max out0) as Hloop.
  cbv zeta in Hloop.
  destruct (fold_left _ _ _) as [sd outl]. cbn [fst snd] in Hloop.
  assert (Hplane : norm (mkVec3f (f_of_int 0) (f_of_int 1) (f_of_int 0)) = 1).
  { apply norm_of_sqr. cbn. ring. }
  assert (Hsphere : (fmin sd flt_max <? f_of_int 1000)%fl = true ->
                    norm (o_N outl) = 1).
  { intros Hnear.
    destruct Hloop as [[Heq _] | (s & Hin & Hhit & _ & Hout & _)].
    - assert (Hsd : sd = flt_max) by congruence. rewrite Hsd in Hnear.
      rewrite far_cutoff in Hnear. discriminate Hnear.
    - rewrite Hout. cbn [sphere_outputs o_N]. apply norm_normalize.
      destruct (ray_intersect_hit_sqr s orig dir _ sd Hdir Hhit) as [_ Hsq].
      cbv zeta in Hsq. unfold norm. cbn [fsqrt Exact]. rewrite Hsq.
      apply sqrt_lt_R0. pose proof (Hrad s Hin). nra. }
  unfold plane_step.
  destruct (dgtb _ _); [destruct (plane_wins _ _ _)|]; intros H.
  - injection H as _ <-. exact Hplane.
  - injection H as Hb <-. exact (Hsphere Hb).
  - injection H as Hb <-. exact (Hsphere Hb).
Qed.

Lemma scene_intersect_unit_normal_witness :
  let orig := mkVec3f 0 0 (-15) in
  let dir := mkVec3f 0 (-1) 0 in
  let r := scene_intersect orig dir [] Outputs_default in
  norm (o_N (snd r)) = 1.
Proof.
  intros orig dir r.
  apply (scene_intersect_unit_normal orig dir [] Outputs_default (snd r)).
  - cbn. lra.
  - intros s [].
  - rewrite <- plane_hit_example. apply surjective_pairing.
Defined.

(** X20. In exact arithmetic, a hit that scene_intersect reports is on
    the ray, ahead of the origin and nearer than the cutoff: the returned
    hit point is orig + dir * d for a distance d with 0 <= d < 1000. *)
Theorem scene_intersect_hit_range (orig dir : Vec3f) (spheres : list Sphere)
  (out0 out : Outputs) :
  scene_intersect orig dir spheres out0 = (true, out) ->
  exists d, 0 <= d < 1000 /\ o_hit out = vadd orig (vscale dir d).
Proof.
  unfold scene_intersect, spheres_loop.
  pose proof (spheres_fold_nearest orig dir spheres flt_max out0) as Hloop.
  cbv zeta in Hloop.
  destruct (fold_left _ _ _) as [sd outl]. cbn [fst snd] in Hloop.
  assert (Hsphere : (fmin sd flt_max <? f_of_int 1000)%fl = true ->
            exists d, 0 <= d < 1000 /\ o_hit outl = vadd orig (vscale dir d)).
  { intros Hnear.
    destruct Hloop as [[Heq _] | (s & Hin & Hhit & Hlt & Hout & _)].
    - assert (Hsd : sd = flt_max) by congruence. rewrite Hsd in Hnear.
      rewrite far_cutoff in Hnear. discriminate Hnear.
    - exists sd. pose proof (ray_intersect_nonneg s orig dir _ sd Hhit) as H0.
      rewrite fmin_exact in Hnear. cbn in Hnear, Hlt.
      apply Rltb_true in Hnear, Hlt.
      rewrite Rmin_left in Hnear by lra.
      split; [lra|]. rewrite Hout. reflexivity. }
  unfold plane_step.
  destruct (dgtb _ _); [destruct (plane_wins _ _ _) eqn:Hwin|]; intros H.
  - injection H as Hb <-. cbn [o_hit].
    exists (- (vy orig + 4) / vy dir).
    unfold plane_wins, fgtb in Hwin. rewrite !andb_true_iff in Hwin.
    destruct Hwin as [[[[Hpos _] _] _] Hlt].
    rewrite fmin_exact in Hb. cbn in Hb, Hpos, Hlt |- *.
    apply Rltb_true in Hb, Hpos, Hlt.
    rewrite Rmin_right in Hb by lra.
    split; [lra|reflexivity].
  - injection H as Hb <-. exact (Hsphere Hb).
  - injection H as Hb <-. exact (Hsphere Hb).
Qed.

Lemma scene_intersect_hit_range_witness :
  let orig := mkVec3f 0 0 (-15) in
  let dir := mkVec3f 0 (-1) 0 in
  let r := scene_intersect orig dir [] Outputs_default in
  exists d, 0 <= d < 1000 /\ o_hit (snd r) = vadd orig (vscale dir d).
Proof.
  intros orig dir r.
  apply (scene_intersect_hit_range orig dir [] Outputs_default (snd r)).
  rewrite <- plane_hit_example. apply surjective_pairing.
Defined.

(** X21. In exact arithmetic the origin of a secondary ray is moved off
    the surface to the side the ray leaves to: the displacement
    offset_orig dir N point - point has a non-negative dot product with
    dir, and its squared length is that of N times (1/1000)^2. *)
Theorem offset_orig_side (dir N point : Vec3f) :
  let off := vsub (offset_orig dir N point) point in
  0 <= vdot off dir /\ vdot off off = 1 / 1000 * (1 / 1000) * vdot N N.
Proof.
  unfold offset_orig. cbn [fltb f_of_int Exact].
  assert (Hlit : ExactR.Rdecimal 1 3 = 1 / 1000).
  { unfold ExactR.Rdecimal. change (10 ^ Z.of_nat 3)%Z with 1000%Z. reflexivity. }
  destruct (ExactR.Rltb (vdot dir N) 0) eqn:Hs;
    [apply Rltb_true in Hs | apply Rltb_false in Hs];
    destruct dir as [d1 d2 d3], N as [n1 n2 n3], point as [p1 p2 p3];
    cbn in Hs |- *; rewrite Hlit; split; try nra; ring.
Qed.

(** plane_step reads of its state only the distance, and changes of the
    hit point only what the plane assigns. *)
Lemma plane_step_hit (orig dir : Vec3f) (sd : R) (o1 o2 : Outputs) :
  o_hit o1 = o_hit o2 ->
  fst (plane_step orig dir sd o1) = fst (plane_step orig dir sd o2)
  /\ o_hit (snd (plane_step orig dir sd o1))
     = o_hit (snd (plane_step orig dir sd o2)).
Proof.
  intros Hh. unfold plane_step.
  destruct (dgtb _ _); [destruct (plane_wins _ _ _)|]; cbn [fst snd o_hit];
    split; auto.
Qed.

(** X22. In exact arithmetic, the order of the spheres does not change
    what scene_intersect finds: for two lists that are permutations of
    each other the nearest distance recorded by the loop, the returned
    flag and the returned hit point are the same. *)
Theorem scene_intersect_permutation (orig dir : Vec3f) (l1 l2 : list Sphere)
  (out0 : Outputs) :
  Permutation l1 l2 ->
  fst (spheres_loop orig dir l1 out0) = fst (spheres_loop orig dir l2 out0)
  /\ fst (scene_intersect orig dir l1 out0)
     = fst (scene_intersect orig dir l2 out0)
  /\ o_hit (snd (scene_intersect orig dir l1 out0))
     = o_hit (snd (scene_intersect orig dir l2 out0)).
Proof.
  intros Hperm.
  assert (Hloop : fst (spheres_loop orig dir l1 out0)
                  = fst (spheres_loop orig dir l2 out0)
                  /\ o_hit (snd (spheres_loop orig dir l1 out0))
                     = o_hit (snd (spheres_loop orig dir l2 out0))).
  { unfold spheres_loop.
    pose proof (spheres_fold_nearest orig dir l1 flt_max out0) as H1.
    pose proof (spheres_fold_nearest orig dir l2 flt_max out0) as H2.
    cbv zeta in H1, H2.
    destruct (fold_left _ l1 _) as [d1 o1].
    destruct (fold_left _ l2 _) as [d2 o2]. cbn [fst snd] in *.
    destruct H1 as [[E1 N1] | (s1 & In1 & Hit1 & Lt1 & Out1 & Min1)];
      destruct H2 as [[E2 N2] | (s2 & In2 & Hit2 & Lt2 & Out2 & Min2)].
    - split; congruence.
    - exfalso. assert (In s2 l1) as Hin
        by (apply (Permutation_in s2 (Permutation_sym Hperm)); exact In2).
      rewrite (N1 s2 d2 Hin Hit2) in Lt2. discriminate Lt2.
    - exfalso. assert (In s1 l2) as Hin
        by (apply (Permutation_in s1 Hperm); exact In1).
      rewrite (N2 s1 d1 Hin Hit1) in Lt1. discriminate Lt1.
    - assert (In s2 l1) as Hin2
        by (apply (Permutation_in s2 (Permutation_sym Hperm)); exact In2).
      assert (In s1 l2) as Hin1
        by (apply (Permutation_in s1 Hperm); exact In1).
      pose proof (Min1 s2 d2 Hin2 Hit2) as Ha.
      pose proof (Min2 s1 d1 Hin1 Hit1) as Hb.
      cbn in Ha, Hb. apply Rltb_false in Ha, Hb.
      assert (Hd : d1 = d2) by lra. subst d2.
      split; [reflexivity|]. rewrite Out1, Out2. reflexivity. }
  destruct Hloop as [Hd Hh]. split; [exact Hd|].
  unfold scene_intersect.
  destruct (spheres_loop orig dir l1 out0) as [d1 o1].
  destruct (spheres_loop orig dir l2 out0) as [d2 o2].
  cbn [fst snd] in Hd, Hh. subst d2.
  destruct (plane_step_hit orig dir d1 o1 o2 Hh) as [Hf Hp].
  destruct (plane_step orig dir d1 o1) as [c1 p1].
  destruct (plane_step orig dir d1 o2) as [c2 p2].
  cbn [fst snd] in *. subst c2. split; [reflexivity | exact Hp].
Qed.

Lemma scene_intersect_permutation_witness :
  let a := mkSphere (mkVec3f 0 0 (-16)) 2 MMaterial_default in
  let b := mkSphere (mkVec3f 0 0 (-10)) 1 MMaterial_default in
  let orig := mkVec3f 0 0 0 in
  let dir := mkVec3f 0 0 (-1) in
  fst (spheres_loop orig dir [a; b] Outputs_default)
  = fst (spheres_loop orig dir [b; a] Outputs_default).
Proof.
  intros a b orig dir.
  apply (scene_intersect_permutation orig dir [a; b] [b; a] Outputs_default).
  apply perm_swap.
Defined.

(** X23. In exact arithmetic, a ray that starts on or above the plane
    y = -4 and does not descend never hits the checkerboard: plane_step
    leaves the outputs as they are.  With no spheres such a ray hits
    nothing, and cast_ray returns the background colour without a
    recursive call. *)
Theorem plane_not_hit_from_above (fuel : nat) (orig dir : Vec3f)
  (lights : list Light) (depth maxDepth : Z) :
  -4 <= vy orig -> 0 <= vy dir ->
  (forall sd out, plane_step orig dir sd out = (flt_max, out))
  /\ cast_ray (S fuel) orig dir [] lights depth maxDepth
     = Some (background, O).
Proof.
  intros Ho Hd.
  assert (Hplane : forall sd out, plane_step orig dir sd out = (flt_max, out)).
  { intros sd out. unfold plane_step.
    destruct (dgtb _ _) eqn:Hy; [|reflexivity].
    unfold dgtb in Hy. cbn in Hy. apply Rltb_true in Hy.
    rewrite Rabs_right in Hy by lra.
    assert (Hpos : 0 < ExactR.Rdecimal 1 3).
    { unfold ExactR.Rdecimal. change (10 ^ Z.of_nat 3)%Z with 1000%Z. lra. }
    assert (Hle : - (vy orig + 4) / vy dir <= 0).
    { apply Rmult_le_reg_r with (vy dir); [lra|].
      replace (- (vy orig + 4) / vy dir * vy dir) with (- (vy orig + 4))
        by (field; lra).
      lra. }
    unfold plane_wins, fgtb. cbn.
    replace (ExactR.Rltb 0 (- (vy orig + 4) / vy dir)) with false
      by (symmetry; apply Rltb_false; exact Hle).
    reflexivity. }
  split; [exact Hplane|].
  rewrite cast_ray_unfold.
  destruct (to_size_t maxDepth <? depth)%Z; [reflexivity|].
  unfold scene_intersect, spheres_loop. cbn [fold_left].
  rewrite Hplane. rewrite far_cutoff. reflexivity.
Qed.

Lemma plane_not_hit_from_above_witness :
  let orig := mkVec3f 0 0 0 in
  let dir := mkVec3f 0 1 0 in
  cast_ray 1 orig dir [] [] 0 4 = Some (background, O).
Proof.
  intros orig dir.
  apply (plane_not_hit_from_above 0 orig dir [] 0 4); cbn; lra.
Defined.

(** ** The loop over the lights in exact arithmetic *)

Lemma Rplus_swap (d a b : R) : d + a + b = d + b + a.
Proof. ring. Qed.

(** Two iterations of the loop over the lights commute. *)
Lemma light_step_swap (spheres : list Sphere) (dir point N : Vec3f)
  (mat : MMaterial) (acc : R * R) (x y : Light) :
  light_step spheres dir point N mat (light_step spheres dir point N mat acc x) y
  = light_step spheres dir point N mat (light_step spheres dir point N mat acc y) x.
Proof.
  unfold light_step. destruct acc as [d s]. cbv beta iota zeta.
  destruct (occluded spheres _ _ (norm (vsub (position x) point)));
    destruct (occluded spheres _ _ (norm (vsub (position y) point)));
    cbv beta iota zeta; try reflexivity.
  apply pair_equal_spec. split; apply Rplus_swap.
Qed.

(** X24. In exact arithmetic the order of the lights does not matter:
    the diffuse and the specular intensity that the loop over the lights
    accumulates are the same for two lists that are permutations of each
    other. *)
Theorem lights_loop_permutation (spheres : list Sphere) (l1 l2 : list Light)
  (dir point N : Vec3f) (mat : MMaterial) :
  Permutation l1 l2 ->
  lights_loop spheres l1 dir point N mat = lights_loop spheres l2 dir point N mat.
Proof.
  intros Hperm. unfold lights_loop.
  generalize (f_of_int 0, f_of_int 0).
  induction Hperm as [|x l l' _ IH|x y l|l l' l'' _ IH1 _ IH2]; intros acc.
  - reflexivity.
  - cbn [fold_left]. apply IH.
  - cbn [fold_left]. rewrite light_step_swap. reflexivity.
  - rewrite IH1. apply IH2.
Qed.

Lemma lights_loop_permutation_witness :
  let a := mkLight (mkVec3f (-20) 20 20) (3 / 2) in
  let b := mkLight (mkVec3f 30 50 (-25)) (9 / 5) in
  let o := mkVec3f 0 0 0 in
  let N := mkVec3f 0 1 0 in
  lights_loop [] [a; b] o o N MMaterial_default
  = lights_loop [] [b; a] o o N MMaterial_default.
Proof.
  intros a b o N.
  apply (lights_loop_permutation [] [a; b] [b; a] o o N MMaterial_default).
  apply perm_swap.
Defined.

Lemma Rpowf_nonneg (x y : R) : 0 <= ExactR.Rpowf x y.
Proof.
  unfold ExactR.Rpowf.
  destruct (Req_dec_T y 0); [lra|]. destruct (Rle_dec x 0); [lra|].
  unfold Rpower. left. apply exp_pos.
Qed.

(** X25. In exact arithmetic, with lights of non-negative intensity the
    loop over the lights never yields a negative diffuse or specular
    intensity, whatever the geometry. *)
Theorem lights_loop_nonneg (spheres : list Sphere) (lights : list Light)
  (dir point N : Vec3f) (mat : MMaterial) :
  (forall l, In l lights -> 0 <= intensity l) ->
  0 <= fst (lights_loop spheres lights dir point N mat)
  /\ 0 <= snd (lights_loop spheres lights dir point N mat).
Proof.
  unfold lights_loop.
  assert (H0 : 0 <= fst (f_of_int 0, f_of_int 0) /\ 0 <= snd (f_of_int 0, f_of_int 0))
    by (cbn; lra).
  revert H0. generalize (f_of_int 0, f_of_int 0).
  induction lights as [|l rest IH]; intros acc Hacc Hint; [exact Hacc|].
  cbn [fold_left]. apply IH.
  - unfold light_step. destruct acc as [d s]. cbv beta iota zeta.
    destruct (occluded _ _ _ _); [exact Hacc|].
    cbn [fst snd] in *. destruct Hacc as [Hd Hs].
    pose proof (Hint l (or_introl eq_refl)) as Hl.
    rewrite !fmax_exact. change (@fadd Exact) with Rplus.
    change (@fmul Exact) with Rmult. change (@powf Exact) with ExactR.Rpowf.
    split.
    + pose proof (Rmax_l (f_of_int 0) (vdot (normalize (vsub (position l) point)) N)) as Hm.
      cbn [f_of_int Exact] in Hm. set (m := Rmax _ _) in *. clearbody m. nra.
    + match goal with |- 0 <= s + ExactR.Rpowf ?a ?b * _ =>
        pose proof (Rpowf_nonneg a b) as Hp; set (p := ExactR.Rpowf a b) in *
      end.
      clearbody p. nra.
  - intros l' Hin. apply Hint. right. exact Hin.
Qed.

Lemma lights_loop_nonneg_witness :
  let a := mkLight (mkVec3f (-20) 20 20) (3 / 2) in
  let o := mkVec3f 0 0 0 in
  let N := mkVec3f 0 1 0 in
  0 <= fst (lights_loop [] [a] o o N MMaterial_default).
Proof.
  intros a o N.
  refine (proj1 (lights_loop_nonneg [] [a] o o N MMaterial_default _)).
  intros l [<- | []]. cbn. lra.
Defined.

(** ** The colour correction in exact arithmetic *)

(** X26. In exact arithmetic the colour correction of render leaves a
    colour whose components are at most 1 as it is, brings every other
    colour to components of at most 1, and is idempotent: applying it a
    second time, as render does to a run that reaches the end of a row,
    changes nothing. *)
Theorem color_correct_exact (c : Vec3f) :
  let c' := color_correct c in
  (vx c <= 1 -> vy c <= 1 -> vz c <= 1 -> c' = c)
  /\ (1 < vx c \/ 1 < vy c \/ 1 < vz c ->
      vx c' <= 1 /\ vy c' <= 1 /\ vz c' <= 1)
  /\ color_correct c' = c'.
Proof.
  intros c'.
  assert (Hfix : forall v : Vec3f,
            vx v <= 1 -> vy v <= 1 -> vz v <= 1 -> color_correct v = v).
  { intros v Hx Hy Hz. unfold color_correct, fgtb.
    rewrite !fmax_exact. cbn.
    replace (ExactR.Rltb 1 (Rmax (vx v) (Rmax (vy v) (vz v)))) with false;
      [reflexivity|].
    symmetry. apply Rltb_false. apply Rmax_lub; [|apply Rmax_lub]; assumption. }
  assert (Hbound : 1 < vx c \/ 1 < vy c \/ 1 < vz c ->
                   vx c' <= 1 /\ vy c' <= 1 /\ vz c' <= 1).
  { intros Hbig. unfold c', color_correct, fgtb.
    rewrite !fmax_exact. cbn.
    set (m := Rmax (vx c) (Rmax (vy c) (vz c))).
    assert (Hmx : vx c <= m) by apply Rmax_l.
    assert (Hmy : vy c <= m).
    { apply Rle_trans with (Rmax (vy c) (vz c)); [apply Rmax_l | apply Rmax_r]. }
    assert (Hmz : vz c <= m).
    { apply Rle_trans with (Rmax (vy c) (vz c)); [apply Rmax_r | apply Rmax_r]. }
    assert (Hm : 1 < m) by (destruct Hbig as [H | [H | H]]; lra).
    replace (ExactR.Rltb 1 m) with true by (symmetry; apply Rltb_true; exact Hm).
    cbn. unfold ExactR.Rdecimal. change (10 ^ Z.of_nat 0)%Z with 1%Z.
    assert (Hk : 0 < 1 / 1 / m) by (apply Rdiv_lt_0_compat; lra).
    assert (Hkm : m * (1 / 1 / m) = 1) by (field; lra).
    set (k := 1 / 1 / m) in *. clearbody k m.
    repeat split; nra. }
  split; [exact (Hfix c)|].
  assert (Hcases : (vx c <= 1 /\ vy c <= 1 /\ vz c <= 1)
                   \/ (1 < vx c \/ 1 < vy c \/ 1 < vz c)).
  { destruct (Rle_dec (vx c) 1); [|right; lra].
    destruct (Rle_dec (vy c) 1); [|right; lra].
    destruct (Rle_dec (vz c) 1); [left; lra | right; lra]. }
  split; [exact Hbound|].
  destruct Hcases as [(Hx & Hy & Hz) | Hbig].
  - unfold c'. rewrite (Hfix c Hx Hy Hz). exact (Hfix c Hx Hy Hz).
  - destruct (Hbound Hbig) as (Hx & Hy & Hz). exact (Hfix c' Hx Hy Hz).
Qed.

(** ** The conversion to a Color in exact arithmetic *)

Lemma Rtrunc_byte (r : R) : 0 <= r <= 255 -> (0 <= ExactR.Rtrunc r <= 255)%Z.
Proof.
  intros Hr. unfold ExactR.Rtrunc.
  destruct (Rle_dec 0 r) as [_|]; [|lra].
  destruct (base_Int_part r) as [H1 H2].
  split.
  - apply le_IZR. destruct (Z_le_gt_dec 0 (Int_part r)) as [Hge|Hlt].
    + apply IZR_le. exact Hge.
    + exfalso. assert (IZR (Int_part r) <= -1) by (apply IZR_le; lia). lra.
  - apply le_IZR. lra.
Qed.

(** X27. In exact arithmetic, for a colour without a negative component
    the conversion to unsigned char of the corrected colour is defined:
    255 times each corrected component truncates to a number of 0..255,
    each channel is that number, and alpha is 255. *)
Theorem to_Color_no_wrap (c : Vec3f) :
  0 <= vx c -> 0 <= vy c -> 0 <= vz c ->
  let c' := color_correct c in
  to_Color c' = Done (mkColor (ExactR.Rtrunc (255 * vx c'))
                              (ExactR.Rtrunc (255 * vy c'))
                              (ExactR.Rtrunc (255 * vz c')) 255)
  /\ (0 <= ExactR.Rtrunc (255 * vx c') <= 255)%Z
  /\ (0 <= ExactR.Rtrunc (255 * vy c') <= 255)%Z
  /\ (0 <= ExactR.Rtrunc (255 * vz c') <= 255)%Z.
Proof.
  intros Hx Hy Hz c'.
  assert (Hc' : 0 <= vx c' <= 1 /\ 0 <= vy c' <= 1 /\ 0 <= vz c' <= 1).
  { unfold c', color_correct, fgtb. rewrite !fmax_exact. cbn.
    set (m := Rmax (vx c) (Rmax (vy c) (vz c))).
    assert (Hmx : vx c <= m) by apply Rmax_l.
    assert (Hmy : vy c <= m).
    { apply Rle_trans with (Rmax (vy c) (vz c)); [apply Rmax_l | apply Rmax_r]. }
    assert (Hmz : vz c <= m).
    { apply Rle_trans with (Rmax (vy c) (vz c)); [apply Rmax_r | apply Rmax_r]. }
    destruct (ExactR.Rltb 1 m) eqn:Hm;
      [apply Rltb_true in Hm | apply Rltb_false in Hm].
    - cbn. unfold ExactR.Rdecimal. change (10 ^ Z.of_nat 0)%Z with 1%Z.
      assert (Hk : 0 < 1 / 1 / m) by (apply Rdiv_lt_0_compat; lra).
      assert (Hkm : m * (1 / 1 / m) = 1) by (field; lra).
      set (k := 1 / 1 / m) in *. clearbody k m.
      repeat split; nra.
    - repeat split; lra. }
  destruct Hc' as ((Hx0 & Hx1) & (Hy0 & Hy1) & (Hz0 & Hz1)).
  pose proof (Rtrunc_byte (255 * vx c') ltac:(lra)) as Bx.
  pose proof (Rtrunc_byte (255 * vy c') ltac:(lra)) as By.
  pose proof (Rtrunc_byte (255 * vz c') ltac:(lra)) as Bz.
  split; [|auto].
  unfold to_Color, to_uchar.
  change (vnth c' 0) with (vx c'). change (vnth c' 1) with (vy c').
  change (vnth c' 2) with (vz c').
  cbn [int_of_f fmul f_of_int Exact].
  destruct Bx as [Bx0 Bx1], By as [By0 By1], Bz as [Bz0 Bz1].
  rewrite !(proj2 (Z.leb_le _ _)) by assumption.
  reflexivity.
Qed.

Lemma to_Color_no_wrap_witness :
  let c := mkVec3f 2 1 0 in
  exists k, to_Color (color_correct c) = Done k /\ (0 <= cr k <= 255)%Z.
Proof.
  intros c.
  destruct (to_Color_no_wrap c) as (Hk & Hr & _); [cbn; lra ..|].
  eexists. split; [exact Hk | exact Hr].
Defined.

(** ** The primary rays in exact arithmetic *)

(** X28. In exact arithmetic every primary ray of render is a unit
    vector that points into the half space z < 0, whatever the pixel and
    the grid. *)
Theorem pixel_dir_unit (i j w h : Z) :
  norm (pixel_dir i j w h) = 1 /\ vz (pixel_dir i j w h) < 0.
Proof.
  unfold pixel_dir.
  set (v := mkVec3f (pixel_x i w h) (pixel_y j h) (f_of_int (-1))).
  assert (Hn : 0 < norm v).
  { unfold norm. cbn [fsqrt Exact]. apply sqrt_lt_R0.
    unfold v. generalize (pixel_x i w h) (pixel_y j h). intros x y.
    cbn. nra. }
  split; [apply norm_normalize; exact Hn|].
  unfold normalize. cbn [vscale vz]. unfold v at 1. cbn [vz].
  cbn [f_of_int fmul fdiv Exact].
  assert (0 < 1 / norm v) by (apply Rdiv_lt_0_compat; lra).
  nra.
Qed.

(** X29. In exact arithmetic the grid of primary rays is centred on the
    optical axis: the mirrored column w - 1 - i has the opposite x, and
    the mirrored row h - 1 - j the opposite y. *)
Theorem pixel_grid_centred (i j w h : Z) :
  (w <> 0)%Z -> (h <> 0)%Z ->
  pixel_x (w - 1 - i) w h = - pixel_x i w h
  /\ pixel_y (h - 1 - j) h = - pixel_y j h.
Proof.
  intros Hw Hh. unfold pixel_x, pixel_y.
  cbn -[fov]. rewrite !minus_IZR. unfold ExactR.Rdecimal.
  change (10 ^ Z.of_nat 1)%Z with 10%Z. change (10 ^ Z.of_nat 0)%Z with 1%Z.
  assert (HW : IZR w <> 0) by (apply not_0_IZR; exact Hw).
  assert (HH : IZR h <> 0) by (apply not_0_IZR; exact Hh).
  generalize (tan (IZR fov / (2 / 1))). intros t.
  split; field; auto.
Qed.

Lemma pixel_grid_centred_witness :
  pixel_x (128 - 1 - 0) 128 96 = - pixel_x 0 128 96
  /\ pixel_y (96 - 1 - 0) 96 = - pixel_y 0 96.
Proof.
  apply (pixel_grid_centred 0 0 128 96); discriminate.
Defined.

(** ** The checkerboard in exact arithmetic *)

Lemma Rtrunc_succ (r : R) :
  0 <= r \/ r + 1 <= 0 -> ExactR.Rtrunc (r + 1) = (ExactR.Rtrunc r + 1)%Z.
Proof.
  intros [Hr | Hr]; unfold ExactR.Rtrunc.
  - destruct (Rle_dec 0 r) as [_|]; [|lra].
    destruct (Rle_dec 0 (r + 1)) as [_|]; [|lra].
    destruct (base_Int_part r) as [H1 H2].
    symmetry. apply Int_part_spec. rewrite plus_IZR. lra.
  - destruct (Rle_dec 0 (r + 1)) as [H0|H0].
    + assert (Hr1 : r = -1) by lra. subst r.
      destruct (Rle_dec 0 (-1)) as [|_]; [lra|].
      replace (-1 + 1) with 0 by lra. replace (- -1) with 1 by lra.
      assert (E0 : 0%Z = Int_part 0) by (apply Int_part_spec; lra).
      assert (E1 : 1%Z = Int_part 1) by (apply Int_part_spec; lra).
      rewrite <- E0, <- E1. reflexivity.
    + destruct (Rle_dec 0 r) as [|_]; [lra|].
      destruct (base_Int_part (- r)) as [H1 H2].
      assert (Int_part (- (r + 1)) = (Int_part (- r) - 1)%Z); [|lia].
      symmetry. apply Int_part_spec. rewrite minus_IZR. lra.
Qed.

(** X30. In exact arithmetic the tiles of the checkerboard are two
    units wide: moving the hit point by 2 along x flips the parity test
    wherever x >= -2000, and moving it by 2 along z flips it wherever the
    two points have z <= 0. *)
Theorem checker_period (x y z : R) :
  (-2000 <= x ->
   checker_odd (mkVec3f (x + 2) y z) = negb (checker_odd (mkVec3f x y z)))
  /\ (z + 2 <= 0 ->
      checker_odd (mkVec3f x y (z + 2)) = negb (checker_odd (mkVec3f x y z))).
Proof.
  rewrite !checker_odd_parity.
  cbn [vx vz d_of_f d_lit d_of_int dmul dadd int_of_d Exact].
  unfold ExactR.Rdecimal. change (10 ^ Z.of_nat 1)%Z with 10%Z.
  split; intros H.
  - replace (5 / 10 * (x + 2) + 1000) with (5 / 10 * x + 1000 + 1) by lra.
    rewrite Rtrunc_succ by (left; lra).
    rewrite <- Z.add_assoc, (Z.add_comm 1), Z.add_assoc.
    rewrite Z.odd_add. cbn. apply xorb_true_r.
  - replace (5 / 10 * (z + 2)) with (5 / 10 * z + 1) by lra.
    rewrite Rtrunc_succ by (right; lra).
    rewrite Z.add_assoc, Z.odd_add. cbn. apply xorb_true_r.
Qed.

Lemma checker_period_witness :
  checker_odd (mkVec3f (1 + 2) (-4) (-15))
  = negb (checker_odd (mkVec3f 1 (-4) (-15))).
Proof.
  apply (proj1 (checker_period 1 (-4) (-15))). lra.
Defined.

End ExactProperties.
